(** * gRPC user service: validation, error classification and readiness

    A shallow embedding of [server/server.js] and of the readiness loop of
    [client/client.js], followed by the properties of the service contract.

    Conventions of the embedding.
    - A JavaScript string is the list of its UTF-16 code units ([jsstring]).
      Texts that the program itself produces (status messages, console
      lines) are ordinary [string]s.
    - [String.prototype.toLowerCase] and the [LOWER] function of the
      database are builtins of the two runtimes; they are parameters of the
      handlers, and the properties that a proof needs from them are stated
      where they are used.  [toLowerCaseLatin] is their restriction to the
      Basic Latin block and serves for concrete runs.
    - The handlers are asynchronous functions that answer through a
      callback.  Each of them issues at most one statement, so a handler is
      a function from the request and the pool to the callback's arguments
      and the new pool.  What the environment does to the statement (a
      refused connection, a socket dropped before or after the store has
      run the statement) is the argument [fault].
    - The table is the one that [initializeDatabase] creates: the columns,
      their types and their constraints are those of the [CREATE TABLE]
      statement.  The store holds text in UTF-8: a character is a code
      point, so a surrogate pair counts once ([characters]), and the
      character U+0000 is refused in a text parameter.  The strings of a
      request are decoded from UTF-8 by the loader of the messages, so
      their surrogates come in pairs.
    - The console output of the three handlers is left out; the console
      output of the readiness loops is kept, as events. *)

From Stdlib Require Import List ZArith NArith String Ascii Lia Bool.
From Stdlib Require Import Permutation Sorted DecimalString.
Import ListNotations.

Set Implicit Arguments.

(* ================================================================== *)
(** ** JavaScript strings *)

Definition jsstring := list N.

(** The code units of an ASCII literal. *)
Definition js (s : string) : jsstring :=
  map N_of_ascii (list_ascii_of_string s).

Fixpoint jsstring_eqb (a b : jsstring) : bool :=
  match a, b with
  | [], [] => true
  | x :: a', y :: b' => N.eqb x y && jsstring_eqb a' b'
  | _, _ => false
  end.

(** [WhiteSpace] and [LineTerminator] of ECMAScript: the code units that
    [\s] matches and that [trim] strips. *)
Definition isWhiteSpace (c : N) : bool :=
  ((9 <=? c) && (c <=? 13) || (c =? 32) || (c =? 160) || (c =? 5760)
   || (8192 <=? c) && (c <=? 8202) || (c =? 8232) || (c =? 8233)
   || (c =? 8239) || (c =? 8287) || (c =? 12288) || (c =? 65279))%N.

Fixpoint trimStart (s : jsstring) : jsstring :=
  match s with
  | [] => []
  | c :: t => if isWhiteSpace c then trimStart t else s
  end.

Definition trimEnd (s : jsstring) : jsstring := rev (trimStart (rev s)).

Definition trim (s : jsstring) : jsstring := trimEnd (trimStart s).

(** The two halves of a surrogate pair. *)
Definition isHighSurrogate (c : N) : bool := ((55296 <=? c) && (c <=? 56319))%N.

Definition isLowSurrogate (c : N) : bool := ((56320 <=? c) && (c <=? 57343))%N.

(** The number of characters (code points) of a string: a surrogate pair
    is one character. *)
Fixpoint characters (s : jsstring) : nat :=
  match s with
  | [] => O
  | c :: t =>
      match t with
      | d :: t' =>
          if isHighSurrogate c && isLowSurrogate d then S (characters t')
          else S (characters t)
      | [] => 1%nat
      end
  end.

(** The first [n] characters of a string, and what follows them. *)
Fixpoint take_characters (n : nat) (s : jsstring) : jsstring :=
  match n with
  | O => []
  | S n' =>
      match s with
      | [] => []
      | c :: t =>
          match t with
          | d :: t' =>
              if isHighSurrogate c && isLowSurrogate d
              then c :: d :: take_characters n' t'
              else c :: take_characters n' t
          | [] => [c]
          end
      end
  end.

Fixpoint drop_characters (n : nat) (s : jsstring) : jsstring :=
  match n with
  | O => s
  | S n' =>
      match s with
      | [] => []
      | c :: t =>
          match t with
          | d :: t' =>
              if isHighSurrogate c && isLowSurrogate d
              then drop_characters n' t'
              else drop_characters n' t
          | [] => []
          end
      end
  end.

(** [!s] for a string [s]: only the empty string is falsy. *)
Definition falsy_string (s : jsstring) : bool :=
  match s with [] => true | _ :: _ => false end.

(** [!n] for an int32 number [n]: only zero is falsy. *)
Definition falsy_number (n : Z) : bool := Z.eqb n 0.

(** Decimal text of a number inside a template literal. *)
Definition decimal (n : Z) : string := NilZero.string_of_int (Z.to_int n).

(** [toLowerCase] on the Basic Latin block. *)
Definition toLowerCaseLatinUnit (c : N) : N :=
  if ((65 <=? c) && (c <=? 90))%N then (c + 32)%N else c.

Definition toLowerCaseLatin (s : jsstring) : jsstring :=
  map toLowerCaseLatinUnit s.

(* ================================================================== *)
(** ** Regular expressions *)

(** The fragment of the regular expressions of JavaScript that the program
    uses: character classes, concatenation and [+]. *)
Inductive regex : Type :=
| Void : regex
| Eps : regex
| Class : (N -> bool) -> regex
| Cat : regex -> regex -> regex
| Alt : regex -> regex -> regex
| Star : regex -> regex.

Definition Plus (r : regex) : regex := Cat r (Star r).

Fixpoint nullable (r : regex) : bool :=
  match r with
  | Void => false
  | Eps => true
  | Class _ => false
  | Cat r1 r2 => nullable r1 && nullable r2
  | Alt r1 r2 => nullable r1 || nullable r2
  | Star _ => true
  end.

Fixpoint deriv (c : N) (r : regex) : regex :=
  match r with
  | Void => Void
  | Eps => Void
  | Class p => if p c then Eps else Void
  | Cat r1 r2 =>
      if nullable r1 then Alt (Cat (deriv c r1) r2) (deriv c r2)
      else Cat (deriv c r1) r2
  | Alt r1 r2 => Alt (deriv c r1) (deriv c r2)
  | Star r1 => Cat (deriv c r1) (Star r1)
  end.

Fixpoint derivs (s : jsstring) (r : regex) : regex :=
  match s with
  | [] => r
  | c :: t => derivs t (deriv c r)
  end.

(** [/^r$/.test(s)]: with both anchors, the whole of [s] has to match. *)
Definition regex_test (r : regex) (s : jsstring) : bool :=
  nullable (derivs s r).

(** The words of a regular expression. *)
Inductive Matches : regex -> jsstring -> Prop :=
| MEps : Matches Eps []
| MClass : forall (p : N -> bool) c, p c = true -> Matches (Class p) [c]
| MCat : forall r1 r2 s1 s2,
    Matches r1 s1 -> Matches r2 s2 -> Matches (Cat r1 r2) (s1 ++ s2)
| MAltL : forall r1 r2 s, Matches r1 s -> Matches (Alt r1 r2) s
| MAltR : forall r1 r2 s, Matches r2 s -> Matches (Alt r1 r2) s
| MStarNil : forall r, Matches (Star r) []
| MStarCons : forall r s1 s2,
    Matches r s1 -> Matches (Star r) s2 -> Matches (Star r) (s1 ++ s2).

(** [[^\s@]] *)
Definition notSpaceNorAt (c : N) : bool :=
  negb (isWhiteSpace c || (c =? 64)%N).

(** [/^[^\s@]+@[^\s@]+\.[^\s@]+$/] *)
Definition emailRegex : regex :=
  Cat (Plus (Class notSpaceNorAt))
   (Cat (Class (N.eqb 64))
     (Cat (Plus (Class notSpaceNorAt))
       (Cat (Class (N.eqb 46))
            (Plus (Class notSpaceNorAt))))).

Definition isValidEmail (email : jsstring) : bool :=
  regex_test emailRegex email.

(** The shape that the expression describes, said without the expression:
    [local@domain.tld], the three parts not empty and free of white space
    and of [@]. *)
Definition emailPart (s : jsstring) : Prop :=
  s <> [] /\ Forall (fun c => notSpaceNorAt c = true) s.

Definition emailShape (email : jsstring) : Prop :=
  exists l d t,
    email = l ++ [64%N] ++ d ++ [46%N] ++ t
    /\ emailPart l /\ emailPart d /\ emailPart t.

(* ================================================================== *)
(** ** The wire contract *)

(** [grpc.status] *)
Inductive Status : Type :=
| OK | CANCELLED | UNKNOWN | INVALID_ARGUMENT | DEADLINE_EXCEEDED
| NOT_FOUND | ALREADY_EXISTS | PERMISSION_DENIED | RESOURCE_EXHAUSTED
| FAILED_PRECONDITION | ABORTED | OUT_OF_RANGE | UNIMPLEMENTED
| INTERNAL | UNAVAILABLE | DATA_LOSS | UNAUTHENTICATED.

(** A row of [users], and the [User] message built from it. *)
Record User : Type := mkUser {
  user_id : Z;
  user_name : jsstring;
  user_email : jsstring
}.

(** Modelled from the spec: the messages of [proto/user.proto], which is
    not among the sources.  The fields are those of the wire contract, with
    [id] an [int32], which the handlers read as a number; the loader is
    configured with [defaults: true], so an absent string field reads as
    the empty string and an absent [id] as zero. *)
Record CreateUserRequest : Type := mkCreateUserRequest {
  req_name : jsstring;
  req_email : jsstring
}.

Record CreateUserResponse : Type := mkCreateUserResponse {
  resp_user : User
}.

Record GetUsersRequest : Type := mkGetUsersRequest {
  req_name_filter : jsstring
}.

Record GetUsersResponse : Type := mkGetUsersResponse {
  resp_users : list User
}.

Record DeleteUserRequest : Type := mkDeleteUserRequest {
  req_id : Z
}.

Record DeleteUserResponse : Type := mkDeleteUserResponse {
  resp_success : bool;
  resp_message : string
}.

(** The arguments of the callback: [callback(null, response)] or
    [callback({code, message})]. *)
Inductive outcome (R : Type) : Type :=
| Reply : R -> outcome R
| Fail : Status -> string -> outcome R.

Arguments Reply {R} _.
Arguments Fail {R} _ _.

(* ================================================================== *)
(** ** Exceptions *)

(** A thrown value: [code] is its [code] property, if it has one (the
    SQLSTATE of an error of the database, the name of a system error). *)
Record exn : Type := mkExn {
  exn_code : option string;
  exn_message : string
}.

Definition pgError (sqlstate message : string) : exn :=
  mkExn (Some sqlstate) message.

Definition TypeError (message : string) : exn := mkExn None message.

(** The body of a [try] block either completes or throws. *)
Definition fallible (A : Type) : Type := (A + exn)%type.

Definition ret {A : Type} (a : A) : fallible A := inl a.

Definition throw {A : Type} (e : exn) : fallible A := inr e.

Definition bind {A B : Type} (m : fallible A) (k : A -> fallible B)
  : fallible B :=
  match m with
  | inl a => k a
  | inr e => inr e
  end.

Notation "x <- m ;; k" := (bind m (fun x => k))
  (at level 61, m at next level, right associativity).

(** [try { body } catch (err) { handler }] *)
Definition try_catch {A : Type} (body : fallible A) (handler : exn -> A)
  : A :=
  match body with
  | inl a => a
  | inr e => handler e
  end.

(** [err.code === c] *)
Definition code_is (e : exn) (c : string) : bool :=
  match exn_code e with
  | Some c' => String.eqb c' c
  | None => false
  end.

(** [rows[0]], read for one of its properties: an absent row is
    [undefined], and reading a property of [undefined] throws. *)
Definition first_row {A : Type} (rows : list A) : fallible A :=
  match rows with
  | r :: _ => ret r
  | [] => throw (TypeError "Cannot read properties of undefined")
  end.

(* ================================================================== *)
(** ** The record store *)

(** The statements that the program sends. *)
Inductive Statement : Type :=
| CreateTableUsers : Statement
| InsertUser : jsstring -> jsstring -> Statement
| SelectUsersLike : jsstring -> Statement
| SelectUsers : Statement
| DeleteUserById : Z -> Statement.

(** The table [users] with the sequence behind its [SERIAL] column, and
    the statements sent so far (latest last). *)
Record Pool : Type := mkPool {
  users : list User;
  users_id_seq : Z;
  issued : list Statement
}.

Definition record (st : Statement) (p : Pool) : Pool :=
  mkPool (users p) (users_id_seq p) (issued p ++ [st]).

(** The table as [CREATE TABLE] makes it. *)
Definition emptyPool : Pool := mkPool [] 0 [].

(** [CREATE TABLE IF NOT EXISTS users (...)]: an existing table is kept. *)
Definition initializeDatabase (existing : option Pool) : Pool :=
  match existing with
  | Some p => record CreateTableUsers p
  | None => record CreateTableUsers emptyPool
  end.

(** The largest value of the sequence of a [SERIAL] column. *)
Definition serial_max : Z := 2147483647.

(** [nextval]: the sequence moves on even if the statement fails later. *)
Definition nextval (p : Pool) : fallible Z * Pool :=
  if (users_id_seq p <? serial_max)%Z
  then (ret (users_id_seq p + 1)%Z,
        mkPool (users p) (users_id_seq p + 1)%Z (issued p))
  else (throw (pgError "2200H" "nextval: reached maximum value of sequence"),
        p).

(** A text parameter of a statement, as the store receives it: text with
    the character U+0000 is refused when the parameters are bound, before
    the statement runs. *)
Definition text_parameter (s : jsstring) : fallible jsstring :=
  if existsb (N.eqb 0) s
  then throw (pgError "22021" "invalid byte sequence for encoding UTF8: 0x00")
  else ret s.

(** Assignment to a [VARCHAR(n)] column: a value of more than [n]
    characters is an error, unless all that exceeds is spaces, which are
    cut. *)
Definition varchar (n : nat) (s : jsstring) : fallible jsstring :=
  if (characters s <=? n)%nat then ret s
  else if forallb (N.eqb 32) (drop_characters n s)
  then ret (take_characters n s)
  else throw (pgError "22001" "value too long for type character varying").

Definition has_id (id : Z) (rows : list User) : bool :=
  existsb (fun r => Z.eqb (user_id r) id) rows.

Definition has_email (email : jsstring) (rows : list User) : bool :=
  existsb (fun r => jsstring_eqb (user_email r) email) rows.

(** [PRIMARY KEY] on [id] and [UNIQUE] on [email]. *)
Definition check_unique (row : User) (rows : list User) : fallible unit :=
  if has_id (user_id row) rows
  then throw (pgError "23505"
         "duplicate key value violates unique constraint users_pkey")
  else if has_email (user_email row) rows
  then throw (pgError "23505"
         "duplicate key value violates unique constraint users_email_key")
  else ret tt.

(** The two parameters of the insert, bound and brought to the type of
    their columns.  This comes first: a parameter that is refused leaves
    the sequence where it is. *)
Definition insert_values (name email : jsstring)
  : fallible (jsstring * jsstring) :=
  n <- text_parameter name ;;
  e <- text_parameter email ;;
  n' <- varchar 255 n ;;
  e' <- varchar 255 e ;;
  ret (n', e').

(** [INSERT INTO users (name, email) VALUES ($1, $2)
     RETURNING id, name, email]: the values, then the next [id], then the
    two indexes. *)
Definition insertUser (name email : jsstring) (p : Pool)
  : fallible (list User) * Pool :=
  match insert_values name email with
  | inr e => (throw e, p)
  | inl (n, e) =>
      match nextval p with
      | (inr err, p1) => (throw err, p1)
      | (inl id, p1) =>
          let row := mkUser id n e in
          match check_unique row (users p1) with
          | inr err => (throw err, p1)
          | inl _ =>
              (ret [row],
               mkPool (users p1 ++ [row]) (users_id_seq p1) (issued p1))
          end
      end
  end.

(** [ORDER BY id] *)
Fixpoint insert_by_id (r : User) (rows : list User) : list User :=
  match rows with
  | [] => [r]
  | x :: t =>
      if (user_id r <=? user_id x)%Z then r :: rows
      else x :: insert_by_id r t
  end.

Definition order_by_id (rows : list User) : list User :=
  fold_right insert_by_id [] rows.

(** A [LIKE] pattern, read with the backslash as its escape character. *)
Inductive like_token : Type :=
| AnyString : like_token
| AnyChar : like_token
| Literal : N -> like_token.

Fixpoint like_parse (pattern : jsstring) : fallible (list like_token) :=
  match pattern with
  | [] => ret []
  | c :: t =>
      if (c =? 92)%N then
        match t with
        | [] => throw (pgError "22025"
                  "LIKE pattern must not end with escape character")
        | d :: t' => toks <- like_parse t' ;; ret (Literal d :: toks)
        end
      else
        toks <- like_parse t ;;
        ret ((if (c =? 37)%N then AnyString
              else if (c =? 95)%N then AnyChar
              else Literal c) :: toks)
  end.

(** [s LIKE pattern]: [%] stands for any string and [_] for any one
    character, a surrogate pair being one. *)
Fixpoint like_match (toks : list like_token) (s : jsstring) : bool :=
  match toks with
  | [] => match s with [] => true | _ :: _ => false end
  | Literal c :: toks' =>
      match s with
      | x :: s' => (x =? c)%N && like_match toks' s'
      | [] => false
      end
  | AnyChar :: toks' =>
      match s with
      | c :: s' =>
          match s' with
          | d :: s'' =>
              if isHighSurrogate c && isLowSurrogate d
              then like_match toks' s''
              else like_match toks' s'
          | [] => like_match toks' s'
          end
      | [] => false
      end
  | AnyString :: toks' =>
      (fix skip (s : jsstring) : bool :=
         like_match toks' s
         || match s with
            | [] => false
            | _ :: s' => skip s'
            end) s
  end.

(** What the environment does to a statement: [pool.query] rejects with
    an error of the connection, either before the store has run the
    statement or after, when the statement has taken effect and only its
    result is lost. *)
Inductive failure : Type :=
| Before : exn -> failure
| After : exn -> failure.

(** [pool.query(statement)]: the statement is sent, and the store runs it
    unless the connection fails first. *)
Definition query {A : Type} (fault : option failure) (st : Statement)
    (run : Pool -> fallible A * Pool) (p : Pool) : fallible A * Pool :=
  match fault with
  | Some (Before e) => (throw e, record st p)
  | Some (After e) => (throw e, snd (run (record st p)))
  | None => run (record st p)
  end.

(** [SELECT id, name, email FROM users ORDER BY id] *)
Definition selectUsers (p : Pool) : fallible (list User) * Pool :=
  (ret (order_by_id (users p)), p).

(** [DELETE FROM users WHERE id = $1 RETURNING id] *)
Definition deleteUserById (id : Z) (p : Pool) : fallible (list Z) * Pool :=
  (ret (map user_id (filter (fun r => Z.eqb (user_id r) id) (users p))),
   mkPool (filter (fun r => negb (Z.eqb (user_id r) id)) (users p))
          (users_id_seq p) (issued p)).

(* ================================================================== *)
(** ** The service handlers *)

Section Handlers.

(** [String.prototype.toLowerCase] *)
Variable toLowerCase : jsstring -> jsstring.

(** [LOWER] of the database, character by character. *)
Variable pgLower : N -> N.

(** [SELECT id, name, email FROM users
     WHERE LOWER(name) LIKE LOWER($1) ORDER BY id] *)
Definition selectUsersLike (pattern : jsstring) (p : Pool)
  : fallible (list User) * Pool :=
  (bound <- text_parameter pattern ;;
   toks <- like_parse (map pgLower bound) ;;
   ret (order_by_id
          (filter (fun r => like_match toks (map pgLower (user_name r)))
                  (users p))),
   p).

Definition createUser (fault : option failure) (request : CreateUserRequest)
    (p : Pool) : outcome CreateUserResponse * Pool :=
  let name := req_name request in
  let email := req_email request in
  if falsy_string name || falsy_string email then
    (Fail INVALID_ARGUMENT "All fields are required", p)
  else if (List.length (trim name) =? 0)%nat then
    (Fail INVALID_ARGUMENT "Name cannot be empty", p)
  else if negb (isValidEmail email) then
    (Fail INVALID_ARGUMENT "Invalid email format", p)
  else
    let (result, p') :=
      query fault (InsertUser (trim name) (toLowerCase email))
            (insertUser (trim name) (toLowerCase email)) p in
    (try_catch
       (rows <- result ;;
        row <- first_row rows ;;
        let user := mkUser (user_id row) (user_name row) (user_email row) in
        ret (Reply (mkCreateUserResponse user)))
       (fun err =>
          if code_is err "23505" then
            Fail ALREADY_EXISTS "User with this email already exists"
          else Fail INTERNAL "Failed to create user"),
     p').

Definition getUsers (fault : option failure) (request : GetUsersRequest)
    (p : Pool) : outcome GetUsersResponse * Pool :=
  let name_filter := req_name_filter request in
  let (result, p') :=
    if negb (falsy_string name_filter)
       && (0 <? List.length (trim name_filter))%nat
    then
      let params := [37%N] ++ trim name_filter ++ [37%N] in
      query fault (SelectUsersLike params) (selectUsersLike params) p
    else query fault SelectUsers selectUsers p in
  (try_catch
     (rows <- result ;;
      let users :=
        map (fun row => mkUser (user_id row) (user_name row) (user_email row))
            rows in
      ret (Reply (mkGetUsersResponse users)))
     (fun _ => Fail INTERNAL "Failed to retrieve users"),
   p').

Definition deleteUser (fault : option failure) (request : DeleteUserRequest)
    (p : Pool) : outcome DeleteUserResponse * Pool :=
  let id := req_id request in
  if falsy_number id then
    (Fail INVALID_ARGUMENT "User ID is required", p)
  else
    let (result, p') :=
      query fault (DeleteUserById id) (deleteUserById id) p in
    (try_catch
       (rows <- result ;;
        if (List.length rows =? 0)%nat then
          ret (Fail NOT_FOUND
                 ("User with ID " ++ decimal id ++ " not found")%string)
        else
          ret (Reply (mkDeleteUserResponse true
                 ("User with ID " ++ decimal id
                  ++ " successfully deleted")%string)))
       (fun _ => Fail INTERNAL "Failed to delete user"),
     p').

(** One call of the service, with what the environment does to it. *)
Inductive Call : Type :=
| CallCreateUser : option failure -> CreateUserRequest -> Call
| CallGetUsers : option failure -> GetUsersRequest -> Call
| CallDeleteUser : option failure -> DeleteUserRequest -> Call.

Definition serve (c : Call) (p : Pool) : Pool :=
  match c with
  | CallCreateUser fault request => snd (createUser fault request p)
  | CallGetUsers fault request => snd (getUsers fault request p)
  | CallDeleteUser fault request => snd (deleteUser fault request p)
  end.

(** The pools that the service can be in: the table is created empty, the
    server may be started again on the table it left, and in between it
    serves calls. *)
Inductive reachable : Pool -> Prop :=
| reach_created : reachable (initializeDatabase None)
| reach_restarted : forall p,
    reachable p -> reachable (initializeDatabase (Some p))
| reach_served : forall p c, reachable p -> reachable (serve c p).

End Handlers.

(* ================================================================== *)
(** ** The readiness loops *)

(** What a process does while it starts, as seen from outside. *)
Inductive event : Type :=
| Probe : event
| ConsoleLog : string -> event
| ConsoleError : string -> string -> event
| Sleep : Z -> event
| Exit : Z -> event.

(** How an asynchronous function ends. *)
Inductive completion (A : Type) : Type :=
| Returned : A -> completion A
| Thrown : string -> completion A.

Arguments Returned {A} _.
Arguments Thrown {A} _.

Definition newline : string := String (ascii_of_nat 10) EmptyString.

Definition decimal_nat (n : nat) : string :=
  NilZero.string_of_uint (Nat.to_uint n).

(** The [for] loop of [waitForDatabase], entered with [i] and with
    [remaining = retries - i] turns left.  [probe i] tells whether
    [SELECT 1] succeeds at turn [i]. *)
Fixpoint waitForDatabase_from (remaining i retries : nat) (delayMs : Z)
    (probe : nat -> bool) : list event * completion unit :=
  match remaining with
  | O => ([], Thrown "Database did not become ready in time")
  | S remaining' =>
      if probe i then
        ([Probe; ConsoleLog "Database is ready"], Returned tt)
      else
        let (trace, result) :=
          waitForDatabase_from remaining' (S i) retries delayMs probe in
        ([Probe;
          ConsoleLog ("DB not ready, retry " ++ decimal_nat (i + 1) ++ "/"
                      ++ decimal_nat retries ++ "...")%string;
          Sleep delayMs] ++ trace,
         result)
  end.

Definition waitForDatabase (retries : nat) (delayMs : Z)
    (probe : nat -> bool) : list event * completion unit :=
  waitForDatabase_from retries 0 retries delayMs probe.

(** The [for] loop of [waitForServer]; [probe i] tells whether the call
    of [GetUsers] succeeds at turn [i]. *)
Fixpoint waitForServer_from (remaining i maxRetries : nat) (delayMs : Z)
    (probe : nat -> bool) : list event * completion bool :=
  match remaining with
  | O => ([], Thrown "Server did not become available in time")
  | S remaining' =>
      if probe i then
        ([Probe; ConsoleLog ("Server is ready and responding" ++ newline)],
         Returned true)
      else
        let (trace, result) :=
          waitForServer_from remaining' (S i) maxRetries delayMs probe in
        ([Probe;
          ConsoleLog ("Waiting for server... (attempt "
                      ++ decimal_nat (i + 1) ++ "/"
                      ++ decimal_nat maxRetries ++ ")")%string;
          Sleep delayMs] ++ trace,
         result)
  end.

Definition waitForServer (maxRetries : nat) (delayMs : Z)
    (probe : nat -> bool) : list event * completion bool :=
  waitForServer_from maxRetries 0 maxRetries delayMs probe.

(** How a process stands after its start: it runs on, or it has ended
    with a status. *)
Inductive process : Type :=
| Running : process
| Exited : Z -> process.

(** [main] of the server.  [init] is how [initializeDatabase] ends and
    [bound] how the binding of the listener ends.  A listener that is
    bound keeps the process running.  When the binding fails, [main] only
    logs the error and returns: nothing is left but the idle connection of
    the pool, and when the pool closes it the process ends by itself, with
    status 0. *)
Definition server_main (probe : nat -> bool) (init bound : completion unit)
    : list event * process :=
  let start := [ConsoleLog "Waiting for database connection..."; Sleep 3000] in
  match waitForDatabase 20 1000 probe with
  | (trace, Thrown message) =>
      (start ++ trace
       ++ [ConsoleError "Failed to start server:" message; Exit 1],
       Exited 1)
  | (trace, Returned _) =>
      match init with
      | Thrown message =>
          (start ++ trace
           ++ [ConsoleError "Failed to initialize database:" message;
               ConsoleError "Failed to start server:" message; Exit 1],
           Exited 1)
      | Returned _ =>
          match bound with
          | Returned _ =>
              (start ++ trace
               ++ [ConsoleLog "Database initialized successfully";
                   ConsoleLog "gRPC User Service started on port 50051";
                   ConsoleLog "Connected to PostgreSQL database"],
               Running)
          | Thrown message =>
              (start ++ trace
               ++ [ConsoleLog "Database initialized successfully";
                   ConsoleError "Failed to start server:" message],
               Exited 0)
          end
      end
  end.

(** [main] of the client up to the end of its wait; [demo] is the run of
    the demonstration that follows, which ends the process itself. *)
Definition client_main (probe : nat -> bool) (demo : list event * Z)
    : list event * process :=
  let start :=
    [ConsoleLog "Connecting to gRPC server at user-service-server:50051..."] in
  match waitForServer 30 1000 probe with
  | (trace, Thrown message) =>
      (start ++ trace
       ++ [ConsoleError "Failed to connect to server:" message; Exit 1],
       Exited 1)
  | (trace, Returned _) =>
      (start ++ trace ++ fst demo ++ [Exit (snd demo)], Exited (snd demo))
  end.

(** The probes of a trace. *)
Definition probes (trace : list event) : nat :=
  List.length (filter (fun e => match e with Probe => true | _ => false end)
                      trace).

(* ================================================================== *)
(** ** The demonstration of the client *)

(** An error as the client receives it: the code and the message that the
    handler gave to its callback. *)
Definition rejection : Type := (Status * string)%type.

(** An awaited step of [main]: it runs against the pool of the server,
    adds its sleeps to the trace, and resolves or rejects.  The console
    output of the helpers is left out. *)
Definition step (A : Type) : Type :=
  Pool -> list event -> (A + rejection) * Pool * list event.

Definition resolve {A : Type} (a : A) : step A :=
  fun p trace => (inl a, p, trace).

(** [await]: a rejection ends the [try] block. *)
Definition await {A B : Type} (m : step A) (k : A -> step B) : step B :=
  fun p trace =>
    match m p trace with
    | (inl a, p', trace') => k a p' trace'
    | (inr e, p', trace') => (inr e, p', trace')
    end.

Notation "x <~ m ;; k" := (await m (fun x => k))
  (at level 61, m at next level, right associativity).

(** [sleep(ms)] *)
Definition sleep (ms : Z) : step unit :=
  fun p trace => (inl tt, p, trace ++ [Sleep ms]).

(** A call of the service through the stub: the promise resolves with
    what the helper takes from the response, or rejects with the error. *)
Definition call {R A : Type} (handler : Pool -> outcome R * Pool)
    (result : R -> A) : step A :=
  fun p trace =>
    match handler p with
    | (Reply response, p') => (inl (result response), p', trace)
    | (Fail code message, p') => (inr (code, message), p', trace)
    end.

Section Client.

Variable toLowerCase : jsstring -> jsstring.
Variable pgLower : N -> N.

(** The helpers [createUser], [getUsers] and [deleteUser] of the client. *)
Definition client_createUser (fault : option failure) (name email : jsstring)
  : step User :=
  call (createUser toLowerCase fault (mkCreateUserRequest name email))
       resp_user.

Definition client_getUsers (fault : option failure) (nameFilter : jsstring)
  : step (list User) :=
  call (getUsers pgLower fault (mkGetUsersRequest nameFilter)) resp_users.

Definition client_deleteUser (fault : option failure) (userId : Z)
  : step DeleteUserResponse :=
  call (deleteUser fault (mkDeleteUserRequest userId))
       (fun response => response).

(** The [try] block of [main]; [faults k] is what the environment does to
    the statement of call [k].  [263] is the code unit of the last letter
    of the three names. *)
Definition client_demo (faults : nat -> option failure) : step unit :=
  user1 <~ client_createUser (faults 0%nat) (js "Marko Petrovi" ++ [263%N])
             (js "marko.petrovic@example.com") ;;
  user2 <~ client_createUser (faults 1%nat) (js "Ana Jovanovi" ++ [263%N])
             (js "ana.jovanovic@example.com") ;;
  user3 <~ client_createUser (faults 2%nat) (js "Nikola Nikoli" ++ [263%N])
             (js "nikola.nikolic@example.com") ;;
  _ <~ sleep 1000 ;;
  _ <~ client_getUsers (faults 3%nat) [] ;;
  _ <~ sleep 1000 ;;
  _ <~ client_deleteUser (faults 4%nat) (user_id user2) ;;
  _ <~ sleep 1000 ;;
  _ <~ client_getUsers (faults 5%nat) [] ;;
  _ <~ sleep 1000 ;;
  _ <~ client_getUsers (faults 6%nat) (js "Marko") ;;
  _ <~ sleep 500 ;;
  _ <~ client_getUsers (faults 7%nat) (js "nik") ;;
  _ <~ sleep 500 ;;
  _ <~ client_getUsers (faults 8%nat) (js "Ana") ;;
  resolve tt.

(** The [try] block with its [catch]: the trace, the status with which
    the process exits, and the pool that the server is left with. *)
Definition client_try (faults : nat -> option failure) (p : Pool)
  : (list event * Z) * Pool :=
  match client_demo faults p [] with
  | (inl _, p', trace) => ((trace, 0%Z), p')
  | (inr _, p', trace) => ((trace, 1%Z), p')
  end.

(** A run of calls, one after the other. *)
Definition run (calls : list Call) (p : Pool) : Pool :=
  fold_left (fun q c => serve toLowerCase pgLower c q) calls p.

End Client.

(* ================================================================== *)
(** ** Vocabulary of the properties *)

(** A value that a [VARCHAR(255)] column holds as it is: at most 255
    characters. *)
Definition fits (s : jsstring) : Prop := (characters s <= 255)%nat.

(** Text that the store accepts: no character U+0000. *)
Definition textual (s : jsstring) : Prop := ~ In 0%N s.

Definition noWhiteSpace (s : jsstring) : Prop :=
  Forall (fun c => isWhiteSpace c = false) s.

(** What the constraints of the table, the types of its columns and its
    sequence maintain. *)
Record consistent (p : Pool) : Prop := mkConsistent {
  ids_unique : NoDup (map user_id (users p));
  emails_unique : NoDup (map user_email (users p));
  ids_issued :
    Forall (fun r => (1 <= user_id r <= users_id_seq p)%Z) (users p);
  columns_fit :
    Forall (fun r => fits (user_name r) /\ fits (user_email r)) (users p);
  columns_text :
    Forall (fun r => textual (user_name r) /\ textual (user_email r))
           (users p);
  seq_range : (0 <= users_id_seq p <= serial_max)%Z
}.

(** Two addresses that differ at most in the case of their letters. *)
Definition sameEmail (toLowerCase : jsstring -> jsstring)
    (a b : jsstring) : Prop :=
  toLowerCase a = toLowerCase b.

(** Every stored address is free of white space and in lower case. *)
Definition normalized (toLowerCase : jsstring -> jsstring) (p : Pool)
  : Prop :=
  Forall (fun r => noWhiteSpace (user_email r)
                   /\ toLowerCase (user_email r) = user_email r)
         (users p).

(** The request passes the three checks of [createUser]. *)
Definition validRequest (request : CreateUserRequest) : Prop :=
  req_name request <> [] /\ req_email request <> []
  /\ trim (req_name request) <> []
  /\ emailShape (req_email request).

(** The four kinds of error of the service. *)
Definition classified {R : Type} (o : outcome R) : Prop :=
  match o with
  | Reply _ => True
  | Fail code _ =>
      code = INVALID_ARGUMENT \/ code = ALREADY_EXISTS
      \/ code = NOT_FOUND \/ code = INTERNAL
  end.

(** [name] contains [filter], the case of letters apart. *)
Definition containsFilter (pgLower : N -> N) (filter name : jsstring)
  : Prop :=
  exists before after,
    map pgLower name = before ++ map pgLower filter ++ after.

(** Ascending [id]. *)
Definition by_id (a b : User) : Prop := (user_id a <= user_id b)%Z.

(** The characters with a meaning of their own in a [LIKE] pattern. *)
Definition like_special (c : N) : bool :=
  ((c =? 37) || (c =? 95) || (c =? 92))%N.

(** One failed turn of each loop, as it shows in the trace. *)
Definition database_retry (retries : nat) (delayMs : Z) (i : nat)
  : list event :=
  [Probe;
   ConsoleLog ("DB not ready, retry " ++ decimal_nat (i + 1) ++ "/"
               ++ decimal_nat retries ++ "...")%string;
   Sleep delayMs].

Definition server_retry (maxRetries : nat) (delayMs : Z) (i : nat)
  : list event :=
  [Probe;
   ConsoleLog ("Waiting for server... (attempt " ++ decimal_nat (i + 1)
               ++ "/" ++ decimal_nat maxRetries ++ ")")%string;
   Sleep delayMs].

(** Turn [k] is the first whose probe succeeds. *)
Definition first_success (probe : nat -> bool) (k : nat) : Prop :=
  probe k = true /\ forall j, (j < k)%nat -> probe j = false.

(* ================================================================== *)
(** ** Sample data *)

(** The first user of the demonstration of the client, the name padded
    and the address in mixed case. *)
Definition marko : CreateUserRequest :=
  mkCreateUserRequest (js " Marko Petrovic ")
                      (js "Marko.Petrovic@Example.com").

Definition marko_row : User :=
  mkUser 1 (js "Marko Petrovic") (js "marko.petrovic@example.com").

(** The pool after the creation of that user in the new table. *)
Definition pool_marko : Pool :=
  serve toLowerCaseLatin toLowerCaseLatinUnit (CallCreateUser None marko)
        (initializeDatabase None).

(** A second request for the same address in capitals, and the same with
    a name of 256 letters. *)
Definition marko_again : CreateUserRequest :=
  mkCreateUserRequest (js "Marko") (js "MARKO.PETROVIC@EXAMPLE.COM").

Definition marko_long : CreateUserRequest :=
  mkCreateUserRequest (repeat 97%N 256) (js "MARKO.PETROVIC@EXAMPLE.COM").

(** A request for a new address with a name of 256 letters. *)
Definition ana_long : CreateUserRequest :=
  mkCreateUserRequest (repeat 97%N 256) (js "ana.jovanovic@example.com").

(** Requests that fail one check each. *)
Definition no_name : CreateUserRequest :=
  mkCreateUserRequest [] (js "ana.jovanovic@example.com").

Definition blank_name : CreateUserRequest :=
  mkCreateUserRequest (js "   ") (js "ana.jovanovic@example.com").

Definition not_an_email : CreateUserRequest :=
  mkCreateUserRequest (js "Ana Jovanovic") (js "not-an-email").

Definition padded_email : CreateUserRequest :=
  mkCreateUserRequest (js "Ana Jovanovic") (js " ana.jovanovic@example.com").

(** The pool after the creation of a user called [abc] in the new table,
    and a filter with a wildcard. *)
Definition abc : CreateUserRequest :=
  mkCreateUserRequest (js "abc") (js "abc@example.com").

Definition abc_row : User := mkUser 1 (js "abc") (js "abc@example.com").

Definition pool_abc : Pool :=
  serve toLowerCaseLatin toLowerCaseLatinUnit (CallCreateUser None abc)
        (initializeDatabase None).

Definition filter_a_c : GetUsersRequest := mkGetUsersRequest (js "a_c").

(** The three users of the demonstration of the client ([263] is the
    code unit of the last letter of their names), and the pool after their
    creation in the new table. *)
Definition demo_users : list CreateUserRequest :=
  [mkCreateUserRequest (js "Marko Petrovi" ++ [263%N])
                       (js "marko.petrovic@example.com");
   mkCreateUserRequest (js "Ana Jovanovi" ++ [263%N])
                       (js "ana.jovanovic@example.com");
   mkCreateUserRequest (js "Nikola Nikoli" ++ [263%N])
                       (js "nikola.nikolic@example.com")].

Definition pool_demo : Pool :=
  fold_left
    (fun p request =>
       serve toLowerCaseLatin toLowerCaseLatinUnit
             (CallCreateUser None request) p)
    demo_users (initializeDatabase None).

(** A dependency that answers from turn [k] on, and one that never does. *)
Definition ready_from (k : nat) : nat -> bool := fun i => (k <=? i)%nat.

Definition never_ready : nat -> bool := fun _ => false.

(* ================================================================== *)
(** ** Further vocabulary *)

(** The time that a trace spends asleep. *)
Definition slept (trace : list event) : Z :=
  fold_right (fun e total =>
                match e with
                | Sleep ms => (ms + total)%Z
                | _ => total
                end) 0%Z trace.

(** Text of the Basic Latin block. *)
Definition basicLatin (s : jsstring) : Prop :=
  Forall (fun c => (c < 128)%N) s.

(** A string that [trim] leaves as it is. *)
Definition trimmed (s : jsstring) : Prop := trim s = s.

(** The rows of the table but those with the given [id]. *)
Definition without (id : Z) (rows : list User) : list User :=
  filter (fun r => negb (Z.eqb (user_id r) id)) rows.

(** The request [not_an_email] with an address put right. *)
Definition not_an_email_fixed : CreateUserRequest :=
  mkCreateUserRequest (js "Ana Jovanovic") (js "ana.jovanovic@example.com").

(* ================================================================== *)
(** * Properties *)

(** ** Strings *)

Lemma jsstring_eqb_eq (a b : jsstring) : jsstring_eqb a b = true <-> a = b.
Proof.
  revert b; induction a as [|x a IH]; intros [|y b]; simpl;
    try (split; [discriminate | discriminate]); try tauto.
  rewrite andb_true_iff, N.eqb_eq, IH.
  split; [intros [-> ->]; reflexivity | intros E; inversion E; auto].
Qed.


Lemma falsy_string_iff (s : jsstring) : falsy_string s = true <-> s = [].
Proof. destruct s; simpl; split; congruence. Qed.



Lemma trimStart_blank (s : jsstring) :
  trimStart s = [] <-> Forall (fun c => isWhiteSpace c = true) s.
Proof.
  induction s as [|c s IH]; simpl.
  - split; auto.
  - destruct (isWhiteSpace c) eqn:E.
    + rewrite IH. split; [intros H; constructor; assumption|].
      intros H; inversion H; assumption.
    + split; [discriminate|]. intros H; inversion H; congruence.
Qed.

Lemma trimStart_suffix (s : jsstring) :
  exists w, s = w ++ trimStart s /\ Forall (fun c => isWhiteSpace c = true) w.
Proof.
  induction s as [|c s (w & E & F)]; simpl.
  - exists []; split; auto.
  - destruct (isWhiteSpace c) eqn:W.
    + exists (c :: w); split; [simpl; congruence | constructor; assumption].
    + exists []; split; auto.
Qed.

(** [trim] yields the empty string exactly on blank strings. *)
Lemma trim_blank (s : jsstring) :
  trim s = [] <-> Forall (fun c => isWhiteSpace c = true) s.
Proof.
  unfold trim, trimEnd.
  destruct (trimStart_suffix s) as (w & E & F).
  split.
  - intros H.
    assert (R : trimStart (rev (trimStart s)) = []).
    { destruct (trimStart (rev (trimStart s))) as [|x l]; [reflexivity|].
      simpl in H. apply app_eq_nil in H as [_ H]. discriminate. }
    apply trimStart_blank in R.
    rewrite E. apply Forall_app; split; [assumption|].
    apply Forall_rev in R. rewrite rev_involutive in R. exact R.
  - intros H. apply trimStart_blank in H. rewrite H. reflexivity.
Qed.

(* ------------------------------------------------------------------ *)
(** ** The regular expression of e-mail addresses *)

Lemma Matches_nil_nullable (r : regex) (s : jsstring) :
  Matches r s -> s = [] -> nullable r = true.
Proof.
  induction 1; intros E; simpl; try reflexivity; try discriminate.
  - apply app_eq_nil in E as [-> ->]. rewrite IHMatches1, IHMatches2; auto.
  - rewrite IHMatches; auto.
  - rewrite IHMatches; auto using orb_true_r.
Qed.

Lemma nullable_Matches_nil (r : regex) :
  nullable r = true -> Matches r [].
Proof.
  induction r; simpl; intros H; try discriminate.
  - constructor.
  - apply andb_true_iff in H as [H1 H2].
    change (@nil N) with (@nil N ++ []). constructor; auto.
  - apply orb_true_iff in H as [H|H]; [apply MAltL | apply MAltR]; auto.
  - constructor.
Qed.

Lemma Matches_Eps_inv (s : jsstring) : Matches Eps s -> s = [].
Proof. intros H; inversion H; reflexivity. Qed.

Lemma Matches_Class_inv (p : N -> bool) (s : jsstring) :
  Matches (Class p) s -> exists c, s = [c] /\ p c = true.
Proof. intros H; inversion H; subst; eauto. Qed.

Lemma Matches_Cat_inv (r1 r2 : regex) (s : jsstring) :
  Matches (Cat r1 r2) s ->
  exists s1 s2, s = s1 ++ s2 /\ Matches r1 s1 /\ Matches r2 s2.
Proof. intros H; inversion H; subst; eauto. Qed.

Lemma Matches_Alt_inv (r1 r2 : regex) (s : jsstring) :
  Matches (Alt r1 r2) s -> Matches r1 s \/ Matches r2 s.
Proof. intros H; inversion H; subst; auto. Qed.

Lemma Matches_Star_cons (r : regex) (c : N) (s : jsstring) :
  Matches (Star r) (c :: s) ->
  exists s1 s2, s = s1 ++ s2 /\ Matches r (c :: s1) /\ Matches (Star r) s2.
Proof.
  intros H. remember (Star r) as r' eqn:Er. remember (c :: s) as w eqn:Ew.
  revert s Ew.
  induction H as [| | | | | |r0 s1 s2 H1 IH1 H2 IH2];
    intros s' Ew; try discriminate.
  inversion Er; subst r0.
  destruct s1 as [|x s1]; simpl in Ew.
  - apply IH2; auto.
  - inversion Ew; subst. exists s1, s2. auto.
Qed.

Lemma Matches_cons_app (r1 r2 : regex) (c : N) (s1 s2 : jsstring) :
  Matches r1 (c :: s1) -> Matches r2 s2 -> Matches (Cat r1 r2) (c :: s1 ++ s2).
Proof. intros H1 H2. exact (MCat H1 H2). Qed.

Lemma deriv_sound (r : regex) :
  forall c s, Matches (deriv c r) s -> Matches r (c :: s).
Proof.
  induction r as [| |p|r1 IH1 r2 IH2|r1 IH1 r2 IH2|r1 IH1];
    intros c s H; simpl in H.
  - inversion H.
  - inversion H.
  - destruct (p c) eqn:E; [|inversion H].
    apply Matches_Eps_inv in H. subst s. constructor; assumption.
  - destruct (nullable r1) eqn:N1.
    + apply Matches_Alt_inv in H as [H|H].
      * apply Matches_Cat_inv in H as (s1 & s2 & -> & H1 & H2).
        apply Matches_cons_app; auto.
      * exact (MCat (nullable_Matches_nil r1 N1) (IH2 _ _ H)).
    + apply Matches_Cat_inv in H as (s1 & s2 & -> & H1 & H2).
      apply Matches_cons_app; auto.
  - apply Matches_Alt_inv in H as [H|H]; [apply MAltL | apply MAltR]; auto.
  - apply Matches_Cat_inv in H as (s1 & s2 & -> & H1 & H2).
    exact (MStarCons (IH1 _ _ H1) H2).
Qed.

Lemma deriv_complete (r : regex) :
  forall c s, Matches r (c :: s) -> Matches (deriv c r) s.
Proof.
  induction r as [| |p|r1 IH1 r2 IH2|r1 IH1 r2 IH2|r1 IH1];
    intros c s H; simpl.
  - inversion H.
  - inversion H.
  - apply Matches_Class_inv in H as (x & E & Hp).
    inversion E; subst. rewrite Hp. constructor.
  - apply Matches_Cat_inv in H as (s1 & s2 & E & H1 & H2).
    destruct s1 as [|x s1]; simpl in E.
    + subst s2. rewrite (Matches_nil_nullable H1 eq_refl).
      apply MAltR; auto.
    + inversion E; subst.
      destruct (nullable r1); [apply MAltL|]; constructor; auto.
  - apply Matches_Alt_inv in H as [H|H]; [apply MAltL | apply MAltR]; auto.
  - apply Matches_Star_cons in H as (s1 & s2 & -> & H1 & H2).
    constructor; auto.
Qed.

(** The matcher decides membership in the words of the expression. *)
Lemma regex_test_Matches (s : jsstring) :
  forall r, regex_test r s = true <-> Matches r s.
Proof.
  unfold regex_test.
  induction s as [|c s IH]; intros r; simpl.
  - split; [apply nullable_Matches_nil|].
    intros H; exact (Matches_nil_nullable H eq_refl).
  - rewrite IH. split; [apply deriv_sound | apply deriv_complete].
Qed.

Lemma Matches_Star_Class (p : N -> bool) (s : jsstring) :
  Matches (Star (Class p)) s <-> Forall (fun c => p c = true) s.
Proof.
  split.
  - intros H. remember (Star (Class p)) as r eqn:Er.
    induction H as [| | | | | |r0 s1 s2 H1 IH1 H2 IH2];
      try discriminate; [constructor|].
    inversion Er; subst r0.
    apply Forall_app; split; [|auto].
    apply Matches_Class_inv in H1 as (x & -> & Hp). constructor; auto.
  - induction 1 as [|c s Hc _ IH]; [constructor|].
    exact (MStarCons (MClass p c Hc) IH).
Qed.

Lemma Matches_Plus_Class (p : N -> bool) (s : jsstring) :
  Matches (Plus (Class p)) s
  <-> s <> [] /\ Forall (fun c => p c = true) s.
Proof.
  unfold Plus. split.
  - intros H. apply Matches_Cat_inv in H as (s1 & s2 & -> & H1 & H2).
    apply Matches_Class_inv in H1 as (x & -> & Hp).
    apply Matches_Star_Class in H2.
    split; [discriminate | constructor; auto].
  - intros [Hn Hf]. destruct s as [|c s]; [congruence|].
    inversion Hf; subst.
    apply (MCat (s1 := [c])); [constructor; auto|].
    apply Matches_Star_Class; auto.
Qed.

Lemma Matches_Class_eqb (k : N) (s : jsstring) :
  Matches (Class (N.eqb k)) s <-> s = [k].
Proof.
  split.
  - intros H. apply Matches_Class_inv in H as (x & -> & Hp).
    apply N.eqb_eq in Hp. congruence.
  - intros ->. constructor. apply N.eqb_refl.
Qed.

(** [isValidEmail] accepts exactly the addresses of the stated shape. *)
Lemma isValidEmail_shape (email : jsstring) :
  isValidEmail email = true <-> emailShape email.
Proof.
  unfold isValidEmail, emailShape, emailPart, emailRegex.
  rewrite regex_test_Matches. split.
  - intros H.
    apply Matches_Cat_inv in H as (l & s1 & -> & Hl & H).
    apply Matches_Cat_inv in H as (a & s2 & -> & Ha & H).
    apply Matches_Cat_inv in H as (d & s3 & -> & Hd & H).
    apply Matches_Cat_inv in H as (b & t & -> & Hb & Ht).
    apply Matches_Class_eqb in Ha, Hb. subst a b.
    apply Matches_Plus_Class in Hl, Hd, Ht.
    exists l, d, t. auto.
  - intros (l & d & t & -> & Hl & Hd & Ht).
    apply MCat; [apply Matches_Plus_Class; assumption|].
    apply MCat; [apply Matches_Class_eqb; reflexivity|].
    apply MCat; [apply Matches_Plus_Class; assumption|].
    apply MCat; [apply Matches_Class_eqb; reflexivity|].
    apply Matches_Plus_Class; assumption.
Qed.

Lemma isValidEmail_false (email : jsstring) :
  isValidEmail email = false <-> ~ emailShape email.
Proof.
  rewrite <- isValidEmail_shape.
  destruct (isValidEmail email); split; congruence.
Qed.

(* ------------------------------------------------------------------ *)
(** ** Validation in [createUser] *)

Lemma falsy_string_false (s : jsstring) : s <> [] -> falsy_string s = false.
Proof. destruct s; simpl; congruence. Qed.

Lemma length_nonzero (s : jsstring) :
  s <> [] -> (List.length s =? 0)%nat = false.
Proof. destruct s; simpl; congruence. Qed.


Lemma emailShape_nonempty (email : jsstring) : emailShape email -> email <> [].
Proof.
  intros (l & d & t & -> & _) E. apply app_eq_nil in E as [_ E]. discriminate.
Qed.

(** A request is valid exactly if its name is not blank and its address
    has the shape: the other two conditions follow. *)
Lemma validRequest_iff (request : CreateUserRequest) :
  validRequest request
  <-> trim (req_name request) <> [] /\ emailShape (req_email request).
Proof.
  unfold validRequest. split; [tauto|]. intros [Hn He].
  repeat split; auto using emailShape_nonempty.
  intros E. apply Hn. rewrite E. reflexivity.
Qed.

Lemma validRequest_checks (request : CreateUserRequest) :
  validRequest request ->
  falsy_string (req_name request) || falsy_string (req_email request) = false
  /\ (List.length (trim (req_name request)) =? 0)%nat = false
  /\ negb (isValidEmail (req_email request)) = false.
Proof.
  intros (Hn & He & Ht & Hs).
  rewrite !falsy_string_false, length_nonzero by assumption.
  apply isValidEmail_shape in Hs. rewrite Hs. auto.
Qed.

Lemma invalidRequest_cases (request : CreateUserRequest) :
  ~ validRequest request ->
  (req_name request = [] \/ req_email request = [])
  \/ (req_name request <> [] /\ req_email request <> []
      /\ trim (req_name request) = [])
  \/ (req_name request <> [] /\ req_email request <> []
      /\ trim (req_name request) <> [] /\ ~ emailShape (req_email request)).
Proof.
  intros H. unfold validRequest in H.
  destruct (req_name request) as [|a n] eqn:En; [auto|].
  destruct (req_email request) as [|b e] eqn:Ee; [auto|].
  right.
  destruct (trim (a :: n)) as [|c t] eqn:Et.
  - left. repeat split; congruence.
  - right. repeat split; try congruence.
    intros Hs. apply H. repeat split; congruence.
Qed.

Section Validation.

Variable toLowerCase : jsstring -> jsstring.

Lemma createUser_missing_field fault request p :
  req_name request = [] \/ req_email request = [] ->
  createUser toLowerCase fault request p
  = (Fail INVALID_ARGUMENT "All fields are required", p).
Proof.
  intros H. unfold createUser.
  replace (falsy_string (req_name request)
           || falsy_string (req_email request)) with true; [reflexivity|].
  symmetry. apply orb_true_iff.
  destruct H as [H|H]; [left | right]; apply falsy_string_iff; exact H.
Qed.

Lemma createUser_blank_name fault request p :
  req_name request <> [] -> req_email request <> [] ->
  trim (req_name request) = [] ->
  createUser toLowerCase fault request p
  = (Fail INVALID_ARGUMENT "Name cannot be empty", p).
Proof.
  intros Hn He Ht. unfold createUser.
  rewrite !falsy_string_false by assumption. simpl.
  rewrite Ht. reflexivity.
Qed.

Lemma createUser_bad_email fault request p :
  req_name request <> [] -> req_email request <> [] ->
  trim (req_name request) <> [] ->
  ~ emailShape (req_email request) ->
  createUser toLowerCase fault request p
  = (Fail INVALID_ARGUMENT "Invalid email format", p).
Proof.
  intros Hn He Ht Hs. unfold createUser.
  rewrite !falsy_string_false by assumption. simpl.
  rewrite length_nonzero by assumption.
  apply isValidEmail_false in Hs. rewrite Hs. reflexivity.
Qed.

(** Past the three checks, [createUser] is the insertion and the
    translation of its result. *)
Lemma createUser_valid fault request p :
  validRequest request ->
  createUser toLowerCase fault request p
  = (let (result, p') :=
       query fault
         (InsertUser (trim (req_name request))
                     (toLowerCase (req_email request)))
         (insertUser (trim (req_name request))
                     (toLowerCase (req_email request))) p in
     (try_catch
        (rows <- result ;;
         row <- first_row rows ;;
         ret (Reply (mkCreateUserResponse
                (mkUser (user_id row) (user_name row) (user_email row)))))
        (fun err =>
           if code_is err "23505" then
             Fail ALREADY_EXISTS "User with this email already exists"
           else Fail INTERNAL "Failed to create user"),
      p')).
Proof.
  intros H. apply validRequest_checks in H as (H1 & H2 & H3).
  unfold createUser. rewrite H1, H2, H3. reflexivity.
Qed.

Lemma createUser_valid_not_invalid fault request p message :
  validRequest request ->
  fst (createUser toLowerCase fault request p)
  <> Fail INVALID_ARGUMENT message.
Proof.
  intros H. rewrite createUser_valid by assumption.
  destruct (query _ _ _ _) as [[rows|e] p']; simpl.
  - destruct rows; simpl; [|discriminate].
    unfold TypeError, code_is; simpl. discriminate.
  - destruct (code_is e "23505"); discriminate.
Qed.

(** C1.  [createUser] checks its three conditions in order and answers
    with the error of the first one that fails: a missing name or address
    gives "All fields are required"; else a blank name gives "Name cannot
    be empty"; else an address that is not of the shape
    [local@domain.tld] gives "Invalid email format"; and a request that
    passes all three is never answered with [INVALID_ARGUMENT]. *)
Theorem createUser_first_failure_wins fault request p :
  (req_name request = [] \/ req_email request = [] ->
   createUser toLowerCase fault request p
   = (Fail INVALID_ARGUMENT "All fields are required", p))
  /\ (req_name request <> [] -> req_email request <> [] ->
      trim (req_name request) = [] ->
      createUser toLowerCase fault request p
      = (Fail INVALID_ARGUMENT "Name cannot be empty", p))
  /\ (req_name request <> [] -> req_email request <> [] ->
      trim (req_name request) <> [] ->
      ~ emailShape (req_email request) ->
      createUser toLowerCase fault request p
      = (Fail INVALID_ARGUMENT "Invalid email format", p))
  /\ (req_name request <> [] -> req_email request <> [] ->
      trim (req_name request) <> [] ->
      emailShape (req_email request) ->
      forall message,
        fst (createUser toLowerCase fault request p)
        <> Fail INVALID_ARGUMENT message).
Proof.
  repeat split.
  - apply createUser_missing_field.
  - apply createUser_blank_name.
  - apply createUser_bad_email.
  - intros Hn He Ht Hs message.
    apply createUser_valid_not_invalid. repeat split; assumption.
Qed.

(** A request that fails a check gets an error that depends on the
    request alone, and the pool stays as it was. *)
Lemma createUser_invalid request :
  ~ validRequest request ->
  exists message, forall fault p,
    createUser toLowerCase fault request p
    = (Fail INVALID_ARGUMENT message, p).
Proof.
  intros H.
  destruct (invalidRequest_cases H) as [H1|[(Hn & He & Ht)|(Hn & He & Ht & Hs)]].
  - exists "All fields are required"%string. intros fault p.
    apply createUser_missing_field. exact H1.
  - exists "Name cannot be empty"%string. intros fault p.
    apply createUser_blank_name; assumption.
  - exists "Invalid email format"%string. intros fault p.
    apply createUser_bad_email; assumption.
Qed.

(** C7.  A request that fails one of the three checks is answered with
    [INVALID_ARGUMENT] and leaves the pool as it was: the rows, the
    sequence and the list of statements sent, so no insertion was tried
    and the number of rows is the same; the same request gets the same
    answer again. *)
Theorem createUser_invalid_leaves_store fault fault' request p :
  req_name request = [] \/ req_email request = []
  \/ trim (req_name request) = [] \/ ~ emailShape (req_email request) ->
  exists message,
    createUser toLowerCase fault request p
    = (Fail INVALID_ARGUMENT message, p)
    /\ issued (snd (createUser toLowerCase fault request p)) = issued p
    /\ List.length (users (snd (createUser toLowerCase fault request p)))
       = List.length (users p)
    /\ createUser toLowerCase fault' request
         (snd (createUser toLowerCase fault request p))
       = (Fail INVALID_ARGUMENT message, p).
Proof.
  intros H0.
  assert (H : ~ validRequest request).
  { unfold validRequest. intros (Hn & He & Ht & Hs).
    destruct H0 as [H0|[H0|[H0|H0]]]; contradiction. }
  destruct (createUser_invalid H) as (message & E).
  exists message. rewrite !E. simpl. auto.
Qed.

End Validation.

Lemma not_an_email_no_shape : ~ emailShape (req_email not_an_email).
Proof. apply isValidEmail_false. vm_compute. reflexivity. Qed.

Lemma createUser_first_failure_wins_witness :
  createUser toLowerCaseLatin None no_name emptyPool
  = (Fail INVALID_ARGUMENT "All fields are required", emptyPool)
  /\ createUser toLowerCaseLatin None blank_name emptyPool
     = (Fail INVALID_ARGUMENT "Name cannot be empty", emptyPool)
  /\ createUser toLowerCaseLatin None not_an_email emptyPool
     = (Fail INVALID_ARGUMENT "Invalid email format", emptyPool)
  /\ fst (createUser toLowerCaseLatin None marko emptyPool)
     <> Fail INVALID_ARGUMENT "Invalid email format".
Proof.
  split; [|split; [|split]].
  - apply (proj1 (createUser_first_failure_wins toLowerCaseLatin None
                    no_name emptyPool)).
    left. reflexivity.
  - apply (proj1 (proj2 (createUser_first_failure_wins toLowerCaseLatin None
                           blank_name emptyPool))).
    + discriminate.
    + discriminate.
    + reflexivity.
  - apply (proj1 (proj2 (proj2 (createUser_first_failure_wins
                                  toLowerCaseLatin None not_an_email
                                  emptyPool)))).
    + discriminate.
    + discriminate.
    + vm_compute. discriminate.
    + exact not_an_email_no_shape.
  - apply (proj2 (proj2 (proj2 (createUser_first_failure_wins
                                  toLowerCaseLatin None marko emptyPool)))).
    + discriminate.
    + discriminate.
    + vm_compute. discriminate.
    + apply isValidEmail_shape. vm_compute. reflexivity.
Defined.

Lemma createUser_invalid_leaves_store_witness :
  exists message,
    createUser toLowerCaseLatin None not_an_email emptyPool
    = (Fail INVALID_ARGUMENT message, emptyPool)
    /\ issued (snd (createUser toLowerCaseLatin None not_an_email emptyPool))
       = issued emptyPool
    /\ List.length
         (users (snd (createUser toLowerCaseLatin None not_an_email
                        emptyPool)))
       = List.length (users emptyPool)
    /\ createUser toLowerCaseLatin None not_an_email
         (snd (createUser toLowerCaseLatin None not_an_email emptyPool))
       = (Fail INVALID_ARGUMENT message, emptyPool).
Proof.
  apply (@createUser_invalid_leaves_store toLowerCaseLatin None None
           not_an_email emptyPool).
  right. right. right. exact not_an_email_no_shape.
Defined.

(* ------------------------------------------------------------------ *)
(** ** The record store *)

Lemma has_id_false (id : Z) (rows : list User) :
  has_id id rows = false <-> ~ In id (map user_id rows).
Proof.
  unfold has_id. induction rows as [|r rows IH]; simpl; [tauto|].
  rewrite orb_false_iff, IH, Z.eqb_neq. tauto.
Qed.


Lemma has_email_false (email : jsstring) (rows : list User) :
  has_email email rows = false <-> ~ In email (map user_email rows).
Proof.
  unfold has_email. induction rows as [|r rows IH]; simpl; [tauto|].
  rewrite orb_false_iff, IH.
  destruct (jsstring_eqb (user_email r) email) eqn:E.
  - apply jsstring_eqb_eq in E. split; [intros [? _]; discriminate | tauto].
  - assert (user_email r <> email).
    { intros Q. apply jsstring_eqb_eq in Q. congruence. }
    tauto.
Qed.

Lemma has_email_true (email : jsstring) (rows : list User) :
  has_email email rows = true <-> In email (map user_email rows).
Proof.
  destruct (has_email email rows) eqn:E.
  - split; [|reflexivity]. intros _.
    destruct (in_dec (list_eq_dec N.eq_dec) email (map user_email rows))
      as [H|H]; [exact H|].
    apply has_email_false in H. congruence.
  - apply has_email_false in E. split; [discriminate | contradiction].
Qed.

Lemma NoDup_snoc {A : Type} (l : list A) (x : A) :
  NoDup l -> ~ In x l -> NoDup (l ++ [x]).
Proof.
  induction 1 as [|y l Hy Hl IH]; simpl; intros Hx.
  - constructor; [tauto | constructor].
  - constructor.
    + rewrite in_app_iff. simpl. intros [H|[H|[]]]; [tauto|].
      apply Hx. auto.
    + apply IH. tauto.
Qed.

Lemma NoDup_map_filter {A B : Type} (f : A -> B) (g : A -> bool)
    (l : list A) :
  NoDup (map f l) -> NoDup (map f (filter g l)).
Proof.
  induction l as [|a l IH]; simpl; intros H; [constructor|].
  inversion H as [|? ? Ha Hl]; subst.
  destruct (g a); simpl; [|auto].
  constructor; [|auto].
  intros Q. apply Ha. apply in_map_iff in Q as (b & E & Hb).
  apply filter_In in Hb as [Hb _]. apply in_map_iff. eauto.
Qed.

Lemma Forall_filter_keep {A : Type} (P : A -> Prop) (g : A -> bool)
    (l : list A) :
  Forall P l -> Forall P (filter g l).
Proof.
  rewrite !Forall_forall. intros H a Ha.
  apply filter_In in Ha as [Ha _]. auto.
Qed.

Lemma NoDup_map_injective {A B : Type} (f : A -> B) (l : list A) (a b : A) :
  NoDup (map f l) -> In a l -> In b l -> f a = f b -> a = b.
Proof.
  induction l as [|x l IH]; simpl; intros H Ha Hb E; [contradiction|].
  inversion H as [|? ? Hx Hl]; subst.
  destruct Ha as [->|Ha], Hb as [->|Hb]; auto.
  - exfalso. apply Hx. rewrite E. apply in_map. exact Hb.
  - exfalso. apply Hx. rewrite <- E. apply in_map. exact Ha.
Qed.

Lemma characters_pair (c d : N) (t : jsstring) :
  characters (c :: d :: t)
  = if isHighSurrogate c && isLowSurrogate d then S (characters t)
    else S (characters (d :: t)).
Proof. reflexivity. Qed.

Lemma take_characters_pair (n : nat) (c d : N) (t : jsstring) :
  take_characters (S n) (c :: d :: t)
  = if isHighSurrogate c && isLowSurrogate d
    then c :: d :: take_characters n t
    else c :: take_characters n (d :: t).
Proof. reflexivity. Qed.

Lemma drop_characters_pair (n : nat) (c d : N) (t : jsstring) :
  drop_characters (S n) (c :: d :: t)
  = if isHighSurrogate c && isLowSurrogate d
    then drop_characters n t
    else drop_characters n (d :: t).
Proof. reflexivity. Qed.

(** A character is one code unit or two. *)
Lemma characters_cons (s : jsstring) :
  forall c,
    (characters (c :: s) <= S (characters s))%nat
    /\ (characters s <= characters (c :: s))%nat.
Proof.
  induction s as [|x s IH]; intros c.
  - simpl. lia.
  - rewrite characters_pair.
    destruct (IH x) as [I1 I2].
    destruct (isHighSurrogate c && isLowSurrogate x); lia.
Qed.

Lemma characters_length (s : jsstring) :
  (characters s <= List.length s)%nat.
Proof.
  induction s as [|c s IH]; [simpl; lia|].
  destruct (characters_cons s c) as [H _]. simpl List.length. lia.
Qed.

(** Text without surrogates has one character for each code unit. *)
Lemma characters_plain (s : jsstring) :
  Forall (fun c => isHighSurrogate c = false) s ->
  characters s = List.length s.
Proof.
  induction 1 as [|c s Hc Hs IH]; [reflexivity|].
  destruct s as [|d t]; [reflexivity|].
  rewrite characters_pair, Hc. simpl andb. rewrite IH. reflexivity.
Qed.

Lemma take_drop_characters (n : nat) :
  forall s, take_characters n s ++ drop_characters n s = s.
Proof.
  induction n as [|n IH]; intros s; [reflexivity|].
  destruct s as [|c [|d t]]; [reflexivity | reflexivity|].
  rewrite take_characters_pair, drop_characters_pair.
  destruct (isHighSurrogate c && isLowSurrogate d); simpl; rewrite IH;
    reflexivity.
Qed.

Lemma characters_take (n : nat) :
  forall s, (characters (take_characters n s) <= n)%nat.
Proof.
  induction n as [|n IH]; intros s; [simpl; lia|].
  destruct s as [|c [|d t]]; [simpl; lia | simpl; lia|].
  rewrite take_characters_pair.
  destruct (isHighSurrogate c && isLowSurrogate d) eqn:E.
  - rewrite characters_pair, E. specialize (IH t). lia.
  - destruct (characters_cons (take_characters n (d :: t)) c) as [H _].
    specialize (IH (d :: t)). lia.
Qed.

Lemma drop_characters_nil (n : nat) :
  forall s, drop_characters n s = [] -> (characters s <= n)%nat.
Proof.
  induction n as [|n IH]; intros s.
  - simpl. intros ->. simpl. lia.
  - destruct s as [|c [|d t]]; [simpl; lia | simpl; lia|].
    rewrite drop_characters_pair, characters_pair.
    destruct (isHighSurrogate c && isLowSurrogate d); intros H;
      apply IH in H; lia.
Qed.

Lemma textual_existsb (s : jsstring) :
  existsb (N.eqb 0) s = false <-> textual s.
Proof.
  unfold textual. induction s as [|c s IH]; cbn [existsb In]; [tauto|].
  rewrite orb_false_iff, IH, N.eqb_neq.
  split; [intros [A B] [C|C]; auto | intros H; split; auto].
Qed.

Lemma text_parameter_textual (s : jsstring) :
  textual s -> text_parameter s = ret s.
Proof.
  intros H. unfold text_parameter.
  apply textual_existsb in H. rewrite H. reflexivity.
Qed.

Lemma text_parameter_ret (s s' : jsstring) :
  text_parameter s = ret s' -> s' = s /\ textual s.
Proof.
  unfold text_parameter, ret, throw.
  destruct (existsb (N.eqb 0) s) eqn:E; [discriminate|].
  intros Q; inversion Q; subst. split; [reflexivity|].
  apply textual_existsb. exact E.
Qed.

(** Text with the character U+0000 is refused. *)
Lemma text_parameter_refused (s : jsstring) :
  In 0%N s ->
  text_parameter s
  = throw (pgError "22021" "invalid byte sequence for encoding UTF8: 0x00").
Proof.
  intros H. unfold text_parameter.
  destruct (existsb (N.eqb 0) s) eqn:E; [reflexivity|].
  apply textual_existsb in E. contradiction.
Qed.

Lemma varchar_fits (n : nat) (s : jsstring) :
  (characters s <= n)%nat -> varchar n s = ret s.
Proof.
  intros H. unfold varchar.
  apply Nat.leb_le in H. rewrite H. reflexivity.
Qed.

Lemma varchar_ret_length (n : nat) (s s' : jsstring) :
  varchar n s = ret s' -> (characters s' <= n)%nat.
Proof.
  unfold varchar, ret, throw.
  destruct (characters s <=? n)%nat eqn:E.
  - intros Q; inversion Q; subst. apply Nat.leb_le. exact E.
  - destruct (forallb _ _); intros Q; inversion Q; subst.
    apply characters_take.
Qed.

(** What a column holds is the value or a part of it. *)
Lemma varchar_ret_textual (n : nat) (s s' : jsstring) :
  textual s -> varchar n s = ret s' -> textual s'.
Proof.
  unfold varchar, ret, throw, textual. intros Hs.
  destruct (characters s <=? n)%nat.
  - intros Q; inversion Q; subst. exact Hs.
  - destruct (forallb _ _); intros Q; inversion Q; subst.
    intros H. apply Hs. rewrite <- (take_drop_characters n s).
    apply in_or_app. left. exact H.
Qed.

(** A value without white space is stored whole or not at all. *)
Lemma varchar_noWhiteSpace (n : nat) (s s' : jsstring) :
  noWhiteSpace s -> varchar n s = ret s' -> s' = s.
Proof.
  unfold varchar, ret, throw. intros Hs.
  destruct (characters s <=? n)%nat eqn:E.
  - intros Q; inversion Q; reflexivity.
  - destruct (forallb (N.eqb 32) (drop_characters n s)) eqn:F; [|discriminate].
    exfalso. apply Nat.leb_gt in E.
    destruct (drop_characters n s) as [|c t] eqn:K.
    { apply drop_characters_nil in K. lia. }
    cbn [forallb] in F. apply andb_true_iff in F as [F _].
    apply N.eqb_eq in F. subst c.
    unfold noWhiteSpace in Hs. rewrite <- (take_drop_characters n s), K in Hs.
    apply Forall_app in Hs as [_ Hs]. inversion Hs as [|? ? W _]; subst.
    discriminate W.
Qed.

(** The values of an insert are accepted when both are text and both fit
    their columns, spaces in excess apart. *)
Lemma insert_values_ret (name email n e : jsstring) :
  insert_values name email = ret (n, e)
  <-> textual name /\ textual email
      /\ varchar 255 name = ret n /\ varchar 255 email = ret e.
Proof.
  unfold insert_values. split.
  - destruct (text_parameter name) as [n0|x] eqn:Tn; [|discriminate].
    destruct (text_parameter email) as [e0|x] eqn:Te; [|discriminate].
    apply text_parameter_ret in Tn as [-> Tn], Te as [-> Te]. simpl.
    destruct (varchar 255 name) as [n1|x]; [|discriminate].
    destruct (varchar 255 email) as [e1|x]; [|discriminate].
    simpl. unfold ret. intros Q; inversion Q; subst. auto.
  - intros (Tn & Te & Vn & Ve).
    rewrite (text_parameter_textual Tn), (text_parameter_textual Te).
    simpl. rewrite Vn, Ve. reflexivity.
Qed.

(** Refused values leave the store as it is, its sequence included. *)
Lemma insertUser_refused (name email : jsstring) (p : Pool) (e : exn) :
  insert_values name email = throw e ->
  insertUser name email p = (throw e, p).
Proof. unfold insertUser, throw. intros ->. reflexivity. Qed.

(** What an insertion does, by its result. *)
Lemma insertUser_spec (name email : jsstring) (p : Pool) :
  issued (snd (insertUser name email p)) = issued p
  /\ match fst (insertUser name email p) with
     | inr _ =>
         users (snd (insertUser name email p)) = users p
         /\ (users_id_seq (snd (insertUser name email p)) = users_id_seq p
             \/ (users_id_seq p < serial_max
                 /\ users_id_seq (snd (insertUser name email p))
                    = users_id_seq p + 1))%Z
     | inl rows =>
         exists n e,
           varchar 255 name = ret n /\ varchar 255 email = ret e
           /\ (users_id_seq p < serial_max)%Z
           /\ has_id (users_id_seq p + 1) (users p) = false
           /\ has_email e (users p) = false
           /\ rows = [mkUser (users_id_seq p + 1) n e]
           /\ users (snd (insertUser name email p))
              = users p ++ [mkUser (users_id_seq p + 1) n e]
           /\ users_id_seq (snd (insertUser name email p))
              = (users_id_seq p + 1)%Z
     end.
Proof.
  unfold insertUser.
  destruct (insert_values name email) as [[n e]|x] eqn:V; simpl.
  2:{ split; [reflexivity|]. split; [reflexivity|]. left; reflexivity. }
  apply insert_values_ret in V as (_ & _ & Vn & Ve).
  unfold nextval.
  destruct (users_id_seq p <? serial_max)%Z eqn:S; simpl.
  2:{ split; [reflexivity|]. split; [reflexivity|]. left; reflexivity. }
  apply Z.ltb_lt in S.
  unfold check_unique; simpl.
  destruct (has_id (users_id_seq p + 1) (users p)) eqn:Hi; simpl.
  { split; [reflexivity|]. split; [reflexivity|]. right; auto. }
  destruct (has_email e (users p)) eqn:He; simpl.
  { split; [reflexivity|]. split; [reflexivity|]. right; auto. }
  split; [reflexivity|].
  exists n, e. repeat split; auto.
Qed.

(** Only text is inserted. *)
Lemma insertUser_textual (name email : jsstring) (p : Pool) rows :
  fst (insertUser name email p) = inl rows ->
  textual name /\ textual email.
Proof.
  unfold insertUser.
  destruct (insert_values name email) as [[n e]|x] eqn:V;
    [|discriminate].
  apply insert_values_ret in V as (Tn & Te & _). auto.
Qed.

(** The insertion of text that fits, with a new [id] and a new address. *)
Lemma insertUser_fresh (name email : jsstring) (p : Pool) :
  textual name -> textual email -> fits name -> fits email ->
  (users_id_seq p < serial_max)%Z ->
  has_id (users_id_seq p + 1) (users p) = false ->
  has_email email (users p) = false ->
  insertUser name email p
  = (ret [mkUser (users_id_seq p + 1) name email],
     mkPool (users p ++ [mkUser (users_id_seq p + 1) name email])
            (users_id_seq p + 1) (issued p)).
Proof.
  intros Tn Te Fn Fe Hs Hi He. unfold insertUser.
  assert (V : insert_values name email = ret (name, email)).
  { apply insert_values_ret. auto using varchar_fits. }
  rewrite V. unfold ret at 1. unfold nextval.
  apply Z.ltb_lt in Hs. rewrite Hs. unfold ret at 1.
  unfold check_unique. simpl. rewrite Hi, He. reflexivity.
Qed.

(** An address that the table has is never inserted again, whatever the
    name. *)
Lemma insertUser_taken (name email : jsstring) (p : Pool) :
  fits email -> has_email email (users p) = true ->
  exists e,
    fst (insertUser name email p) = inr e
    /\ users (snd (insertUser name email p)) = users p.
Proof.
  intros Fe Hd.
  destruct (insertUser_spec name email p) as [_ H].
  destruct (fst (insertUser name email p)) as [rows|x].
  - destruct H as (n & e & _ & Ve & _ & _ & He & _).
    rewrite (varchar_fits _ Fe) in Ve. inversion Ve; subst.
    congruence.
  - exists x. split; [reflexivity | apply H].
Qed.

Lemma consistent_ext (p q : Pool) :
  users q = users p -> users_id_seq q = users_id_seq p ->
  consistent p -> consistent q.
Proof.
  intros Eu Es [H1 H2 H3 H4 HT H5].
  constructor; rewrite ?Eu, ?Es; assumption.
Qed.

Lemma consistent_emptyPool : consistent emptyPool.
Proof.
  constructor; simpl; try constructor; unfold serial_max; lia.
Qed.

Lemma consistent_record (st : Statement) (p : Pool) :
  consistent p -> consistent (record st p).
Proof. apply consistent_ext; reflexivity. Qed.

Lemma consistent_initializeDatabase (existing : option Pool) :
  (forall p, existing = Some p -> consistent p) ->
  consistent (initializeDatabase existing).
Proof.
  destruct existing as [p|]; simpl; intros H.
  - apply consistent_record. auto.
  - apply consistent_record, consistent_emptyPool.
Qed.

Lemma consistent_insertUser (name email : jsstring) (p : Pool) :
  consistent p -> consistent (snd (insertUser name email p)).
Proof.
  intros [H1 H2 H3 H4 HT H5].
  destruct (insertUser_spec name email p) as [_ H].
  destruct (fst (insertUser name email p)) as [rows|e] eqn:R.
  - destruct H as (n & e & Vn & Ve & S & Hi & He & _ & Eu & Es).
    apply insertUser_textual in R as [Tn Te].
    apply has_id_false in Hi. apply has_email_false in He.
    constructor; rewrite ?Eu, ?Es.
    + rewrite map_app. apply NoDup_snoc; assumption.
    + rewrite map_app. apply NoDup_snoc; assumption.
    + apply Forall_app; split.
      * eapply Forall_impl; [|exact H3]. simpl; intros; lia.
      * constructor; [simpl; lia | constructor].
    + apply Forall_app; split; [assumption|].
      constructor; [|constructor]. simpl.
      split; [exact (varchar_ret_length _ _ Vn)
             | exact (varchar_ret_length _ _ Ve)].
    + apply Forall_app; split; [assumption|].
      constructor; [|constructor]. simpl.
      split; [exact (@varchar_ret_textual _ _ _ Tn Vn)
             | exact (@varchar_ret_textual _ _ _ Te Ve)].
    + lia.
  - destruct H as [Eu [Es|[S Es]]]; constructor; rewrite ?Eu, ?Es;
      try assumption; try lia.
    eapply Forall_impl; [|exact H3]. simpl; intros; lia.
Qed.

Lemma consistent_deleteUserById (id : Z) (p : Pool) :
  consistent p -> consistent (snd (deleteUserById id p)).
Proof.
  intros [H1 H2 H3 H4 HT H5]. constructor; simpl;
    auto using NoDup_map_filter, Forall_filter_keep.
Qed.

Lemma consistent_query {A : Type} fault st (run : Pool -> fallible A * Pool) p :
  (forall q, consistent q -> consistent (snd (run q))) ->
  consistent p -> consistent (snd (query fault st run p)).
Proof.
  intros Hrun Hp. unfold query. destruct fault as [[e|e]|]; simpl.
  - apply consistent_record; assumption.
  - apply Hrun, consistent_record; assumption.
  - apply Hrun, consistent_record; assumption.
Qed.

(* ------------------------------------------------------------------ *)
(** ** The pools that the service reaches *)

Lemma notSpaceNorAt_noWhiteSpace (c : N) :
  notSpaceNorAt c = true -> isWhiteSpace c = false.
Proof.
  unfold notSpaceNorAt. rewrite negb_true_iff, orb_false_iff. tauto.
Qed.

Lemma emailPart_noWhiteSpace (s : jsstring) :
  emailPart s -> noWhiteSpace s.
Proof.
  intros [_ H]. eapply Forall_impl; [|exact H].
  apply notSpaceNorAt_noWhiteSpace.
Qed.

(** An address of the shape has no white space. *)
Lemma emailShape_noWhiteSpace (email : jsstring) :
  emailShape email -> noWhiteSpace email.
Proof.
  intros (l & d & t & -> & Hl & Hd & Ht).
  apply emailPart_noWhiteSpace in Hl, Hd, Ht.
  unfold noWhiteSpace in *.
  apply Forall_app; split; [exact Hl|].
  apply Forall_app; split; [repeat constructor|].
  apply Forall_app; split; [exact Hd|].
  apply Forall_app; split; [repeat constructor | exact Ht].
Qed.


Lemma toLowerCaseLatinUnit_idem (c : N) :
  toLowerCaseLatinUnit (toLowerCaseLatinUnit c) = toLowerCaseLatinUnit c.
Proof.
  unfold toLowerCaseLatinUnit.
  destruct ((65 <=? c) && (c <=? 90))%N eqn:E.
  - apply andb_true_iff in E as [E1 E2].
    apply N.leb_le in E1, E2.
    replace ((65 <=? c + 32) && (c + 32 <=? 90))%N with false; [reflexivity|].
    symmetry. apply andb_false_iff. right. apply N.leb_gt. lia.
  - rewrite E. reflexivity.
Qed.

Lemma toLowerCaseLatin_idem (s : jsstring) :
  toLowerCaseLatin (toLowerCaseLatin s) = toLowerCaseLatin s.
Proof.
  unfold toLowerCaseLatin. rewrite map_map.
  apply map_ext. apply toLowerCaseLatinUnit_idem.
Qed.

Lemma toLowerCaseLatinUnit_noWhiteSpace (c : N) :
  isWhiteSpace c = false -> isWhiteSpace (toLowerCaseLatinUnit c) = false.
Proof.
  unfold toLowerCaseLatinUnit.
  destruct ((65 <=? c) && (c <=? 90))%N eqn:E; [|auto].
  intros _. apply andb_true_iff in E as [E1 E2].
  apply N.leb_le in E1, E2. unfold isWhiteSpace.
  repeat match goal with
         | |- (_ || _)%bool = false => apply orb_false_iff; split
         | |- (_ && _)%bool = false => apply andb_false_iff
         end;
    try (apply N.eqb_neq; lia).
  - right. apply N.leb_gt. lia.
  - left. apply N.leb_gt. lia.
Qed.

Lemma toLowerCaseLatin_noWhiteSpace (s : jsstring) :
  noWhiteSpace s -> noWhiteSpace (toLowerCaseLatin s).
Proof.
  unfold noWhiteSpace, toLowerCaseLatin. intros H.
  apply Forall_map. eapply Forall_impl; [|exact H].
  apply toLowerCaseLatinUnit_noWhiteSpace.
Qed.

Section Service.

Variable toLowerCase : jsstring -> jsstring.
Variable pgLower : N -> N.

(** [toLowerCase] leaves its own results as they are, and it makes no
    white space. *)
Hypothesis toLowerCase_idem :
  forall s, toLowerCase (toLowerCase s) = toLowerCase s.
Hypothesis toLowerCase_noWhiteSpace :
  forall s, noWhiteSpace s -> noWhiteSpace (toLowerCase s).

Lemma createUser_pool fault request p :
  snd (createUser toLowerCase fault request p) = p
  \/ (validRequest request
      /\ snd (createUser toLowerCase fault request p)
         = snd (query fault
                  (InsertUser (trim (req_name request))
                              (toLowerCase (req_email request)))
                  (insertUser (trim (req_name request))
                              (toLowerCase (req_email request))) p)).
Proof.
  unfold createUser.
  destruct (falsy_string (req_name request)
            || falsy_string (req_email request)) eqn:E1; [left; reflexivity|].
  destruct (List.length (trim (req_name request)) =? 0)%nat eqn:E2;
    [left; reflexivity|].
  destruct (isValidEmail (req_email request)) eqn:E3; [|left; reflexivity].
  right. simpl. split.
  - apply validRequest_iff. split.
    + intros Q. rewrite Q in E2. discriminate.
    + apply isValidEmail_shape. exact E3.
  - destruct (query _ _ _ _); reflexivity.
Qed.

Lemma getUsers_pool fault request p :
  users (snd (getUsers pgLower fault request p)) = users p
  /\ users_id_seq (snd (getUsers pgLower fault request p)) = users_id_seq p.
Proof.
  unfold getUsers, query, selectUsersLike, selectUsers.
  destruct (negb (falsy_string (req_name_filter request))
            && (0 <? List.length (trim (req_name_filter request)))%nat);
    destruct fault as [[e|e]|]; simpl; auto.
Qed.

Lemma deleteUser_pool fault request p :
  snd (deleteUser fault request p) = p
  \/ snd (deleteUser fault request p)
     = snd (query fault (DeleteUserById (req_id request))
              (deleteUserById (req_id request)) p).
Proof.
  unfold deleteUser.
  destruct (falsy_number (req_id request)); [left; reflexivity|].
  right. destruct (query _ _ _ _); reflexivity.
Qed.

Lemma consistent_serve (c : Call) (p : Pool) :
  consistent p -> consistent (serve toLowerCase pgLower c p).
Proof.
  intros H. destruct c as [fault request|fault request|fault request]; simpl.
  - destruct (createUser_pool fault request p) as [->|[_ ->]]; [exact H|].
    apply consistent_query; auto using consistent_insertUser.
  - destruct (getUsers_pool fault request p) as [Eu Es].
    exact (consistent_ext _ Eu Es H).
  - destruct (deleteUser_pool fault request p) as [->| ->]; [exact H|].
    apply consistent_query; auto using consistent_deleteUserById.
Qed.

(** Every pool of the service satisfies the constraints of the table. *)
Lemma reachable_consistent (p : Pool) :
  reachable toLowerCase pgLower p -> consistent p.
Proof.
  induction 1 as [|p _ IH|p c _ IH].
  - apply consistent_initializeDatabase. discriminate.
  - apply consistent_initializeDatabase. congruence.
  - apply consistent_serve. exact IH.
Qed.

Lemma normalized_ext (p q : Pool) :
  users q = users p ->
  normalized toLowerCase p -> normalized toLowerCase q.
Proof. unfold normalized. intros ->. auto. Qed.

Lemma normalized_query {A : Type} fault st (run : Pool -> fallible A * Pool) p :
  (forall q, normalized toLowerCase q ->
             normalized toLowerCase (snd (run q))) ->
  normalized toLowerCase p ->
  normalized toLowerCase (snd (query fault st run p)).
Proof.
  intros Hrun Hp. unfold query. destruct fault as [[e|e]|]; simpl.
  - exact Hp.
  - apply Hrun. exact Hp.
  - apply Hrun. exact Hp.
Qed.

(** What [createUser] hands to the store is stored as it is. *)
Lemma normalized_insertUser (name email : jsstring) (p : Pool) :
  emailShape email ->
  normalized toLowerCase p ->
  normalized toLowerCase (snd (insertUser name (toLowerCase email) p)).
Proof.
  intros Hs Hp.
  destruct (insertUser_spec name (toLowerCase email) p) as [_ H].
  destruct (fst (insertUser name (toLowerCase email) p)) as [rows|e].
  - destruct H as (n & e & _ & Ve & _ & _ & _ & _ & Eu & _).
    unfold normalized. rewrite Eu.
    apply Forall_app; split; [exact Hp|].
    constructor; [|constructor]. simpl.
    assert (W : noWhiteSpace (toLowerCase email))
      by auto using emailShape_noWhiteSpace.
    rewrite (varchar_noWhiteSpace _ W Ve). auto.
  - destruct H as [Eu _]. unfold normalized. rewrite Eu. exact Hp.
Qed.

Lemma normalized_deleteUserById (id : Z) (p : Pool) :
  normalized toLowerCase p ->
  normalized toLowerCase (snd (deleteUserById id p)).
Proof. unfold normalized; simpl. apply Forall_filter_keep. Qed.

Lemma normalized_serve (c : Call) (p : Pool) :
  normalized toLowerCase p ->
  normalized toLowerCase (serve toLowerCase pgLower c p).
Proof.
  intros H. destruct c as [fault request|fault request|fault request]; simpl.
  - destruct (createUser_pool fault request p) as [->|[V ->]]; [exact H|].
    apply normalized_query; [|exact H].
    intros q. apply normalized_insertUser. apply V.
  - destruct (getUsers_pool fault request p) as [Eu _].
    exact (normalized_ext _ Eu H).
  - destruct (deleteUser_pool fault request p) as [->| ->]; [exact H|].
    apply normalized_query; auto using normalized_deleteUserById.
Qed.

Lemma reachable_normalized (p : Pool) :
  reachable toLowerCase pgLower p -> normalized toLowerCase p.
Proof.
  induction 1 as [|p _ IH|p c _ IH].
  - constructor.
  - exact IH.
  - apply normalized_serve. exact IH.
Qed.

End Service.

(* ------------------------------------------------------------------ *)
(** ** Creation *)

Lemma marko_valid : validRequest marko.
Proof.
  apply validRequest_iff. split; [vm_compute; discriminate|].
  apply isValidEmail_shape. vm_compute. reflexivity.
Qed.

Lemma marko_again_valid : validRequest marko_again.
Proof.
  apply validRequest_iff. split; [vm_compute; discriminate|].
  apply isValidEmail_shape. vm_compute. reflexivity.
Qed.

Lemma marko_long_valid : validRequest marko_long.
Proof.
  apply validRequest_iff. split; [vm_compute; discriminate|].
  apply isValidEmail_shape. vm_compute. reflexivity.
Qed.

Lemma ana_long_valid : validRequest ana_long.
Proof.
  apply validRequest_iff. split; [vm_compute; discriminate|].
  apply isValidEmail_shape. vm_compute. reflexivity.
Qed.

Lemma pool_marko_reachable :
  reachable toLowerCaseLatin toLowerCaseLatinUnit pool_marko.
Proof. apply reach_served, reach_created. Qed.

Lemma pool_marko_users : users pool_marko = [marko_row].
Proof. vm_compute. reflexivity. Qed.

Section Creation.

Variable toLowerCase : jsstring -> jsstring.

(** C2, as amended.  Take a table that satisfies its constraints and a
    valid request whose trimmed name and whose address in lower case are
    text without the character U+0000 of at most 255 characters each, and
    whose address in lower case is not yet in the table.  When the
    connection does not fail and the sequence of ids is not used up,
    [createUser] replies with a record of the trimmed name, the address in
    lower case and the next value of the sequence, which no other row
    has, and that record is appended to the table. *)
Theorem createUser_succeeds request p :
  consistent p ->
  validRequest request ->
  textual (trim (req_name request)) ->
  textual (toLowerCase (req_email request)) ->
  fits (trim (req_name request)) ->
  fits (toLowerCase (req_email request)) ->
  ~ In (toLowerCase (req_email request)) (map user_email (users p)) ->
  (users_id_seq p < serial_max)%Z ->
  let row := mkUser (users_id_seq p + 1) (trim (req_name request))
                    (toLowerCase (req_email request)) in
  createUser toLowerCase None request p
  = (Reply (mkCreateUserResponse row),
     mkPool (users p ++ [row]) (users_id_seq p + 1)
            (issued p
             ++ [InsertUser (trim (req_name request))
                            (toLowerCase (req_email request))]))
  /\ ~ In (user_id row) (map user_id (users p)).
Proof.
  intros Hc Hv Tn Te Hn He Hu Hs row.
  assert (Hi : ~ In (users_id_seq p + 1)%Z (map user_id (users p))).
  { intros Q. apply in_map_iff in Q as (r & E & Hr).
    pose proof (ids_issued Hc) as F. rewrite Forall_forall in F.
    specialize (F r Hr). lia. }
  split; [|exact Hi].
  rewrite createUser_valid by assumption.
  unfold query.
  apply has_id_false in Hi. apply has_email_false in Hu.
  rewrite insertUser_fresh by assumption. reflexivity.
Qed.

End Creation.

(** C2, as it is stated, fails: a valid request with a new address and a
    name of 256 letters is answered with [INTERNAL], because the name does
    not fit its column.  The store refuses the name before it takes a
    value from the sequence. *)
Lemma createUser_long_name_fails :
  validRequest ana_long
  /\ ~ In (toLowerCaseLatin (req_email ana_long))
          (map user_email (users (initializeDatabase None)))
  /\ createUser toLowerCaseLatin None ana_long (initializeDatabase None)
     = (Fail INTERNAL "Failed to create user",
        mkPool [] 0
          [CreateTableUsers;
           InsertUser (repeat 97%N 256) (js "ana.jovanovic@example.com")]).
Proof.
  split; [exact ana_long_valid|]. split; [simpl; tauto|].
  vm_compute. reflexivity.
Qed.

Lemma createUser_succeeds_witness :
  createUser toLowerCaseLatin None marko (initializeDatabase None)
  = (Reply (mkCreateUserResponse marko_row),
     mkPool [marko_row] 1
       [CreateTableUsers;
        InsertUser (js "Marko Petrovic") (js "marko.petrovic@example.com")])
  /\ ~ In 1%Z (map user_id (users (initializeDatabase None))).
Proof.
  apply (@createUser_succeeds toLowerCaseLatin marko (initializeDatabase None)).
  - apply consistent_initializeDatabase. discriminate.
  - exact marko_valid.
  - apply textual_existsb. vm_compute. reflexivity.
  - apply textual_existsb. vm_compute. reflexivity.
  - unfold fits. vm_compute. lia.
  - unfold fits. vm_compute. lia.
  - simpl. tauto.
  - reflexivity.
Defined.

(** A name of 128 characters outside the Basic Multilingual Plane has
    256 code units and fits its column. *)
Example astral_name_is_stored :
  let name := flat_map (fun _ => [55357%N; 56832%N]) (seq 0 128) in
  List.length name = 256%nat
  /\ characters name = 128%nat
  /\ fst (createUser toLowerCaseLatin None
            (mkCreateUserRequest name (js "ana.jovanovic@example.com"))
            (initializeDatabase None))
     = Reply (mkCreateUserResponse
                (mkUser 1 name (js "ana.jovanovic@example.com"))).
Proof. vm_compute. auto. Qed.

(* ------------------------------------------------------------------ *)
(** ** Addresses in the table *)

Section Addresses.

Variable toLowerCase : jsstring -> jsstring.
Variable pgLower : N -> N.

Hypothesis toLowerCase_idem :
  forall s, toLowerCase (toLowerCase s) = toLowerCase s.
Hypothesis toLowerCase_noWhiteSpace :
  forall s, noWhiteSpace s -> noWhiteSpace (toLowerCase s).

(** In a table whose rows are distinct by address and hold addresses in
    lower case, rows are distinct by address whatever the case. *)
Lemma unique_ignoring_case (p : Pool) :
  consistent p -> normalized toLowerCase p ->
  forall r1 r2,
    In r1 (users p) -> In r2 (users p) ->
    sameEmail toLowerCase (user_email r1) (user_email r2) -> r1 = r2.
Proof.
  intros Hc Hn r1 r2 H1 H2 E.
  unfold normalized in Hn. rewrite Forall_forall in Hn.
  destruct (Hn r1 H1) as [_ L1], (Hn r2 H2) as [_ L2].
  unfold sameEmail in E. rewrite L1, L2 in E.
  exact (NoDup_map_injective user_email (users p) r1 r2
           (emails_unique Hc) H1 H2 E).
Qed.

(** The address of a request that a row has up to case is, in lower
    case, the address of that row. *)
Lemma stored_address (p : Pool) (email : jsstring) r :
  consistent p -> normalized toLowerCase p ->
  In r (users p) ->
  sameEmail toLowerCase email (user_email r) ->
  toLowerCase email = user_email r
  /\ textual (toLowerCase email)
  /\ fits (toLowerCase email)
  /\ forall st,
       has_email (toLowerCase email) (users (record st p)) = true.
Proof.
  intros Hc Hn Hr E.
  unfold normalized in Hn. rewrite Forall_forall in Hn.
  destruct (Hn r Hr) as [_ L].
  unfold sameEmail in E. rewrite L in E.
  pose proof (columns_fit Hc) as F. rewrite Forall_forall in F.
  pose proof (columns_text Hc) as T. rewrite Forall_forall in T.
  rewrite E. repeat split.
  - apply (T r Hr).
  - apply (F r Hr).
  - intros st. apply has_email_true. simpl. apply in_map. exact Hr.
Qed.

(** An address that a row already has, in whatever case, is refused by
    the store as a duplicate. *)
Lemma createUser_duplicate (p : Pool) request r :
  consistent p -> normalized toLowerCase p ->
  In r (users p) ->
  validRequest request ->
  sameEmail toLowerCase (req_email request) (user_email r) ->
  textual (trim (req_name request)) ->
  fits (trim (req_name request)) ->
  (users_id_seq p < serial_max)%Z ->
  fst (createUser toLowerCase None request p)
  = Fail ALREADY_EXISTS "User with this email already exists"
  /\ users (snd (createUser toLowerCase None request p)) = users p.
Proof.
  intros Hc Hn Hr Hv E Tn Hf Hs.
  destruct (@stored_address p _ r Hc Hn Hr E) as (L & Te & He & Hd).
  rewrite createUser_valid by assumption.
  unfold query, insertUser.
  assert (V : insert_values (trim (req_name request))
                (toLowerCase (req_email request))
              = ret (trim (req_name request),
                     toLowerCase (req_email request))).
  { apply insert_values_ret. auto using varchar_fits. }
  rewrite V. unfold ret at 1. unfold nextval, record; simpl.
  apply Z.ltb_lt in Hs. rewrite Hs.
  unfold check_unique; simpl.
  destruct (has_id (users_id_seq p + 1) (users p)); simpl; [auto|].
  specialize (Hd CreateTableUsers). simpl in Hd.
  rewrite Hd. simpl. auto.
Qed.

(** Such a request never gets a reply and never adds a row, whatever its
    name and whatever the connection does. *)
Lemma createUser_duplicate_fails (p : Pool) fault request r :
  consistent p -> normalized toLowerCase p ->
  In r (users p) ->
  validRequest request ->
  sameEmail toLowerCase (req_email request) (user_email r) ->
  (fst (createUser toLowerCase fault request p)
   = Fail ALREADY_EXISTS "User with this email already exists"
   \/ fst (createUser toLowerCase fault request p)
      = Fail INTERNAL "Failed to create user")
  /\ users (snd (createUser toLowerCase fault request p)) = users p.
Proof.
  intros Hc Hn Hr Hv E.
  destruct (@stored_address p _ r Hc Hn Hr E) as (L & Te & He & Hd).
  destruct (@insertUser_taken (trim (req_name request))
              (toLowerCase (req_email request))
              (record (InsertUser (trim (req_name request))
                                  (toLowerCase (req_email request))) p)
              He (Hd _)) as (x & X1 & X2).
  rewrite createUser_valid by assumption.
  unfold query. destruct fault as [[e|e]|].
  - simpl. destruct (code_is e "23505"); auto.
  - simpl. rewrite X2. destruct (code_is e "23505"); auto.
  - destruct (insertUser _ _ _) as [result q]. simpl in X1, X2.
    subst result. simpl. rewrite X2. destruct (code_is x "23505"); auto.
Qed.

(** C3, as amended.  In every pool that the service reaches, no two rows
    have addresses that are equal up to the case of letters, and the same
    holds after any further call.  A valid request for an address that a
    row has up to case is answered with [ALREADY_EXISTS] and adds no row,
    when its trimmed name is text without the character U+0000 of at most
    255 characters, the connection does not fail and the sequence of ids
    is not used up.  Whatever its name, and whatever the connection and
    the sequence do, such a request gets no reply and adds no row: it
    fails with [ALREADY_EXISTS] or with [INTERNAL]. *)
Theorem emails_unique_ignoring_case (p : Pool) :
  reachable toLowerCase pgLower p ->
  (forall r1 r2,
      In r1 (users p) -> In r2 (users p) ->
      sameEmail toLowerCase (user_email r1) (user_email r2) -> r1 = r2)
  /\ (forall c r1 r2,
        In r1 (users (serve toLowerCase pgLower c p)) ->
        In r2 (users (serve toLowerCase pgLower c p)) ->
        sameEmail toLowerCase (user_email r1) (user_email r2) -> r1 = r2)
  /\ (forall request r,
        In r (users p) ->
        validRequest request ->
        sameEmail toLowerCase (req_email request) (user_email r) ->
        textual (trim (req_name request)) ->
        fits (trim (req_name request)) ->
        (users_id_seq p < serial_max)%Z ->
        fst (createUser toLowerCase None request p)
        = Fail ALREADY_EXISTS "User with this email already exists"
        /\ users (snd (createUser toLowerCase None request p)) = users p)
  /\ (forall fault request r,
        In r (users p) ->
        validRequest request ->
        sameEmail toLowerCase (req_email request) (user_email r) ->
        (fst (createUser toLowerCase fault request p)
         = Fail ALREADY_EXISTS "User with this email already exists"
         \/ fst (createUser toLowerCase fault request p)
            = Fail INTERNAL "Failed to create user")
        /\ users (snd (createUser toLowerCase fault request p)) = users p).
Proof.
  intros H.
  pose proof (reachable_consistent H) as Hc.
  pose proof (reachable_normalized toLowerCase_idem
                toLowerCase_noWhiteSpace H) as Hn.
  split; [|split; [|split]].
  - apply unique_ignoring_case; assumption.
  - intros c. apply unique_ignoring_case.
    + apply consistent_serve; assumption.
    + apply normalized_serve; assumption.
  - intros request r. apply createUser_duplicate; assumption.
  - intros fault request r. apply createUser_duplicate_fails; assumption.
Qed.

(** C10.  [createUser] does not trim the address.  An address with a
    character of white space in it (at its start or its end, for one) is
    not valid; the request is answered with [INVALID_ARGUMENT], with
    "Invalid email format" if the name is not blank, and the pool is left
    as it was.  So in every pool that the service reaches each address is
    free of white space and in lower case. *)
Theorem email_never_trimmed :
  (forall fault request p w,
      In w (req_email request) -> isWhiteSpace w = true ->
      isValidEmail (req_email request) = false
      /\ (exists message,
            createUser toLowerCase fault request p
            = (Fail INVALID_ARGUMENT message, p))
      /\ (trim (req_name request) <> [] ->
          createUser toLowerCase fault request p
          = (Fail INVALID_ARGUMENT "Invalid email format", p)))
  /\ (forall p,
        reachable toLowerCase pgLower p ->
        forall r, In r (users p) ->
          noWhiteSpace (user_email r)
          /\ toLowerCase (user_email r) = user_email r).
Proof.
  split.
  - intros fault request p w Hw Hws.
    assert (Hs : ~ emailShape (req_email request)).
    { intros Q. apply emailShape_noWhiteSpace in Q.
      unfold noWhiteSpace in Q. rewrite Forall_forall in Q.
      specialize (Q w Hw). congruence. }
    split; [apply isValidEmail_false; exact Hs|]. split.
    + destruct (@createUser_invalid toLowerCase request) as (m & E).
      * intros (_ & _ & _ & Q). exact (Hs Q).
      * exists m. apply E.
    + intros Ht. apply createUser_bad_email; auto.
      * intros Q. rewrite Q in Ht. apply Ht. reflexivity.
      * intros Q. rewrite Q in Hw. contradiction.
  - intros p H r Hr.
    pose proof (reachable_normalized toLowerCase_idem
                  toLowerCase_noWhiteSpace H) as Hn.
    unfold normalized in Hn. rewrite Forall_forall in Hn. auto.
Qed.

End Addresses.

(** C3, as it is stated, fails: the address of the second request differs
    from the stored one in case only, but its name has 256 letters, and
    the answer is [INTERNAL], not [ALREADY_EXISTS].  No row is added. *)
Lemma duplicate_with_long_name_is_internal :
  In marko_row (users pool_marko)
  /\ validRequest marko_long
  /\ sameEmail toLowerCaseLatin (req_email marko_long) (user_email marko_row)
  /\ fst (createUser toLowerCaseLatin None marko_long pool_marko)
     = Fail INTERNAL "Failed to create user"
  /\ users (snd (createUser toLowerCaseLatin None marko_long pool_marko))
     = users pool_marko.
Proof.
  split; [rewrite pool_marko_users; left; reflexivity|].
  split; [exact marko_long_valid|].
  split; [|split]; vm_compute; reflexivity.
Qed.

Lemma emails_unique_ignoring_case_witness :
  (fst (createUser toLowerCaseLatin None marko_again pool_marko)
   = Fail ALREADY_EXISTS "User with this email already exists"
   /\ users (snd (createUser toLowerCaseLatin None marko_again pool_marko))
      = users pool_marko)
  /\ (forall r1 r2,
        In r1 (users pool_marko) -> In r2 (users pool_marko) ->
        sameEmail toLowerCaseLatin (user_email r1) (user_email r2) ->
        r1 = r2)
  /\ ((fst (createUser toLowerCaseLatin None marko_long pool_marko)
       = Fail ALREADY_EXISTS "User with this email already exists"
       \/ fst (createUser toLowerCaseLatin None marko_long pool_marko)
          = Fail INTERNAL "Failed to create user")
      /\ users (snd (createUser toLowerCaseLatin None marko_long pool_marko))
         = users pool_marko).
Proof.
  pose proof (@emails_unique_ignoring_case
                toLowerCaseLatin toLowerCaseLatinUnit
                toLowerCaseLatin_idem toLowerCaseLatin_noWhiteSpace
                pool_marko pool_marko_reachable) as (H1 & _ & H3 & H4).
  assert (Hr : In marko_row (users pool_marko))
    by (rewrite pool_marko_users; left; reflexivity).
  split; [|split; [exact H1|]].
  - apply (H3 marko_again marko_row).
    + exact Hr.
    + exact marko_again_valid.
    + vm_compute. reflexivity.
    + apply textual_existsb. vm_compute. reflexivity.
    + unfold fits. vm_compute. lia.
    + vm_compute. reflexivity.
  - apply (H4 None marko_long marko_row).
    + exact Hr.
    + exact marko_long_valid.
    + vm_compute. reflexivity.
Defined.

Lemma email_never_trimmed_witness :
  createUser toLowerCaseLatin None padded_email pool_marko
  = (Fail INVALID_ARGUMENT "Invalid email format", pool_marko)
  /\ noWhiteSpace (user_email marko_row)
  /\ toLowerCaseLatin (user_email marko_row) = user_email marko_row.
Proof.
  destruct (@email_never_trimmed toLowerCaseLatin toLowerCaseLatinUnit
              toLowerCaseLatin_idem toLowerCaseLatin_noWhiteSpace)
    as [H1 H2].
  split.
  - apply (H1 None padded_email pool_marko 32%N).
    + left. reflexivity.
    + reflexivity.
    + vm_compute. discriminate.
  - apply (H2 pool_marko pool_marko_reachable marko_row).
    rewrite pool_marko_users. left. reflexivity.
Defined.

(* ------------------------------------------------------------------ *)
(** ** Deletion *)

Lemma filter_id_nil (id : Z) (rows : list User) :
  ~ In id (map user_id rows) ->
  filter (fun r => Z.eqb (user_id r) id) rows = []
  /\ filter (fun r => negb (Z.eqb (user_id r) id)) rows = rows.
Proof.
  induction rows as [|r rows IH]; simpl; intros H; [auto|].
  destruct (Z.eqb_spec (user_id r) id) as [E|E]; [tauto|].
  simpl. destruct IH as [-> ->]; tauto.
Qed.

Lemma filter_id_cons (id : Z) (rows : list User) :
  In id (map user_id rows) ->
  filter (fun r => Z.eqb (user_id r) id) rows <> [].
Proof.
  induction rows as [|r rows IH]; simpl; intros H; [contradiction|].
  destruct (Z.eqb_spec (user_id r) id) as [E|E]; [discriminate|].
  apply IH. tauto.
Qed.

Lemma deleteUser_zero fault request p :
  req_id request = 0%Z ->
  deleteUser fault request p
  = (Fail INVALID_ARGUMENT "User ID is required", p).
Proof. intros H. unfold deleteUser. rewrite H. reflexivity. Qed.

Lemma deleteUser_absent request p :
  req_id request <> 0%Z ->
  ~ In (req_id request) (map user_id (users p)) ->
  deleteUser None request p
  = (Fail NOT_FOUND
       ("User with ID " ++ decimal (req_id request) ++ " not found")%string,
     record (DeleteUserById (req_id request)) p).
Proof.
  intros Hz Ha. unfold deleteUser, falsy_number.
  apply Z.eqb_neq in Hz. rewrite Hz.
  unfold query, deleteUserById, record; simpl.
  destruct (filter_id_nil _ _ Ha) as [-> ->]. reflexivity.
Qed.

Lemma deleteUser_present request p :
  req_id request <> 0%Z ->
  In (req_id request) (map user_id (users p)) ->
  deleteUser None request p
  = (Reply (mkDeleteUserResponse true
       ("User with ID " ++ decimal (req_id request)
        ++ " successfully deleted")%string),
     mkPool (filter (fun r => negb (Z.eqb (user_id r) (req_id request)))
                    (users p))
            (users_id_seq p)
            (issued p ++ [DeleteUserById (req_id request)])).
Proof.
  intros Hz Hp. unfold deleteUser, falsy_number.
  apply Z.eqb_neq in Hz. rewrite Hz.
  unfold query, deleteUserById, record; simpl.
  apply filter_id_cons in Hp.
  destruct (filter _ (users p)) as [|r rows]; [congruence|]. reflexivity.
Qed.

Lemma deleteUser_not_invalid fault request p message :
  req_id request <> 0%Z ->
  fst (deleteUser fault request p) <> Fail INVALID_ARGUMENT message.
Proof.
  intros Hz. unfold deleteUser, falsy_number.
  apply Z.eqb_neq in Hz. rewrite Hz.
  unfold query, deleteUserById.
  destruct fault as [[e|e]|]; simpl; try discriminate.
  destruct (List.length _ =? 0)%nat; discriminate.
Qed.

(** C5.  [deleteUser] with an absent or zero [id] fails with
    [INVALID_ARGUMENT] "User ID is required" and leaves the pool as it
    was, no statement sent.  With another [id], once the store has run the
    deletion: if no row has the [id], the failure is [NOT_FOUND] "User with
    ID <id> not found" and the table is as it was; if a row has it, the
    reply has [success] and the message "User with ID <id> successfully
    deleted", no row with the [id] remains, and the other rows stay. *)
Theorem deleteUser_contract fault request p :
  (req_id request = 0%Z ->
   deleteUser fault request p
   = (Fail INVALID_ARGUMENT "User ID is required", p))
  /\ (req_id request <> 0%Z ->
      ~ In (req_id request) (map user_id (users p)) ->
      deleteUser None request p
      = (Fail NOT_FOUND
           ("User with ID " ++ decimal (req_id request)
            ++ " not found")%string,
         record (DeleteUserById (req_id request)) p))
  /\ (req_id request <> 0%Z ->
      In (req_id request) (map user_id (users p)) ->
      fst (deleteUser None request p)
      = Reply (mkDeleteUserResponse true
          ("User with ID " ++ decimal (req_id request)
           ++ " successfully deleted")%string)
      /\ ~ In (req_id request)
              (map user_id (users (snd (deleteUser None request p))))
      /\ forall r, user_id r <> req_id request ->
           (In r (users (snd (deleteUser None request p)))
            <-> In r (users p))).
Proof.
  split; [apply deleteUser_zero|]. split; [apply deleteUser_absent|].
  intros Hz Hp. rewrite deleteUser_present by assumption. simpl.
  split; [reflexivity|]. split.
  - intros Q. apply in_map_iff in Q as (r & E & Hr).
    apply filter_In in Hr as [_ Hr].
    apply Z.eqb_eq in E. rewrite E in Hr. discriminate.
  - intros r Hr. rewrite filter_In.
    apply Z.eqb_neq in Hr. rewrite Hr. simpl. tauto.
Qed.

Lemma deleteUser_contract_witness :
  deleteUser None (mkDeleteUserRequest 0) pool_marko
  = (Fail INVALID_ARGUMENT "User ID is required", pool_marko)
  /\ deleteUser None (mkDeleteUserRequest 999999) pool_marko
     = (Fail NOT_FOUND "User with ID 999999 not found",
        record (DeleteUserById 999999) pool_marko)
  /\ fst (deleteUser None (mkDeleteUserRequest 1) pool_marko)
     = Reply (mkDeleteUserResponse true "User with ID 1 successfully deleted")
  /\ ~ In 1%Z (map user_id
         (users (snd (deleteUser None (mkDeleteUserRequest 1) pool_marko)))).
Proof.
  split; [|split].
  - apply (proj1 (deleteUser_contract None (mkDeleteUserRequest 0)
                    pool_marko)).
    reflexivity.
  - apply (proj1 (proj2 (deleteUser_contract None
                           (mkDeleteUserRequest 999999) pool_marko))).
    + discriminate.
    + rewrite pool_marko_users. simpl. intros [Q|[]]. discriminate.
  - destruct (proj2 (proj2 (deleteUser_contract None (mkDeleteUserRequest 1)
                              pool_marko))) as (H1 & H2 & _).
    + discriminate.
    + rewrite pool_marko_users. left. reflexivity.
    + split; [exact H1 | exact H2].
Defined.

(** C9.  Every [id] other than zero passes the check of [deleteUser],
    the negative ones too: the answer is never [INVALID_ARGUMENT]; if no
    row has the [id] and the store has run the deletion it is [NOT_FOUND],
    and no row of a table of the service has a negative [id]. *)
Theorem deleteUser_nonzero_id fault request p :
  req_id request <> 0%Z ->
  (forall message,
      fst (deleteUser fault request p) <> Fail INVALID_ARGUMENT message)
  /\ (~ In (req_id request) (map user_id (users p)) ->
      fst (deleteUser None request p)
      = Fail NOT_FOUND
          ("User with ID " ++ decimal (req_id request)
           ++ " not found")%string)
  /\ (consistent p -> (req_id request < 0)%Z ->
      fst (deleteUser None request p)
      = Fail NOT_FOUND
          ("User with ID " ++ decimal (req_id request)
           ++ " not found")%string).
Proof.
  intros Hz. split; [intros m; apply deleteUser_not_invalid; exact Hz|].
  assert (A : ~ In (req_id request) (map user_id (users p)) ->
              fst (deleteUser None request p)
              = Fail NOT_FOUND
                  ("User with ID " ++ decimal (req_id request)
                   ++ " not found")%string).
  { intros Ha. rewrite deleteUser_absent by assumption. reflexivity. }
  split; [exact A|].
  intros Hc Hneg. apply A.
  intros Q. apply in_map_iff in Q as (r & E & Hr).
  pose proof (ids_issued Hc) as F. rewrite Forall_forall in F.
  specialize (F r Hr). lia.
Qed.

Lemma deleteUser_nonzero_id_witness :
  (forall message,
      fst (deleteUser None (mkDeleteUserRequest (-3)) pool_marko)
      <> Fail INVALID_ARGUMENT message)
  /\ fst (deleteUser None (mkDeleteUserRequest 999999) pool_marko)
     = Fail NOT_FOUND "User with ID 999999 not found"
  /\ fst (deleteUser None (mkDeleteUserRequest (-3)) pool_marko)
     = Fail NOT_FOUND "User with ID -3 not found".
Proof.
  assert (Hm : req_id (mkDeleteUserRequest (-3)) <> 0%Z) by discriminate.
  assert (Hn : req_id (mkDeleteUserRequest 999999) <> 0%Z) by discriminate.
  pose proof (@deleteUser_nonzero_id None _ pool_marko Hm) as (H1 & _ & H3).
  pose proof (@deleteUser_nonzero_id None _ pool_marko Hn) as (_ & H2 & _).
  split; [exact H1|]. split.
  - apply H2. rewrite pool_marko_users. simpl. intros [Q|[]]. discriminate.
  - apply H3; [|reflexivity].
    exact (reachable_consistent pool_marko_reachable).
Defined.

(* ------------------------------------------------------------------ *)
(** ** Classification of errors *)

Section Classification.

Variable toLowerCase : jsstring -> jsstring.
Variable pgLower : N -> N.

Lemma createUser_classified fault request p :
  classified (fst (createUser toLowerCase fault request p)).
Proof.
  unfold createUser.
  destruct (falsy_string (req_name request)
            || falsy_string (req_email request)); [simpl; auto|].
  destruct (List.length (trim (req_name request)) =? 0)%nat; [simpl; auto|].
  destruct (negb (isValidEmail (req_email request))); [simpl; auto|].
  destruct (query _ _ _ _) as [[rows|e] p']; simpl.
  - destruct rows; simpl; auto.
  - destruct (code_is e "23505"); simpl; auto.
Qed.

Lemma getUsers_failure fault request p code message :
  fst (getUsers pgLower fault request p) = Fail code message ->
  code = INTERNAL /\ message = "Failed to retrieve users"%string.
Proof.
  unfold getUsers.
  destruct (negb (falsy_string (req_name_filter request))
            && (0 <? List.length (trim (req_name_filter request)))%nat);
    destruct (query _ _ _ _) as [[rows|e] p']; simpl; intros Q;
    inversion Q; auto.
Qed.

Lemma getUsers_fault e request p :
  fst (getUsers pgLower (Some e) request p)
  = Fail INTERNAL "Failed to retrieve users".
Proof.
  unfold getUsers, query.
  destruct (negb (falsy_string (req_name_filter request))
            && (0 <? List.length (trim (req_name_filter request)))%nat);
    destruct e; reflexivity.
Qed.

Lemma getUsers_classified fault request p :
  classified (fst (getUsers pgLower fault request p)).
Proof.
  destruct (fst (getUsers pgLower fault request p)) as [r|code message] eqn:E;
    simpl; [exact I|].
  apply getUsers_failure in E as [-> _]. auto.
Qed.

Lemma deleteUser_classified fault request p :
  classified (fst (deleteUser fault request p)).
Proof.
  unfold deleteUser.
  destruct (falsy_number (req_id request)); [simpl; auto|].
  destruct (query _ _ _ _) as [[rows|e] p']; simpl; auto.
  destruct (List.length rows =? 0)%nat; simpl; auto.
Qed.

Lemma deleteUser_fault e request p :
  req_id request <> 0%Z ->
  fst (deleteUser (Some e) request p) = Fail INTERNAL "Failed to delete user".
Proof.
  intros Hz. unfold deleteUser, falsy_number.
  apply Z.eqb_neq in Hz. rewrite Hz. destruct e; reflexivity.
Qed.

Lemma createUser_store_failure fault request p e :
  validRequest request ->
  fst (query fault
         (InsertUser (trim (req_name request))
                     (toLowerCase (req_email request)))
         (insertUser (trim (req_name request))
                     (toLowerCase (req_email request))) p) = throw e ->
  fst (createUser toLowerCase fault request p)
  = if code_is e "23505"
    then Fail ALREADY_EXISTS "User with this email already exists"
    else Fail INTERNAL "Failed to create user".
Proof.
  intros Hv Hq. rewrite createUser_valid by assumption.
  destruct (query _ _ _ _) as [result p']. simpl in Hq. subst result.
  reflexivity.
Qed.

(** C6.  Each handler answers with a reply or with an error of one of
    the four kinds.  When the statement of [createUser] fails, by a fault
    of the environment or in the store, with a code other than that of a
    violated uniqueness, the answer is [INTERNAL] "Failed to create user";
    every failure of [getUsers] is [INTERNAL] "Failed to retrieve users",
    and a failed statement gives it; a failed statement of [deleteUser]
    gives [INTERNAL] "Failed to delete user". *)
Theorem errors_are_classified fault create get delete p :
  classified (fst (createUser toLowerCase fault create p))
  /\ classified (fst (getUsers pgLower fault get p))
  /\ classified (fst (deleteUser fault delete p))
  /\ (forall e,
        validRequest create ->
        fst (query fault
               (InsertUser (trim (req_name create))
                           (toLowerCase (req_email create)))
               (insertUser (trim (req_name create))
                           (toLowerCase (req_email create))) p) = throw e ->
        code_is e "23505" = false ->
        fst (createUser toLowerCase fault create p)
        = Fail INTERNAL "Failed to create user")
  /\ (forall e,
        fault = Some e ->
        fst (getUsers pgLower fault get p)
        = Fail INTERNAL "Failed to retrieve users")
  /\ (forall code message,
        fst (getUsers pgLower fault get p) = Fail code message ->
        code = INTERNAL /\ message = "Failed to retrieve users"%string)
  /\ (forall e,
        fault = Some e -> req_id delete <> 0%Z ->
        fst (deleteUser fault delete p)
        = Fail INTERNAL "Failed to delete user").
Proof.
  split; [apply createUser_classified|].
  split; [apply getUsers_classified|].
  split; [apply deleteUser_classified|].
  split; [|split; [|split]].
  - intros e Hv Hq Hcode.
    rewrite (createUser_store_failure _ _ Hv Hq), Hcode. reflexivity.
  - intros e ->. apply getUsers_fault.
  - apply getUsers_failure.
  - intros e ->. apply deleteUser_fault.
Qed.

End Classification.

Lemma errors_are_classified_witness :
  let refused := pgError "57P03" "the database system is starting up" in
  fst (createUser toLowerCaseLatin (Some (Before refused)) marko pool_marko)
  = Fail INTERNAL "Failed to create user"
  /\ fst (createUser toLowerCaseLatin None ana_long pool_marko)
     = Fail INTERNAL "Failed to create user"
  /\ fst (getUsers toLowerCaseLatinUnit (Some (Before refused)) filter_a_c pool_marko)
     = Fail INTERNAL "Failed to retrieve users"
  /\ fst (deleteUser (Some (Before refused)) (mkDeleteUserRequest 1) pool_marko)
     = Fail INTERNAL "Failed to delete user".
Proof.
  intros refused. split; [|split; [|split]].
  - apply (proj1 (proj2 (proj2 (proj2
             (@errors_are_classified toLowerCaseLatin toLowerCaseLatinUnit
                (Some (Before refused)) marko filter_a_c (mkDeleteUserRequest 1)
                pool_marko)))) refused).
    + exact marko_valid.
    + reflexivity.
    + reflexivity.
  - apply (proj1 (proj2 (proj2 (proj2
             (@errors_are_classified toLowerCaseLatin toLowerCaseLatinUnit
                None ana_long filter_a_c (mkDeleteUserRequest 1)
                pool_marko))))
             (pgError "22001" "value too long for type character varying")).
    + exact ana_long_valid.
    + vm_compute. reflexivity.
    + reflexivity.
  - apply (proj1 (proj2 (proj2 (proj2 (proj2
             (@errors_are_classified toLowerCaseLatin toLowerCaseLatinUnit
                (Some (Before refused)) marko filter_a_c (mkDeleteUserRequest 1)
                pool_marko))))) (Before refused)).
    reflexivity.
  - apply (proj2 (proj2 (proj2 (proj2 (proj2 (proj2
             (@errors_are_classified toLowerCaseLatin toLowerCaseLatinUnit
                (Some (Before refused)) marko filter_a_c (mkDeleteUserRequest 1)
                pool_marko)))))) (Before refused)).
    + reflexivity.
    + discriminate.
Defined.

(* ------------------------------------------------------------------ *)
(** ** Listing *)

Lemma insert_by_id_perm (r : User) (rows : list User) :
  Permutation (insert_by_id r rows) (r :: rows).
Proof.
  induction rows as [|x rows IH]; simpl; [reflexivity|].
  destruct (user_id r <=? user_id x)%Z; [reflexivity|].
  rewrite IH. apply perm_swap.
Qed.

Lemma order_by_id_perm (rows : list User) :
  Permutation (order_by_id rows) rows.
Proof.
  induction rows as [|x rows IH]; simpl; [reflexivity|].
  rewrite insert_by_id_perm. constructor. exact IH.
Qed.

Lemma insert_by_id_sorted (r : User) (rows : list User) :
  Sorted by_id rows -> Sorted by_id (insert_by_id r rows).
Proof.
  induction rows as [|x rows IH]; simpl; intros H.
  - repeat constructor.
  - destruct (Z.leb_spec (user_id r) (user_id x)) as [L|L].
    + constructor; [exact H|]. constructor. exact L.
    + inversion H as [|? ? Hs Hh]; subst.
      constructor; [apply IH; exact Hs|].
      destruct rows as [|y rows]; simpl.
      * constructor. unfold by_id. lia.
      * destruct (user_id r <=? user_id y)%Z; constructor.
        -- unfold by_id. lia.
        -- inversion Hh; assumption.
Qed.

(** [ORDER BY id] yields the same rows by ascending [id]. *)
Lemma order_by_id_sorted (rows : list User) :
  Sorted by_id (order_by_id rows).
Proof.
  induction rows as [|x rows IH]; simpl; [constructor|].
  apply insert_by_id_sorted. exact IH.
Qed.

Lemma map_rebuild_user (rows : list User) :
  map (fun row => mkUser (user_id row) (user_name row) (user_email row)) rows
  = rows.
Proof.
  induction rows as [|[i n e] rows IH]; simpl; [reflexivity|].
  rewrite IH. reflexivity.
Qed.

Lemma like_match_any_unfold (toks : list like_token) (s : jsstring) :
  like_match (AnyString :: toks) s
  = like_match toks s
    || match s with
       | [] => false
       | _ :: s' => like_match (AnyString :: toks) s'
       end.
Proof. destruct s; reflexivity. Qed.

(** [%] stands for any beginning. *)
Lemma like_match_any (toks : list like_token) (s : jsstring) :
  like_match (AnyString :: toks) s = true
  <-> exists a b, s = a ++ b /\ like_match toks b = true.
Proof.
  induction s as [|c s IH]; rewrite like_match_any_unfold.
  - rewrite orb_false_r. split.
    + intros H. exists [], []. auto.
    + intros (a & b & E & H). symmetry in E.
      apply app_eq_nil in E as [_ ->]. exact H.
  - rewrite orb_true_iff, IH. split.
    + intros [H|(a & b & -> & H)].
      * exists [], (c :: s). auto.
      * exists (c :: a), b. auto.
    + intros (a & b & E & H). destruct a as [|x a]; simpl in E.
      * left. congruence.
      * right. inversion E; subst. eauto.
Qed.

Lemma like_match_any_last (s : jsstring) : like_match [AnyString] s = true.
Proof.
  apply like_match_any. exists s, []. rewrite app_nil_r. auto.
Qed.

(** Literals stand for themselves. *)
Lemma like_match_literals (f : jsstring) (toks : list like_token)
    (s : jsstring) :
  like_match (map Literal f ++ toks) s = true
  <-> exists b, s = f ++ b /\ like_match toks b = true.
Proof.
  revert s. induction f as [|c f IH]; intros s; simpl.
  - split; [eauto|]. intros (b & -> & H). exact H.
  - destruct s as [|x s].
    + split; [discriminate|]. intros (b & E & _). discriminate.
    + rewrite andb_true_iff, N.eqb_eq, IH. split.
      * intros [-> (b & -> & H)]. eauto.
      * intros (b & E & H). inversion E; subst. eauto.
Qed.

Lemma like_parse_plain (f rest : jsstring) (toks : list like_token) :
  forallb (fun c => negb (like_special c)) f = true ->
  like_parse rest = ret toks ->
  like_parse (f ++ rest) = ret (map Literal f ++ toks).
Proof.
  intros Hf Hr. induction f as [|c f IH]; simpl; [exact Hr|].
  cbn [forallb] in Hf. apply andb_true_iff in Hf as [Hc Hf].
  unfold like_special in Hc.
  rewrite negb_true_iff, !orb_false_iff in Hc.
  destruct Hc as [[H37 H95] H92].
  rewrite H92, H37, H95, (IH Hf). reflexivity.
Qed.

(** The parameter of the filtered listing is bound when the filter is
    text, and refused when it has the character U+0000. *)
Lemma pattern_bound (f : jsstring) :
  textual f ->
  text_parameter ([37%N] ++ f ++ [37%N]) = ret ([37%N] ++ f ++ [37%N]).
Proof.
  intros H. apply text_parameter_textual. unfold textual in *.
  rewrite !in_app_iff. simpl. intros [[Q|[]]|[Q|[Q|[]]]];
    try discriminate Q. exact (H Q).
Qed.

Lemma pattern_refused (f : jsstring) :
  In 0%N f ->
  text_parameter ([37%N] ++ f ++ [37%N])
  = throw (pgError "22021" "invalid byte sequence for encoding UTF8: 0x00").
Proof.
  intros H. apply text_parameter_refused.
  rewrite !in_app_iff. auto.
Qed.

Section Listing.

Variable pgLower : N -> N.

(** [LOWER] leaves [%] as it is, and it neither makes nor unmakes a
    character with a meaning in a pattern. *)
Hypothesis pgLower_percent : pgLower 37%N = 37%N.
Hypothesis pgLower_special :
  forall c, like_special (pgLower c) = like_special c.

Lemma like_parse_filter (f : jsstring) :
  forallb (fun c => negb (like_special c)) f = true ->
  like_parse (map pgLower ([37%N] ++ f ++ [37%N]))
  = ret (AnyString :: map Literal (map pgLower f) ++ [AnyString]).
Proof.
  intros Hf. rewrite !map_app. cbn [map app]. rewrite pgLower_percent.
  change (like_parse (37%N :: map pgLower f ++ [37%N]))
    with (toks <- like_parse (map pgLower f ++ [37%N]) ;;
          ret (AnyString :: toks)).
  rewrite like_parse_plain with (toks := [AnyString]); [reflexivity| |reflexivity].
  rewrite forallb_forall in Hf. apply forallb_forall.
  intros c Hc. apply in_map_iff in Hc as (x & <- & Hx).
  rewrite pgLower_special. auto.
Qed.


(** The pattern of [getUsers] is always well formed: its last [%] closes
    any escape. *)
Lemma like_parse_closed (s : jsstring) :
  (exists toks, like_parse (s ++ [37%N]) = ret toks)
  /\ forall c, exists toks, like_parse (c :: s ++ [37%N]) = ret toks.
Proof.
  induction s as [|x s [IH1 IH2]].
  - split; [eexists; reflexivity|]. intros c. simpl.
    destruct (c =? 92)%N; eexists; reflexivity.
  - split; [apply IH2|]. intros c.
    change (like_parse (c :: (x :: s) ++ [37%N]))
      with (if (c =? 92)%N
            then toks <- like_parse (s ++ [37%N]) ;; ret (Literal x :: toks)
            else toks <- like_parse (x :: s ++ [37%N]) ;;
                 ret ((if (c =? 37)%N then AnyString
                       else if (c =? 95)%N then AnyChar
                       else Literal c) :: toks)).
    destruct (c =? 92)%N.
    + destruct IH1 as [toks ->]. eexists; reflexivity.
    + destruct (IH2 x) as [toks ->]. eexists; reflexivity.
Qed.

(** A filter with the character U+0000 is not blank. *)
Lemma filter_with_zero (f : jsstring) :
  In 0%N (trim f) -> f <> [] /\ trim f <> [].
Proof.
  intros H. split; intros Q; rewrite Q in H; exact H.
Qed.

(** X14.  When the connection does not fail, [getUsers] replies for
    every filter that is text without the character U+0000, be it with no
    row at all: the pattern made of the filter is never malformed, and the
    rows of the reply are rows of the table by ascending [id].  A filter
    with the character U+0000 is refused by the store, and the answer is
    [INTERNAL] "Failed to retrieve users". *)
Lemma getUsers_replies request p :
  (textual (trim (req_name_filter request)) ->
   exists rows,
     fst (getUsers pgLower None request p) = Reply (mkGetUsersResponse rows)
     /\ incl rows (users p)
     /\ Sorted by_id rows)
  /\ (In 0%N (trim (req_name_filter request)) ->
      fst (getUsers pgLower None request p)
      = Fail INTERNAL "Failed to retrieve users").
Proof.
  split.
  2:{ intros H. destruct (filter_with_zero _ H) as [Hne Hn].
      unfold getUsers. rewrite (falsy_string_false Hne). simpl negb.
      replace (0 <? List.length (trim (req_name_filter request)))%nat
        with true
        by (destruct (trim (req_name_filter request));
            [congruence | reflexivity]).
      cbn [andb]. unfold query, selectUsersLike.
      rewrite (pattern_refused _ H). reflexivity. }
  intros Ht. unfold getUsers.
  destruct (negb (falsy_string (req_name_filter request))
            && (0 <? List.length (trim (req_name_filter request)))%nat).
  - unfold query, selectUsersLike, record. cbn [users fst snd].
    rewrite (pattern_bound Ht). unfold ret at 1. cbn [bind].
    rewrite !map_app. cbn [map app]. rewrite pgLower_percent.
    destruct (proj2 (like_parse_closed
                       (map pgLower (trim (req_name_filter request))))
                    37%N) as [toks ->].
    cbn [bind ret fst try_catch]. rewrite map_rebuild_user.
    eexists. split; [reflexivity|]. split; [|apply order_by_id_sorted].
    intros r Hr. apply (Permutation_in _ (order_by_id_perm _)) in Hr.
    apply filter_In in Hr. tauto.
  - unfold query, selectUsers, record.
    cbn [bind ret fst try_catch users]. rewrite map_rebuild_user.
    eexists. split; [reflexivity|]. split; [|apply order_by_id_sorted].
    intros r Hr. exact (Permutation_in _ (order_by_id_perm _) Hr).
Qed.

End Listing.

(** X13.  Without a filter, or with a blank one, [getUsers] replies,
    once the store has run the statement, with all rows by ascending
    [id]. *)
Lemma getUsers_no_filter (pgLower : N -> N) request p :
  trim (req_name_filter request) = [] ->
  exists rows,
    fst (getUsers pgLower None request p) = Reply (mkGetUsersResponse rows)
    /\ Permutation rows (users p)
    /\ Sorted by_id rows.
Proof.
  intros Hn. unfold getUsers. rewrite Hn. simpl List.length.
  rewrite andb_false_r. unfold query, selectUsers, record.
  cbn [bind ret fst try_catch users]. rewrite map_rebuild_user.
  eexists. split; [reflexivity|].
  split; [apply order_by_id_perm | apply order_by_id_sorted].
Qed.

(** C4 at a filter with a wildcard.  [abc] does not contain [a_c], yet
    [getUsers] with the filter [a_c] replies with the user [abc]: the
    filter goes into the pattern of [LIKE] as it is, and there [_] stands
    for any character. *)
Theorem getUsers_filter_is_a_pattern :
  users pool_abc = [abc_row]
  /\ fst (getUsers toLowerCaseLatinUnit None filter_a_c pool_abc)
     = Reply (mkGetUsersResponse [abc_row])
  /\ ~ containsFilter toLowerCaseLatinUnit
         (trim (req_name_filter filter_a_c)) (user_name abc_row).
Proof.
  split; [vm_compute; reflexivity|].
  split; [vm_compute; reflexivity|].
  intros (a & b & E). vm_compute in E.
  destruct a as [|x a]; simpl in E; [discriminate|].
  destruct a as [|y a]; simpl in E; [discriminate|].
  destruct a as [|z a]; simpl in E; [discriminate|].
  destruct a; discriminate.
Qed.

(** The demonstration of the client, on the model: of the three users,
    the filter [nik] finds Nikola alone, and after the deletion of Ana the
    filter [Ana] finds nobody. *)
Example demo_filters :
  fst (getUsers toLowerCaseLatinUnit None (mkGetUsersRequest (js "nik"))
         pool_demo)
  = Reply (mkGetUsersResponse
             [mkUser 3 (js "Nikola Nikoli" ++ [263%N])
                     (js "nikola.nikolic@example.com")])
  /\ fst (getUsers toLowerCaseLatinUnit None (mkGetUsersRequest (js "Ana"))
            (snd (deleteUser None (mkDeleteUserRequest 2) pool_demo)))
     = Reply (mkGetUsersResponse []).
Proof. split; vm_compute; reflexivity. Qed.

(* ------------------------------------------------------------------ *)
(** ** Readiness *)

Lemma probes_app (a b : list event) : probes (a ++ b) = (probes a + probes b)%nat.
Proof. unfold probes. rewrite filter_app, length_app. reflexivity. Qed.

(** Unfolds one turn of a loop once the outcome of its probe is known. *)
Ltac loop_turn H :=
  simpl; rewrite H; try reflexivity.

Section Loops.

Variables (retries : nat) (delayMs : Z) (probe : nat -> bool).

Lemma probes_database_retries (i k : nat) :
  probes (flat_map (database_retry retries delayMs) (seq i k)) = k.
Proof.
  revert i. induction k as [|k IH]; intros i; [reflexivity|].
  cbn [seq flat_map]. rewrite probes_app, IH. reflexivity.
Qed.

Lemma probes_server_retries (i k : nat) :
  probes (flat_map (server_retry retries delayMs) (seq i k)) = k.
Proof.
  revert i. induction k as [|k IH]; intros i; [reflexivity|].
  cbn [seq flat_map]. rewrite probes_app, IH. reflexivity.
Qed.

Lemma waitForDatabase_from_bounded (remaining i : nat) :
  (probes (fst (waitForDatabase_from remaining i retries delayMs probe))
   <= remaining)%nat.
Proof.
  revert i. induction remaining as [|n IH]; intros i; simpl; [apply le_n|].
  destruct (probe i); [unfold probes; simpl; lia|].
  specialize (IH (S i)).
  destruct (waitForDatabase_from n (S i) retries delayMs probe) as [tr r].
  simpl in *. unfold probes in *. simpl. lia.
Qed.

Lemma waitForServer_from_bounded (remaining i : nat) :
  (probes (fst (waitForServer_from remaining i retries delayMs probe))
   <= remaining)%nat.
Proof.
  revert i. induction remaining as [|n IH]; intros i; simpl; [apply le_n|].
  destruct (probe i); [unfold probes; simpl; lia|].
  specialize (IH (S i)).
  destruct (waitForServer_from n (S i) retries delayMs probe) as [tr r].
  simpl in *. unfold probes in *. simpl. lia.
Qed.

Lemma waitForDatabase_from_ready (k : nat) :
  forall remaining i,
    (k < remaining)%nat ->
    probe (i + k) = true ->
    (forall j, (j < k)%nat -> probe (i + j) = false) ->
    waitForDatabase_from remaining i retries delayMs probe
    = (flat_map (database_retry retries delayMs) (seq i k)
       ++ [Probe; ConsoleLog "Database is ready"],
       Returned tt).
Proof.
  induction k as [|k IH]; intros remaining i Hk Ht Hf;
    (destruct remaining as [|n]; [lia|]).
  - rewrite Nat.add_0_r in Ht. loop_turn Ht.
  - pose proof (Hf 0%nat ltac:(lia)) as H0. rewrite Nat.add_0_r in H0.
    loop_turn H0.
    rewrite (IH n (S i)); [reflexivity | lia | |].
    + rewrite <- Ht. f_equal. lia.
    + intros j Hj. rewrite <- (Hf (S j)) by lia. f_equal. lia.
Qed.

Lemma waitForServer_from_ready (k : nat) :
  forall remaining i,
    (k < remaining)%nat ->
    probe (i + k) = true ->
    (forall j, (j < k)%nat -> probe (i + j) = false) ->
    waitForServer_from remaining i retries delayMs probe
    = (flat_map (server_retry retries delayMs) (seq i k)
       ++ [Probe; ConsoleLog ("Server is ready and responding" ++ newline)],
       Returned true).
Proof.
  induction k as [|k IH]; intros remaining i Hk Ht Hf;
    (destruct remaining as [|n]; [lia|]).
  - rewrite Nat.add_0_r in Ht. loop_turn Ht.
  - pose proof (Hf 0%nat ltac:(lia)) as H0. rewrite Nat.add_0_r in H0.
    loop_turn H0.
    rewrite (IH n (S i)); [reflexivity | lia | |].
    + rewrite <- Ht. f_equal. lia.
    + intros j Hj. rewrite <- (Hf (S j)) by lia. f_equal. lia.
Qed.

Lemma waitForDatabase_from_exhausted (remaining : nat) :
  forall i,
    (forall j, (j < remaining)%nat -> probe (i + j) = false) ->
    waitForDatabase_from remaining i retries delayMs probe
    = (flat_map (database_retry retries delayMs) (seq i remaining),
       Thrown "Database did not become ready in time").
Proof.
  induction remaining as [|n IH]; intros i Hf; [reflexivity|].
  pose proof (Hf 0%nat ltac:(lia)) as H0. rewrite Nat.add_0_r in H0.
  loop_turn H0.
  rewrite (IH (S i)); [reflexivity|].
  intros j Hj. rewrite <- (Hf (S j)) by lia. f_equal. lia.
Qed.

Lemma waitForServer_from_exhausted (remaining : nat) :
  forall i,
    (forall j, (j < remaining)%nat -> probe (i + j) = false) ->
    waitForServer_from remaining i retries delayMs probe
    = (flat_map (server_retry retries delayMs) (seq i remaining),
       Thrown "Server did not become available in time").
Proof.
  induction remaining as [|n IH]; intros i Hf; [reflexivity|].
  pose proof (Hf 0%nat ltac:(lia)) as H0. rewrite Nat.add_0_r in H0.
  loop_turn H0.
  rewrite (IH (S i)); [reflexivity|].
  intros j Hj. rewrite <- (Hf (S j)) by lia. f_equal. lia.
Qed.

End Loops.

(** C8.  Each loop makes at most as many probes as its budget allows, one
    after the other.  If turn [k] is the first whose probe succeeds, the
    loop returns after [k + 1] probes; each of the [k] failed turns before
    it shows as a probe, a line with the number of the turn and a sleep of
    the fixed delay.  If no turn of the budget succeeds, every turn shows
    in that way and the loop throws; [main] of the server (budget 20) and
    [main] of the client (budget 30) then end the process with status 1. *)
Theorem readiness_loops (retries : nat) (delayMs : Z) (probe : nat -> bool) :
  ((probes (fst (waitForDatabase retries delayMs probe)) <= retries)%nat
   /\ (probes (fst (waitForServer retries delayMs probe)) <= retries)%nat)
  /\ (forall k,
        (k < retries)%nat -> first_success probe k ->
        waitForDatabase retries delayMs probe
        = (flat_map (database_retry retries delayMs) (seq 0 k)
           ++ [Probe; ConsoleLog "Database is ready"],
           Returned tt)
        /\ waitForServer retries delayMs probe
           = (flat_map (server_retry retries delayMs) (seq 0 k)
              ++ [Probe;
                  ConsoleLog ("Server is ready and responding" ++ newline)],
              Returned true)
        /\ probes (fst (waitForDatabase retries delayMs probe)) = S k
        /\ probes (fst (waitForServer retries delayMs probe)) = S k)
  /\ ((forall j, (j < retries)%nat -> probe j = false) ->
      waitForDatabase retries delayMs probe
      = (flat_map (database_retry retries delayMs) (seq 0 retries),
         Thrown "Database did not become ready in time")
      /\ waitForServer retries delayMs probe
         = (flat_map (server_retry retries delayMs) (seq 0 retries),
            Thrown "Server did not become available in time"))
  /\ (forall init bound,
        (forall j, (j < 20)%nat -> probe j = false) ->
        snd (server_main probe init bound) = Exited 1
        /\ probes (fst (server_main probe init bound)) = 20%nat
        /\ exists trace,
             fst (server_main probe init bound) = trace ++ [Exit 1])
  /\ (forall demo,
        (forall j, (j < 30)%nat -> probe j = false) ->
        snd (client_main probe demo) = Exited 1
        /\ probes (fst (client_main probe demo)) = 30%nat
        /\ exists trace,
             fst (client_main probe demo) = trace ++ [Exit 1]).
Proof.
  split; [split|split; [|split; [|split]]].
  - apply waitForDatabase_from_bounded.
  - apply waitForServer_from_bounded.
  - intros k Hk [Ht Hf]. unfold waitForDatabase, waitForServer.
    rewrite (@waitForDatabase_from_ready retries delayMs probe k retries 0),
            (@waitForServer_from_ready retries delayMs probe k retries 0)
      by auto.
    cbn [fst]. rewrite !probes_app, probes_database_retries,
                       probes_server_retries.
    repeat split; unfold probes; simpl; lia.
  - intros Hf. unfold waitForDatabase, waitForServer.
    rewrite waitForDatabase_from_exhausted, waitForServer_from_exhausted
      by auto.
    split; reflexivity.
  - intros init bound Hf. unfold server_main, waitForDatabase.
    rewrite waitForDatabase_from_exhausted by auto.
    cbn [fst snd]. split; [reflexivity|]. split.
    + rewrite !probes_app, probes_database_retries. reflexivity.
    + eexists. rewrite !app_assoc.
      change [ConsoleError "Failed to start server:"
                "Database did not become ready in time"; Exit 1]
        with ([ConsoleError "Failed to start server:"
                 "Database did not become ready in time"] ++ [Exit 1]).
      rewrite app_assoc. reflexivity.
  - intros demo Hf. unfold client_main, waitForServer.
    rewrite waitForServer_from_exhausted by auto.
    cbn [fst snd]. split; [reflexivity|]. split.
    + rewrite !probes_app, probes_server_retries. reflexivity.
    + eexists. rewrite !app_assoc.
      change [ConsoleError "Failed to connect to server:"
                "Server did not become available in time"; Exit 1]
        with ([ConsoleError "Failed to connect to server:"
                 "Server did not become available in time"] ++ [Exit 1]).
      rewrite app_assoc. reflexivity.
Qed.

Lemma readiness_loops_witness :
  (probes (fst (waitForDatabase 20 1000 (ready_from 2))) = 3%nat
   /\ snd (waitForDatabase 20 1000 (ready_from 2)) = Returned tt)
  /\ snd (waitForServer 30 1000 never_ready)
     = Thrown "Server did not become available in time"
  /\ snd (server_main never_ready (Returned tt) (Returned tt)) = Exited 1
  /\ snd (client_main never_ready ([], 0%Z)) = Exited 1.
Proof.
  split; [|split; [|split]].
  - destruct (proj1 (proj2 (readiness_loops 20 1000 (ready_from 2))) 2%nat)
      as (E & _ & P & _).
    + lia.
    + split; [reflexivity|].
      intros [|[|j]] Hj; [reflexivity | reflexivity | lia].
    + split; [exact P | rewrite E; reflexivity].
  - destruct (proj1 (proj2 (proj2 (readiness_loops 30 1000 never_ready))))
      as [_ E].
    + reflexivity.
    + rewrite E. reflexivity.
  - apply (proj1 (proj2 (proj2 (proj2 (readiness_loops 20 1000 never_ready))))
             (Returned tt) (Returned tt)).
    reflexivity.
  - apply (proj2 (proj2 (proj2 (proj2 (readiness_loops 30 1000 never_ready))))
             ([], 0%Z)).
    reflexivity.
Defined.

(* ================================================================== *)
(** * Further properties *)

(** ** White space around names and filters *)

Lemma trimStart_length (s : jsstring) :
  (List.length (trimStart s) <= List.length s)%nat.
Proof.
  induction s as [|c s IH]; simpl; [apply le_n|].
  destruct (isWhiteSpace c); simpl; lia.
Qed.

Lemma trimStart_fixed_head (c : N) (s : jsstring) :
  trimStart (c :: s) = c :: s -> isWhiteSpace c = false.
Proof.
  simpl. destruct (isWhiteSpace c); [|reflexivity].
  intros E. pose proof (trimStart_length s) as L.
  rewrite E in L. simpl in L. lia.
Qed.

Lemma trimStart_idem (s : jsstring) : trimStart (trimStart s) = trimStart s.
Proof.
  induction s as [|c s IH]; simpl; [reflexivity|].
  destruct (isWhiteSpace c) eqn:E; [exact IH|].
  simpl. rewrite E. reflexivity.
Qed.

Lemma trimStart_white_app (w s : jsstring) :
  Forall (fun c => isWhiteSpace c = true) w ->
  trimStart (w ++ s) = trimStart s.
Proof.
  induction 1 as [|c w Hc _ IH]; simpl; [reflexivity|].
  rewrite Hc. exact IH.
Qed.

Lemma trimStart_app (s t : jsstring) :
  trimStart s <> [] -> trimStart (s ++ t) = trimStart s ++ t.
Proof.
  induction s as [|c s IH]; simpl; [congruence|].
  destruct (isWhiteSpace c); [exact IH | reflexivity].
Qed.

Lemma trimEnd_app_white (s w : jsstring) :
  Forall (fun c => isWhiteSpace c = true) w ->
  trimEnd (s ++ w) = trimEnd s.
Proof.
  intros H. unfold trimEnd. rewrite rev_app_distr.
  rewrite trimStart_white_app by (apply Forall_rev; exact H). reflexivity.
Qed.

Lemma trimEnd_idem (s : jsstring) : trimEnd (trimEnd s) = trimEnd s.
Proof.
  unfold trimEnd. rewrite rev_involutive, trimStart_idem. reflexivity.
Qed.

(** [trimEnd] cuts white space off the end, and nothing else. *)
Lemma trimEnd_prefix (s : jsstring) :
  exists w, s = trimEnd s ++ w /\ Forall (fun c => isWhiteSpace c = true) w.
Proof.
  destruct (trimStart_suffix (rev s)) as (w & E & F).
  exists (rev w). split; [|apply Forall_rev; exact F].
  unfold trimEnd. rewrite <- rev_app_distr, <- E, rev_involutive.
  reflexivity.
Qed.

Lemma trimStart_trimEnd (s : jsstring) :
  trimStart s = s -> trimStart (trimEnd s) = trimEnd s.
Proof.
  intros H. destruct (trimEnd_prefix s) as (w & E & _).
  destruct (trimEnd s) as [|c u] eqn:T; [reflexivity|].
  rewrite E in H. simpl in H. apply trimStart_fixed_head in H.
  simpl. rewrite H. reflexivity.
Qed.

(** What [trim] yields, it leaves as it is. *)
Lemma trim_idem (s : jsstring) : trim (trim s) = trim s.
Proof.
  unfold trim.
  rewrite (trimStart_trimEnd (trimStart_idem s)). apply trimEnd_idem.
Qed.

(** White space before and after does not count for [trim]. *)
Lemma trim_padding (w1 s w2 : jsstring) :
  Forall (fun c => isWhiteSpace c = true) w1 ->
  Forall (fun c => isWhiteSpace c = true) w2 ->
  trim (w1 ++ s ++ w2) = trim s.
Proof.
  intros H1 H2. unfold trim. rewrite (trimStart_white_app _ H1).
  destruct (trimStart s) as [|c u] eqn:E.
  - apply trimStart_blank in E.
    assert (B : trimStart (s ++ w2) = []).
    { apply trimStart_blank. apply Forall_app. auto. }
    rewrite B. reflexivity.
  - rewrite trimStart_app by congruence. rewrite E.
    apply trimEnd_app_white. exact H2.
Qed.

(** A string that [trimEnd] leaves as it is does not end in white
    space. *)
Lemma trimEnd_fixed_last (s : jsstring) (c : N) :
  trimEnd (s ++ [c]) = s ++ [c] -> isWhiteSpace c = false.
Proof.
  unfold trimEnd. rewrite rev_app_distr. simpl rev at 2. simpl app at 1.
  intros E. apply (f_equal (@rev N)) in E.
  rewrite rev_involutive, rev_app_distr in E. simpl in E.
  exact (trimStart_fixed_head E).
Qed.

Lemma trimmed_trimEnd (s : jsstring) : trimmed s -> trimEnd s = s.
Proof.
  unfold trimmed, trim. intros H.
  rewrite <- H at 1. rewrite trimEnd_idem. exact H.
Qed.

(** A trimmed value is stored whole or not at all. *)
Lemma varchar_trimmed (n : nat) (s s' : jsstring) :
  trimmed s -> varchar n s = ret s' -> s' = s.
Proof.
  unfold varchar, ret, throw. intros Hs.
  destruct (characters s <=? n)%nat eqn:E.
  - intros Q; inversion Q; reflexivity.
  - destruct (forallb (N.eqb 32) (drop_characters n s)) eqn:F; [|discriminate].
    exfalso. apply Nat.leb_gt in E.
    assert (K : drop_characters n s <> []).
    { intros Q. apply drop_characters_nil in Q. lia. }
    destruct (exists_last K) as (k & z & Ek).
    rewrite Ek, forallb_app in F. cbn [forallb] in F.
    apply andb_true_iff in F as [_ F]. rewrite andb_true_r in F.
    apply N.eqb_eq in F. subst z.
    apply trimmed_trimEnd in Hs.
    rewrite <- (take_drop_characters n s), Ek, app_assoc in Hs.
    apply trimEnd_fixed_last in Hs. discriminate Hs.
Qed.

Lemma count_occ_at_part (s : jsstring) :
  Forall (fun c => notSpaceNorAt c = true) s ->
  count_occ N.eq_dec s 64%N = 0%nat.
Proof.
  intros H. apply count_occ_not_In. intros Q.
  rewrite Forall_forall in H. specialize (H _ Q). discriminate H.
Qed.

(** X1.  [isValidEmail] accepts exactly the addresses of the shape
    [local@domain.tld]; an address that it accepts has one [@] and no
    more, no white space, a dot somewhere after the [@], and at least
    five code units. *)
Theorem isValidEmail_accepted (email : jsstring) :
  (isValidEmail email = true <-> emailShape email)
  /\ (isValidEmail email = true ->
      count_occ N.eq_dec email 64%N = 1%nat
      /\ noWhiteSpace email
      /\ (5 <= List.length email)%nat
      /\ exists l rest, email = l ++ 64%N :: rest /\ In 46%N rest).
Proof.
  split; [apply isValidEmail_shape|]. intros H.
  apply isValidEmail_shape in H.
  split; [|split; [apply emailShape_noWhiteSpace; exact H|]].
  - destruct H as (l & d & t & -> & [_ Hl] & [_ Hd] & [_ Ht]).
    rewrite !count_occ_app.
    rewrite (count_occ_at_part Hl), (count_occ_at_part Hd),
            (count_occ_at_part Ht).
    reflexivity.
  - destruct H as (l & d & t & -> & [Nl _] & [Nd _] & [Nt _]). split.
    + rewrite !length_app. simpl.
      destruct l; [congruence|]. destruct d; [congruence|].
      destruct t; [congruence|]. simpl. lia.
    + exists l, (d ++ [46%N] ++ t). split; [reflexivity|].
      apply in_or_app. right. left. reflexivity.
Qed.

Lemma isValidEmail_accepted_witness :
  count_occ N.eq_dec (js "ana.jovanovic@example.com") 64%N = 1%nat
  /\ noWhiteSpace (js "ana.jovanovic@example.com")
  /\ (5 <= List.length (js "ana.jovanovic@example.com"))%nat
  /\ exists l rest,
       js "ana.jovanovic@example.com" = l ++ 64%N :: rest /\ In 46%N rest.
Proof.
  apply (proj2 (isValidEmail_accepted (js "ana.jovanovic@example.com"))).
  vm_compute. reflexivity.
Defined.

Section Padding.

Variable toLowerCase : jsstring -> jsstring.
Variable pgLower : N -> N.

(** X2.  White space before and after a name that is not empty makes no
    difference to [createUser]: the answer and the pool are those of the
    request with the bare name. *)
Theorem createUser_ignores_name_padding fault name email w1 w2 p :
  name <> [] ->
  Forall (fun c => isWhiteSpace c = true) w1 ->
  Forall (fun c => isWhiteSpace c = true) w2 ->
  createUser toLowerCase fault (mkCreateUserRequest (w1 ++ name ++ w2) email) p
  = createUser toLowerCase fault (mkCreateUserRequest name email) p.
Proof.
  intros Hn H1 H2. unfold createUser. cbn [req_name req_email].
  assert (Hp : w1 ++ name ++ w2 <> []).
  { intros Q. apply app_eq_nil in Q as [_ Q].
    apply app_eq_nil in Q as [Q _]. contradiction. }
  rewrite (falsy_string_false Hp), (falsy_string_false Hn).
  rewrite (trim_padding _ H1 H2). reflexivity.
Qed.

(** X3.  White space before and after the filter makes no difference to
    [getUsers]: the answer and the pool are those of the request with the
    bare filter. *)
Theorem getUsers_ignores_filter_padding fault filter w1 w2 p :
  Forall (fun c => isWhiteSpace c = true) w1 ->
  Forall (fun c => isWhiteSpace c = true) w2 ->
  getUsers pgLower fault (mkGetUsersRequest (w1 ++ filter ++ w2)) p
  = getUsers pgLower fault (mkGetUsersRequest filter) p.
Proof.
  intros H1 H2. unfold getUsers. cbn [req_name_filter].
  rewrite (trim_padding _ H1 H2).
  destruct (trim filter) as [|c t] eqn:E.
  - simpl List.length. rewrite !andb_false_r. reflexivity.
  - assert (Hf : filter <> []) by (intros Q; rewrite Q in E; discriminate).
    assert (Hp : w1 ++ filter ++ w2 <> []).
    { intros Q. apply app_eq_nil in Q as [_ Q].
      apply app_eq_nil in Q as [Q _]. contradiction. }
    rewrite (falsy_string_false Hp), (falsy_string_false Hf). reflexivity.
Qed.

Lemma names_insertUser (name email : jsstring) (p : Pool) :
  name <> [] -> trimmed name ->
  Forall (fun r => user_name r <> [] /\ trimmed (user_name r)) (users p) ->
  Forall (fun r => user_name r <> [] /\ trimmed (user_name r))
         (users (snd (insertUser name email p))).
Proof.
  intros Hn Ht Hp.
  destruct (insertUser_spec name email p) as [_ H].
  destruct (fst (insertUser name email p)) as [rows|e].
  - destruct H as (n & e & Vn & _ & _ & _ & _ & _ & Eu & _).
    rewrite Eu. apply Forall_app; split; [exact Hp|].
    constructor; [|constructor]. simpl.
    rewrite (varchar_trimmed _ Ht Vn). auto.
  - destruct H as [Eu _]. rewrite Eu. exact Hp.
Qed.

Lemma names_serve (c : Call) (p : Pool) :
  Forall (fun r => user_name r <> [] /\ trimmed (user_name r)) (users p) ->
  Forall (fun r => user_name r <> [] /\ trimmed (user_name r))
         (users (serve toLowerCase pgLower c p)).
Proof.
  intros H. destruct c as [fault request|fault request|fault request]; simpl.
  - destruct (createUser_pool toLowerCase fault request p) as [->|[V ->]];
      [exact H|].
    unfold query. destruct fault as [[e|e]|]; simpl; [exact H| |];
      (apply names_insertUser; [apply V | apply trim_idem | exact H]).
  - destruct (getUsers_pool pgLower fault request p) as [-> _]. exact H.
  - destruct (deleteUser_pool fault request p) as [->| ->]; [exact H|].
    unfold query. destruct fault as [[e|e]|]; simpl; [exact H| |];
      (apply Forall_filter_keep; exact H).
Qed.

(** X4.  In every pool that the service reaches, each name is what [trim]
    made of the name of a request: it is not empty, it neither starts nor
    ends with white space, it has at most 255 characters (a surrogate
    pair is one character), and the character U+0000 is not in it. *)
Theorem stored_names_trimmed (p : Pool) :
  reachable toLowerCase pgLower p ->
  forall r, In r (users p) ->
    user_name r <> [] /\ trim (user_name r) = user_name r
    /\ fits (user_name r) /\ textual (user_name r).
Proof.
  intros H.
  assert (N : Forall (fun r => user_name r <> [] /\ trimmed (user_name r))
                     (users p)).
  { induction H as [|p _ IH|p c _ IH].
    - constructor.
    - exact IH.
    - apply names_serve. exact IH. }
  intros r Hr. rewrite Forall_forall in N. destruct (N r Hr) as [N1 N2].
  pose proof (columns_fit (reachable_consistent H)) as F.
  rewrite Forall_forall in F. destruct (F r Hr) as [F1 _].
  pose proof (columns_text (reachable_consistent H)) as T.
  rewrite Forall_forall in T. destruct (T r Hr) as [T1 _].
  auto.
Qed.

End Padding.

Lemma createUser_ignores_name_padding_witness :
  createUser toLowerCaseLatin None marko (initializeDatabase None)
  = createUser toLowerCaseLatin None
      (mkCreateUserRequest (js "Marko Petrovic")
                           (js "Marko.Petrovic@Example.com"))
      (initializeDatabase None).
Proof.
  apply (@createUser_ignores_name_padding toLowerCaseLatin None
           (js "Marko Petrovic") (js "Marko.Petrovic@Example.com")
           (js " ") (js " ") (initializeDatabase None)).
  - discriminate.
  - repeat constructor.
  - repeat constructor.
Defined.

Lemma getUsers_ignores_filter_padding_witness :
  getUsers toLowerCaseLatinUnit None (mkGetUsersRequest (js "  nik ")) pool_demo
  = getUsers toLowerCaseLatinUnit None (mkGetUsersRequest (js "nik")) pool_demo.
Proof.
  apply (@getUsers_ignores_filter_padding toLowerCaseLatinUnit None
           (js "nik") (js "  ") (js " ") pool_demo).
  - repeat constructor.
  - repeat constructor.
Defined.

Lemma stored_names_trimmed_witness :
  user_name marko_row <> [] /\ trim (user_name marko_row) = user_name marko_row
  /\ fits (user_name marko_row) /\ textual (user_name marko_row).
Proof.
  apply (@stored_names_trimmed toLowerCaseLatin toLowerCaseLatinUnit
           pool_marko pool_marko_reachable marko_row).
  rewrite pool_marko_users. left. reflexivity.
Defined.

(* ------------------------------------------------------------------ *)
(** ** What an answer of [createUser] tells *)

(** Values are refused for what they are, not as duplicates. *)
Lemma insert_values_code (name email : jsstring) (e : exn) :
  insert_values name email = inr e -> code_is e "23505" = false.
Proof.
  unfold insert_values, text_parameter, varchar, bind, ret, throw.
  destruct (existsb (N.eqb 0) name);
    [intros Q; inversion Q; reflexivity|].
  destruct (existsb (N.eqb 0) email);
    [intros Q; inversion Q; reflexivity|].
  destruct (characters name <=? 255)%nat;
    [|destruct (forallb (N.eqb 32) (drop_characters 255 name));
      [|intros Q; inversion Q; reflexivity]];
    (destruct (characters email <=? 255)%nat;
     [discriminate|];
     destruct (forallb (N.eqb 32) (drop_characters 255 email));
     [discriminate | intros Q; inversion Q; reflexivity]).
Qed.

(** Why an insertion is refused as a duplicate. *)
Lemma insertUser_duplicate (name email : jsstring) (p : Pool) (e : exn) :
  fst (insertUser name email p) = throw e ->
  code_is e "23505" = true ->
  exists n em,
    varchar 255 name = ret n /\ varchar 255 email = ret em
    /\ (has_id (users_id_seq p + 1) (users p) = true
        \/ has_email em (users p) = true).
Proof.
  unfold insertUser, throw.
  destruct (insert_values name email) as [[n em]|x] eqn:V.
  2:{ simpl. intros Q; inversion Q; subst.
      rewrite (insert_values_code _ _ V). discriminate. }
  apply insert_values_ret in V as (_ & _ & Vn & Ve).
  unfold nextval.
  destruct (users_id_seq p <? serial_max)%Z; simpl.
  2:{ intros Q; inversion Q; subst. discriminate. }
  unfold check_unique; simpl.
  destruct (has_id (users_id_seq p + 1) (users p)) eqn:Hi; simpl.
  { intros _ _. exists n, em. auto. }
  destruct (has_email em (users p)) eqn:He; simpl.
  { intros _ _. exists n, em. auto. }
  discriminate.
Qed.

Lemma has_id_in (id : Z) (rows : list User) :
  has_id id rows = true -> In id (map user_id rows).
Proof.
  intros H.
  destruct (in_dec Z.eq_dec id (map user_id rows)) as [Q|Q]; [exact Q|].
  apply has_id_false in Q. congruence.
Qed.

Lemma validRequest_decide (request : CreateUserRequest) :
  validRequest request \/ ~ validRequest request.
Proof.
  destruct (trim (req_name request)) as [|c t] eqn:Et.
  - right. intros V. apply validRequest_iff in V as [Q _]. congruence.
  - destruct (isValidEmail (req_email request)) eqn:Ev.
    + left. apply validRequest_iff. split; [congruence|].
      apply isValidEmail_shape. exact Ev.
    + right. intros V. apply validRequest_iff in V as [_ Q].
      apply isValidEmail_shape in Q. congruence.
Qed.

Section Answers.

Variable toLowerCase : jsstring -> jsstring.

(** Any answer but [INVALID_ARGUMENT] comes from a valid request. *)
Lemma createUser_answer_valid fault request p :
  (forall message,
      fst (createUser toLowerCase fault request p)
      <> Fail INVALID_ARGUMENT message) ->
  validRequest request.
Proof.
  intros H. destruct (validRequest_decide request) as [V|V]; [exact V|].
  destruct (createUser_invalid toLowerCase V) as (m & E).
  exfalso. apply (H m). rewrite E. reflexivity.
Qed.

(** The answer of [createUser] to a valid request, by the result of the
    insertion. *)
Lemma createUser_valid_answer request p :
  validRequest request ->
  let q := record (InsertUser (trim (req_name request))
                              (toLowerCase (req_email request))) p in
  let result := insertUser (trim (req_name request))
                           (toLowerCase (req_email request)) q in
  snd (createUser toLowerCase None request p) = snd result
  /\ fst (createUser toLowerCase None request p)
     = match fst result with
       | inl rows =>
           match rows with
           | row :: _ =>
               Reply (mkCreateUserResponse
                        (mkUser (user_id row) (user_name row)
                                (user_email row)))
           | [] => Fail INTERNAL "Failed to create user"
           end
       | inr e =>
           if code_is e "23505"
           then Fail ALREADY_EXISTS "User with this email already exists"
           else Fail INTERNAL "Failed to create user"
       end.
Proof.
  intros V q result. rewrite (createUser_valid toLowerCase None p V).
  unfold query. fold q. fold result.
  destruct result as [[rows|e] p1]; simpl; [|auto].
  destruct rows; simpl; auto.
Qed.

Lemma createUser_fault_answer e request p :
  validRequest request ->
  createUser toLowerCase (Some (Before e)) request p
  = (if code_is e "23505"
     then Fail ALREADY_EXISTS "User with this email already exists"
     else Fail INTERNAL "Failed to create user",
     record (InsertUser (trim (req_name request))
                        (toLowerCase (req_email request))) p).
Proof.
  intros V. rewrite (createUser_valid toLowerCase (Some (Before e)) p V).
  reflexivity.
Qed.

(** When the connection fails after the insertion, the answer is that of
    the failure, and the pool is that of the call left alone. *)
Lemma createUser_after_answer e request p :
  validRequest request ->
  createUser toLowerCase (Some (After e)) request p
  = (if code_is e "23505"
     then Fail ALREADY_EXISTS "User with this email already exists"
     else Fail INTERNAL "Failed to create user",
     snd (createUser toLowerCase None request p)).
Proof.
  intros V. rewrite (createUser_valid toLowerCase (Some (After e)) p V).
  rewrite (createUser_valid toLowerCase None p V).
  unfold query. destruct (insertUser _ _ _) as [result q]. reflexivity.
Qed.

(** What a reply of [createUser] implies. *)
Lemma createUser_reply_inv fault request p response :
  fst (createUser toLowerCase fault request p) = Reply response ->
  validRequest request /\ fault = None
  /\ exists n e,
       varchar 255 (trim (req_name request)) = ret n
       /\ varchar 255 (toLowerCase (req_email request)) = ret e
       /\ resp_user response = mkUser (users_id_seq p + 1) n e
       /\ users (snd (createUser toLowerCase fault request p))
          = users p ++ [resp_user response]
       /\ users_id_seq (snd (createUser toLowerCase fault request p))
          = (users_id_seq p + 1)%Z
       /\ has_email e (users p) = false.
Proof.
  intros H.
  assert (V : validRequest request).
  { apply (@createUser_answer_valid fault request p). intros m. rewrite H.
    discriminate. }
  split; [exact V|].
  destruct fault as [[e|e]|].
  { rewrite (createUser_fault_answer e p V) in H. simpl in H.
    destruct (code_is e "23505"); discriminate. }
  { rewrite (createUser_after_answer e p V) in H. simpl in H.
    destruct (code_is e "23505"); discriminate. }
  split; [reflexivity|].
  destruct (createUser_valid_answer p V) as [Es Ef].
  rewrite Es. rewrite Ef in H. clear Es Ef.
  pose proof (insertUser_spec (trim (req_name request))
                (toLowerCase (req_email request))
                (record (InsertUser (trim (req_name request))
                                    (toLowerCase (req_email request))) p))
    as [_ S].
  destruct (fst (insertUser _ _ _)) as [rows|e].
  - destruct S as (n & e & Vn & Ve & _ & _ & He & -> & Eu & Es).
    inversion H; subst response. simpl in *.
    exists n, e. rewrite Eu, Es. repeat split; auto.
  - destruct (code_is e "23505"); discriminate.
Qed.

(** Only text is in a reply. *)
Lemma createUser_reply_textual fault request p response :
  fst (createUser toLowerCase fault request p) = Reply response ->
  textual (trim (req_name request))
  /\ textual (toLowerCase (req_email request)).
Proof.
  intros H.
  destruct (createUser_reply_inv _ _ _ H) as (V & -> & _).
  destruct (createUser_valid_answer p V) as [_ Ef].
  rewrite Ef in H. clear Ef.
  destruct (fst (insertUser _ _ _)) as [rows|e] eqn:R.
  - exact (insertUser_textual _ _ _ R).
  - destruct (code_is e "23505"); discriminate.
Qed.

Hypothesis toLowerCase_noWhiteSpace :
  forall s, noWhiteSpace s -> noWhiteSpace (toLowerCase s).

(** X5.  Whenever [createUser] replies, the request was valid, the record
    of the reply has the next value of the sequence, the trimmed name and
    the address in lower case, whole and not cut to the width of a column,
    that address was not in the table, and the record is the one row that
    the table has gained.  The name and the address are text without the
    character U+0000, of at most 255 characters each (a surrogate pair is
    one character). *)
Theorem createUser_reply_exact fault request p response :
  fst (createUser toLowerCase fault request p) = Reply response ->
  validRequest request
  /\ resp_user response
     = mkUser (users_id_seq p + 1) (trim (req_name request))
              (toLowerCase (req_email request))
  /\ fits (trim (req_name request))
  /\ fits (toLowerCase (req_email request))
  /\ ~ In (toLowerCase (req_email request)) (map user_email (users p))
  /\ users (snd (createUser toLowerCase fault request p))
     = users p ++ [resp_user response]
  /\ textual (trim (req_name request))
  /\ textual (toLowerCase (req_email request)).
Proof.
  intros H.
  destruct (createUser_reply_textual _ _ _ H) as [Tn Te].
  destruct (createUser_reply_inv _ _ _ H)
    as (V & _ & n & e & Vn & Ve & Er & Eu & _ & He).
  pose proof (varchar_ret_length _ _ Vn) as Ln.
  pose proof (varchar_ret_length _ _ Ve) as Le.
  assert (W : noWhiteSpace (toLowerCase (req_email request))).
  { apply toLowerCase_noWhiteSpace, emailShape_noWhiteSpace, V. }
  rewrite (varchar_trimmed _ (trim_idem (req_name request)) Vn) in *.
  rewrite (varchar_noWhiteSpace _ W Ve) in *.
  apply has_email_false in He.
  repeat split; try assumption; apply V.
Qed.

(** X6.  With the statement run by the store on a table that satisfies
    its constraints, [createUser] answers [ALREADY_EXISTS] only if a row
    has the address of the request in lower case; the table stays as it
    was. *)
Theorem createUser_already_exists_exact request p message :
  consistent p ->
  fst (createUser toLowerCase None request p)
  = Fail ALREADY_EXISTS message ->
  In (toLowerCase (req_email request)) (map user_email (users p))
  /\ users (snd (createUser toLowerCase None request p)) = users p.
Proof.
  intros Hc H.
  assert (V : validRequest request).
  { apply (@createUser_answer_valid None request p). intros m. rewrite H.
    discriminate. }
  destruct (createUser_valid_answer p V) as [Es Ef].
  rewrite Es. rewrite Ef in H. clear Es Ef.
  pose proof (insertUser_spec (trim (req_name request))
                (toLowerCase (req_email request))
                (record (InsertUser (trim (req_name request))
                                    (toLowerCase (req_email request))) p))
    as [_ S].
  pose proof (@insertUser_duplicate (trim (req_name request))
                (toLowerCase (req_email request))
                (record (InsertUser (trim (req_name request))
                                    (toLowerCase (req_email request))) p))
    as D.
  destruct (fst (insertUser _ _ _)) as [rows|e].
  - destruct rows; discriminate.
  - destruct (code_is e "23505") eqn:C; [|discriminate].
    destruct S as [Eu _]. split; [|exact Eu].
    destruct (D e eq_refl C) as (n & em & _ & Ve & [Hi|He]).
    + exfalso. apply has_id_in in Hi. simpl in Hi.
      apply in_map_iff in Hi as (r & Er & Hr).
      pose proof (ids_issued Hc) as F. rewrite Forall_forall in F.
      specialize (F r Hr). lia.
    + assert (W : noWhiteSpace (toLowerCase (req_email request))).
      { apply toLowerCase_noWhiteSpace, emailShape_noWhiteSpace, V. }
      rewrite (varchar_noWhiteSpace _ W Ve) in He.
      apply has_email_true. exact He.
Qed.

(** X22.  What the store does not take is answered with [INTERNAL]: for
    a valid request whose trimmed name or whose address in lower case has
    the character U+0000 or more than 255 characters, with the connection
    holding, [createUser] answers [INTERNAL] "Failed to create user"; the
    statement was sent, and rows and sequence are as they were. *)
Theorem createUser_refused_values request p :
  validRequest request ->
  In 0%N (trim (req_name request))
  \/ In 0%N (toLowerCase (req_email request))
  \/ ~ fits (trim (req_name request))
  \/ ~ fits (toLowerCase (req_email request)) ->
  createUser toLowerCase None request p
  = (Fail INTERNAL "Failed to create user",
     record (InsertUser (trim (req_name request))
                        (toLowerCase (req_email request))) p).
Proof.
  intros V H.
  rewrite (createUser_valid toLowerCase None p V). unfold query.
  destruct (insert_values (trim (req_name request))
              (toLowerCase (req_email request))) as [[n e]|x] eqn:I.
  - exfalso. apply insert_values_ret in I as (Tn & Te & Vn & Ve).
    assert (W : noWhiteSpace (toLowerCase (req_email request))).
    { apply toLowerCase_noWhiteSpace, emailShape_noWhiteSpace, V. }
    pose proof (varchar_ret_length _ _ Vn) as Ln.
    pose proof (varchar_ret_length _ _ Ve) as Le.
    rewrite (varchar_trimmed _ (trim_idem (req_name request)) Vn) in Ln.
    rewrite (varchar_noWhiteSpace _ W Ve) in Le.
    unfold fits, textual in *. tauto.
  - rewrite (insertUser_refused _ _ _ I). cbn [bind throw try_catch].
    rewrite (insert_values_code _ _ I). reflexivity.
Qed.

End Answers.

Lemma createUser_reply_exact_witness :
  validRequest marko
  /\ marko_row
     = mkUser (users_id_seq (initializeDatabase None) + 1)
              (trim (req_name marko)) (toLowerCaseLatin (req_email marko))
  /\ fits (trim (req_name marko))
  /\ fits (toLowerCaseLatin (req_email marko))
  /\ ~ In (toLowerCaseLatin (req_email marko))
          (map user_email (users (initializeDatabase None)))
  /\ users (snd (createUser toLowerCaseLatin None marko
                   (initializeDatabase None)))
     = users (initializeDatabase None) ++ [marko_row]
  /\ textual (trim (req_name marko))
  /\ textual (toLowerCaseLatin (req_email marko)).
Proof.
  apply (@createUser_reply_exact toLowerCaseLatin
           toLowerCaseLatin_noWhiteSpace None marko
           (initializeDatabase None) (mkCreateUserResponse marko_row)).
  vm_compute. reflexivity.
Defined.

Lemma createUser_already_exists_exact_witness :
  In (toLowerCaseLatin (req_email marko_again))
     (map user_email (users pool_marko))
  /\ users (snd (createUser toLowerCaseLatin None marko_again pool_marko))
     = users pool_marko.
Proof.
  apply (@createUser_already_exists_exact toLowerCaseLatin
           toLowerCaseLatin_noWhiteSpace marko_again pool_marko
           "User with this email already exists").
  - exact (reachable_consistent pool_marko_reachable).
  - vm_compute. reflexivity.
Defined.

Lemma createUser_refused_values_witness :
  createUser toLowerCaseLatin None ana_long (initializeDatabase None)
  = (Fail INTERNAL "Failed to create user",
     record (InsertUser (repeat 97%N 256) (js "ana.jovanovic@example.com"))
            (initializeDatabase None))
  /\ createUser toLowerCaseLatin None
       (mkCreateUserRequest (0%N :: js "A") (js "ana.jovanovic@example.com"))
       (initializeDatabase None)
     = (Fail INTERNAL "Failed to create user",
        record (InsertUser (0%N :: js "A") (js "ana.jovanovic@example.com"))
               (initializeDatabase None)).
Proof.
  split.
  - apply (@createUser_refused_values toLowerCaseLatin
             toLowerCaseLatin_noWhiteSpace ana_long
             (initializeDatabase None)).
    + exact ana_long_valid.
    + right. right. left. unfold fits. vm_compute. lia.
  - apply (@createUser_refused_values toLowerCaseLatin
             toLowerCaseLatin_noWhiteSpace
             (mkCreateUserRequest (0%N :: js "A")
                                  (js "ana.jovanovic@example.com"))
             (initializeDatabase None)).
    + apply validRequest_iff. split; [vm_compute; discriminate|].
      apply isValidEmail_shape. vm_compute. reflexivity.
    + left. vm_compute. auto.
Defined.

(* ------------------------------------------------------------------ *)
(** ** Failures, identifiers and round trips *)

Section Composition.

Variable toLowerCase : jsstring -> jsstring.
Variable pgLower : N -> N.

(** X7.  A call of [createUser] that ends in an error of any kind leaves
    the rows of the table as they were, unless the connection failed
    after the store had run the insertion.  In that case the answer of a
    valid request is an error ([INTERNAL], or [ALREADY_EXISTS] by the code
    of the failure), and the pool is the one that the same call leaves
    when the connection holds: a row that the call would have added is in
    the table. *)
Theorem createUser_failure_keeps_rows fault request p code message :
  ((forall e, fault <> Some (After e)) ->
   fst (createUser toLowerCase fault request p) = Fail code message ->
   users (snd (createUser toLowerCase fault request p)) = users p)
  /\ (forall e,
        fault = Some (After e) ->
        validRequest request ->
        fst (createUser toLowerCase fault request p)
        = (if code_is e "23505"
           then Fail ALREADY_EXISTS "User with this email already exists"
           else Fail INTERNAL "Failed to create user")
        /\ snd (createUser toLowerCase fault request p)
           = snd (createUser toLowerCase None request p)).
Proof.
  split.
  2:{ intros e -> V. rewrite (createUser_after_answer toLowerCase e p V).
      split; reflexivity. }
  intros Hf H. destruct (validRequest_decide request) as [V|V].
  - destruct fault as [[e|e]|].
    + rewrite (createUser_fault_answer toLowerCase e p V). reflexivity.
    + exfalso. apply (Hf e). reflexivity.
    + destruct (createUser_valid_answer toLowerCase p V) as [Es Ef].
      rewrite Es. rewrite Ef in H. clear Es Ef.
      pose proof (insertUser_spec (trim (req_name request))
                    (toLowerCase (req_email request))
                    (record (InsertUser (trim (req_name request))
                                        (toLowerCase (req_email request))) p))
        as [_ S].
      destruct (fst (insertUser _ _ _)) as [rows|e].
      * destruct S as (n & e & _ & _ & _ & _ & _ & -> & _). discriminate.
      * destruct S as [Eu _]. exact Eu.
  - destruct (createUser_invalid toLowerCase V) as (m & E).
    rewrite E. reflexivity.
Qed.

Lemma seq_query {A : Type} fault st (run : Pool -> fallible A * Pool) p :
  (forall q, (users_id_seq q <= users_id_seq (snd (run q)))%Z) ->
  (users_id_seq p <= users_id_seq (snd (query fault st run p)))%Z.
Proof.
  intros H. unfold query. destruct fault as [[e|e]|]; simpl; [lia| |];
    apply (H (record st p)).
Qed.

Lemma seq_insertUser (name email : jsstring) (p : Pool) :
  (users_id_seq p <= users_id_seq (snd (insertUser name email p)))%Z.
Proof.
  destruct (insertUser_spec name email p) as [_ H].
  destruct (fst (insertUser name email p)) as [rows|e].
  - destruct H as (n & e & _ & _ & _ & _ & _ & _ & _ & ->). lia.
  - destruct H as [_ [->|[_ ->]]]; lia.
Qed.

(** No call makes the sequence go back. *)
Lemma seq_serve (c : Call) (p : Pool) :
  (users_id_seq p <= users_id_seq (serve toLowerCase pgLower c p))%Z.
Proof.
  destruct c as [fault request|fault request|fault request]; simpl.
  - destruct (createUser_pool toLowerCase fault request p) as [->|[_ ->]];
      [lia|].
    apply seq_query. intros q. apply seq_insertUser.
  - destruct (getUsers_pool pgLower fault request p) as [_ ->]. lia.
  - destruct (deleteUser_pool fault request p) as [->| ->]; [lia|].
    apply seq_query. intros q. simpl. lia.
Qed.

Lemma run_invariant (calls : list Call) :
  forall p,
    consistent p ->
    consistent (run toLowerCase pgLower calls p)
    /\ (users_id_seq p
        <= users_id_seq (run toLowerCase pgLower calls p))%Z.
Proof.
  induction calls as [|c calls IH]; intros p Hc; simpl.
  - split; [exact Hc | lia].
  - destruct (IH (serve toLowerCase pgLower c p)
                 (consistent_serve toLowerCase pgLower c Hc)) as [H1 H2].
    split; [exact H1|].
    pose proof (seq_serve c p). unfold run in *. lia.
Qed.

(** X8.  An identifier is never given twice: after any run of calls on a
    table that satisfies its constraints, the record of a reply of
    [createUser] has an identifier above the value that the sequence had
    before the run, and so above that of every row of then, deleted since
    or not. *)
Theorem ids_never_reused p calls fault request response :
  consistent p ->
  fst (createUser toLowerCase fault request
         (run toLowerCase pgLower calls p)) = Reply response ->
  (users_id_seq p < user_id (resp_user response))%Z
  /\ forall r, In r (users p) ->
       (user_id r < user_id (resp_user response))%Z.
Proof.
  intros Hc H.
  destruct (run_invariant calls Hc) as [_ Hs].
  destruct (createUser_reply_inv _ _ _ _ H)
    as (_ & _ & n & e & _ & _ & Er & _).
  rewrite Er. simpl.
  split; [lia|]. intros r Hr.
  pose proof (ids_issued Hc) as F. rewrite Forall_forall in F.
  specialize (F r Hr). lia.
Qed.

End Composition.

Lemma createUser_failure_keeps_rows_witness :
  let lost := mkExn (Some "ECONNRESET"%string) "read ECONNRESET" in
  users (snd (createUser toLowerCaseLatin None marko_long pool_marko))
  = users pool_marko
  /\ fst (createUser toLowerCaseLatin (Some (After lost)) marko
            (initializeDatabase None))
     = Fail INTERNAL "Failed to create user"
  /\ users (snd (createUser toLowerCaseLatin (Some (After lost)) marko
                   (initializeDatabase None)))
     = [marko_row].
Proof.
  intros lost. split.
  - apply (proj1 (@createUser_failure_keeps_rows toLowerCaseLatin None
                    marko_long pool_marko INTERNAL "Failed to create user")).
    + discriminate.
    + vm_compute. reflexivity.
  - destruct (proj2 (@createUser_failure_keeps_rows toLowerCaseLatin
                       (Some (After lost)) marko (initializeDatabase None)
                       INTERNAL "Failed to create user")
                    lost eq_refl marko_valid) as [A B].
    split; [exact A|]. rewrite B. vm_compute. reflexivity.
Defined.

Lemma ids_never_reused_witness :
  (users_id_seq pool_marko < 3)%Z
  /\ forall r, In r (users pool_marko) -> (user_id r < 3)%Z.
Proof.
  apply (@ids_never_reused toLowerCaseLatin toLowerCaseLatinUnit pool_marko
           [CallCreateUser None marko_again;
            CallDeleteUser None (mkDeleteUserRequest 1)]
           None marko
           (mkCreateUserResponse
              (mkUser 3 (js "Marko Petrovic")
                      (js "marko.petrovic@example.com")))).
  - exact (reachable_consistent pool_marko_reachable).
  - vm_compute. reflexivity.
Defined.

(* ------------------------------------------------------------------ *)
(** ** Listing after creation and deletion *)

Lemma insert_by_id_first (x : User) (rows : list User) :
  Forall (by_id x) rows -> insert_by_id x rows = x :: rows.
Proof.
  intros H. destruct rows as [|y rows]; [reflexivity|].
  inversion H as [|? ? Hy _]; subst. simpl.
  unfold by_id in Hy. apply Z.leb_le in Hy. rewrite Hy. reflexivity.
Qed.

Lemma insert_by_id_snoc (x u : User) (rows : list User) :
  (user_id x <= user_id u)%Z ->
  insert_by_id x (rows ++ [u]) = insert_by_id x rows ++ [u].
Proof.
  intros H. induction rows as [|y rows IH]; simpl.
  - apply Z.leb_le in H. rewrite H. reflexivity.
  - destruct (user_id x <=? user_id y)%Z; [reflexivity|].
    rewrite IH. reflexivity.
Qed.

(** A row with the largest [id] comes last in the listing. *)
Lemma order_by_id_snoc (u : User) (rows : list User) :
  Forall (fun r => (user_id r <= user_id u)%Z) rows ->
  order_by_id (rows ++ [u]) = order_by_id rows ++ [u].
Proof.
  induction 1 as [|x rows Hx _ IH]; simpl; [reflexivity|].
  rewrite IH. apply insert_by_id_snoc. exact Hx.
Qed.

Lemma by_id_transitive (a b c : User) : by_id a b -> by_id b c -> by_id a c.
Proof. unfold by_id. lia. Qed.

Lemma order_by_id_strongly_sorted (rows : list User) :
  StronglySorted by_id (order_by_id rows).
Proof.
  apply Sorted_StronglySorted; [|apply order_by_id_sorted].
  intros a b c. apply by_id_transitive.
Qed.

Lemma filter_insert_by_id (g : User -> bool) (x : User) (rows : list User) :
  StronglySorted by_id rows ->
  filter g (insert_by_id x rows)
  = if g x then insert_by_id x (filter g rows) else filter g rows.
Proof.
  induction 1 as [|y rows Hs IH Hy]; simpl.
  - destruct (g x); reflexivity.
  - destruct (Z.leb_spec (user_id x) (user_id y)) as [L|L]; simpl.
    + destruct (g x) eqn:Gx; [|reflexivity].
      rewrite insert_by_id_first; [reflexivity|].
      assert (F : Forall (by_id x) (y :: rows)).
      { constructor; [exact L|].
        eapply Forall_impl; [|exact Hy].
        intros z Hz. unfold by_id in *. lia. }
      inversion F as [|? ? F1 F2]; subst.
      destruct (g y); [constructor; [exact F1|]|];
        apply Forall_filter_keep; exact F2.
    + rewrite IH. destruct (g y) eqn:Gy; destruct (g x) eqn:Gx;
        simpl; try reflexivity.
      apply Z.leb_gt in L. rewrite L. reflexivity.
Qed.

(** Listing and leaving out commute. *)
Lemma order_by_id_filter (g : User -> bool) (rows : list User) :
  order_by_id (filter g rows) = filter g (order_by_id rows).
Proof.
  induction rows as [|x rows IH]; simpl; [reflexivity|].
  rewrite filter_insert_by_id by apply order_by_id_strongly_sorted.
  destruct (g x); simpl; rewrite IH; reflexivity.
Qed.

Lemma getUsers_all (pgLower : N -> N) request p :
  trim (req_name_filter request) = [] ->
  fst (getUsers pgLower None request p)
  = Reply (mkGetUsersResponse (order_by_id (users p))).
Proof.
  intros Hn. unfold getUsers. rewrite Hn. simpl List.length.
  rewrite andb_false_r. unfold query, selectUsers, record.
  cbn [bind ret fst try_catch users]. rewrite map_rebuild_user.
  reflexivity.
Qed.

Section RoundTrips.

Variable toLowerCase : jsstring -> jsstring.
Variable pgLower : N -> N.

(** X9.  After a reply of [createUser] on a table that satisfies its
    constraints, the listing without a filter is the listing of before
    with the new record at its end. *)
Theorem getUsers_after_createUser fault request p response listing :
  consistent p ->
  trim (req_name_filter listing) = [] ->
  fst (createUser toLowerCase fault request p) = Reply response ->
  exists rows,
    fst (getUsers pgLower None listing p) = Reply (mkGetUsersResponse rows)
    /\ fst (getUsers pgLower None listing
              (snd (createUser toLowerCase fault request p)))
       = Reply (mkGetUsersResponse (rows ++ [resp_user response])).
Proof.
  intros Hc Hl H.
  destruct (createUser_reply_inv _ _ _ _ H)
    as (_ & _ & n & e & _ & _ & Er & Eu & _).
  exists (order_by_id (users p)).
  rewrite !(getUsers_all pgLower _ _ Hl), Eu.
  split; [reflexivity|].
  rewrite order_by_id_snoc; [reflexivity|].
  rewrite Er. simpl.
  eapply Forall_impl; [|exact (ids_issued Hc)]. simpl. intros; lia.
Qed.

(** X10.  After a reply of [deleteUser], the listing without a filter is
    the listing of before without the record of that [id], and a second
    deletion of the same [id] is answered with [NOT_FOUND]. *)
Theorem getUsers_after_deleteUser fault request p response listing :
  trim (req_name_filter listing) = [] ->
  fst (deleteUser fault request p) = Reply response ->
  (exists rows,
      fst (getUsers pgLower None listing p) = Reply (mkGetUsersResponse rows)
      /\ fst (getUsers pgLower None listing (snd (deleteUser fault request p)))
         = Reply (mkGetUsersResponse (without (req_id request) rows)))
  /\ fst (deleteUser None request (snd (deleteUser fault request p)))
     = Fail NOT_FOUND
         ("User with ID " ++ decimal (req_id request) ++ " not found")%string.
Proof.
  intros Hl H.
  assert (Hz : req_id request <> 0%Z).
  { intros Q. rewrite (deleteUser_zero fault request p Q) in H.
    discriminate. }
  assert (Eu : users (snd (deleteUser fault request p))
               = without (req_id request) (users p)).
  { revert H. unfold deleteUser, falsy_number.
    apply Z.eqb_neq in Hz. rewrite Hz. unfold query.
    destruct fault as [[e|e]|]; simpl; try discriminate. reflexivity. }
  split.
  - exists (order_by_id (users p)).
    rewrite !(getUsers_all pgLower _ _ Hl), Eu.
    split; [reflexivity|]. unfold without.
    rewrite order_by_id_filter. reflexivity.
  - rewrite deleteUser_absent; [reflexivity | exact Hz|].
    rewrite Eu. unfold without. intros Q.
    apply in_map_iff in Q as (r & E & Hr).
    apply filter_In in Hr as [_ Hr].
    apply Z.eqb_eq in E. rewrite E in Hr. discriminate.
Qed.

(** X11.  Creation undone: after a reply of [createUser] on a table that
    satisfies its constraints, the deletion of the [id] of the reply
    succeeds and the rows of the table are those of before the
    creation. *)
Theorem createUser_then_deleteUser fault request p response :
  consistent p ->
  fst (createUser toLowerCase fault request p) = Reply response ->
  let deletion := mkDeleteUserRequest (user_id (resp_user response)) in
  let p' := snd (createUser toLowerCase fault request p) in
  fst (deleteUser None deletion p')
  = Reply (mkDeleteUserResponse true
      ("User with ID " ++ decimal (user_id (resp_user response))
       ++ " successfully deleted")%string)
  /\ users (snd (deleteUser None deletion p')) = users p.
Proof.
  intros Hc H deletion p'.
  destruct (createUser_reply_inv _ _ _ _ H)
    as (_ & _ & n & e & _ & _ & Er & Eu & _).
  fold p' in Eu.
  pose proof (ids_issued Hc) as F.
  pose proof (seq_range Hc) as R.
  assert (Hz : req_id deletion <> 0%Z).
  { unfold deletion. simpl. rewrite Er. simpl. lia. }
  assert (Hp : In (req_id deletion) (map user_id (users p'))).
  { rewrite Eu, map_app. apply in_or_app. right. left. reflexivity. }
  rewrite (deleteUser_present _ _ Hz Hp). simpl.
  split; [reflexivity|].
  rewrite Eu, filter_app. simpl. rewrite Z.eqb_refl. simpl.
  rewrite app_nil_r.
  apply (filter_id_nil (user_id (resp_user response)) (users p)).
  intros Q. apply in_map_iff in Q as (r & E & Hr).
  rewrite Forall_forall in F. specialize (F r Hr).
  rewrite Er in E. simpl in E. lia.
Qed.

End RoundTrips.

Lemma toLowerCaseLatinUnit_special (c : N) :
  like_special (toLowerCaseLatinUnit c) = like_special c.
Proof.
  unfold toLowerCaseLatinUnit.
  destruct ((65 <=? c) && (c <=? 90))%N eqn:E; [|reflexivity].
  apply andb_true_iff in E as [E1 E2]. apply N.leb_le in E1, E2.
  unfold like_special.
  replace (c + 32 =? 37)%N with false by (symmetry; apply N.eqb_neq; lia).
  replace (c + 32 =? 95)%N with false by (symmetry; apply N.eqb_neq; lia).
  replace (c + 32 =? 92)%N with false by (symmetry; apply N.eqb_neq; lia).
  replace (c =? 37)%N with false by (symmetry; apply N.eqb_neq; lia).
  replace (c =? 95)%N with false by (symmetry; apply N.eqb_neq; lia).
  replace (c =? 92)%N with false by (symmetry; apply N.eqb_neq; lia).
  reflexivity.
Qed.

Lemma pool_marko_consistent : consistent pool_marko.
Proof. exact (reachable_consistent pool_marko_reachable). Qed.

Lemma getUsers_after_createUser_witness :
  exists rows,
    fst (getUsers toLowerCaseLatinUnit None (mkGetUsersRequest [])
           (initializeDatabase None))
    = Reply (mkGetUsersResponse rows)
    /\ fst (getUsers toLowerCaseLatinUnit None (mkGetUsersRequest [])
              (snd (createUser toLowerCaseLatin None marko
                      (initializeDatabase None))))
       = Reply (mkGetUsersResponse (rows ++ [marko_row])).
Proof.
  apply (@getUsers_after_createUser toLowerCaseLatin toLowerCaseLatinUnit
           None marko (initializeDatabase None)
           (mkCreateUserResponse marko_row) (mkGetUsersRequest [])).
  - apply consistent_initializeDatabase. discriminate.
  - reflexivity.
  - vm_compute. reflexivity.
Defined.

Lemma getUsers_after_deleteUser_witness :
  (exists rows,
      fst (getUsers toLowerCaseLatinUnit None (mkGetUsersRequest []) pool_demo)
      = Reply (mkGetUsersResponse rows)
      /\ fst (getUsers toLowerCaseLatinUnit None (mkGetUsersRequest [])
                (snd (deleteUser None (mkDeleteUserRequest 2) pool_demo)))
         = Reply (mkGetUsersResponse (without 2 rows)))
  /\ fst (deleteUser None (mkDeleteUserRequest 2)
            (snd (deleteUser None (mkDeleteUserRequest 2) pool_demo)))
     = Fail NOT_FOUND "User with ID 2 not found".
Proof.
  apply (@getUsers_after_deleteUser toLowerCaseLatinUnit None
           (mkDeleteUserRequest 2) pool_demo
           (mkDeleteUserResponse true "User with ID 2 successfully deleted")
           (mkGetUsersRequest [])).
  - reflexivity.
  - vm_compute. reflexivity.
Defined.

Lemma createUser_then_deleteUser_witness :
  fst (deleteUser None (mkDeleteUserRequest 2)
         (snd (createUser toLowerCaseLatin None not_an_email_fixed pool_marko)))
  = Reply (mkDeleteUserResponse true "User with ID 2 successfully deleted")
  /\ users (snd (deleteUser None (mkDeleteUserRequest 2)
                   (snd (createUser toLowerCaseLatin None not_an_email_fixed
                           pool_marko))))
     = users pool_marko.
Proof.
  apply (@createUser_then_deleteUser toLowerCaseLatin None not_an_email_fixed
           pool_marko
           (mkCreateUserResponse
              (mkUser 2 (js "Ana Jovanovic")
                      (js "ana.jovanovic@example.com")))).
  - exact pool_marko_consistent.
  - vm_compute. reflexivity.
Defined.


Lemma getUsers_no_filter_witness :
  exists rows,
    fst (getUsers toLowerCaseLatinUnit None (mkGetUsersRequest (js "  "))
           pool_demo)
    = Reply (mkGetUsersResponse rows)
    /\ Permutation rows (users pool_demo)
    /\ Sorted by_id rows.
Proof.
  apply (@getUsers_no_filter toLowerCaseLatinUnit
           (mkGetUsersRequest (js "  ")) pool_demo).
  reflexivity.
Defined.

Lemma getUsers_replies_witness :
  (exists rows,
      fst (getUsers toLowerCaseLatinUnit None (mkGetUsersRequest (js "%\_"))
             pool_demo)
      = Reply (mkGetUsersResponse rows)
      /\ incl rows (users pool_demo)
      /\ Sorted by_id rows)
  /\ fst (getUsers toLowerCaseLatinUnit None
            (mkGetUsersRequest (js "Ana" ++ [0%N])) pool_demo)
     = Fail INTERNAL "Failed to retrieve users".
Proof.
  split.
  - apply (proj1 (@getUsers_replies toLowerCaseLatinUnit eq_refl
                    (mkGetUsersRequest (js "%\_")) pool_demo)).
    apply textual_existsb. vm_compute. reflexivity.
  - apply (proj2 (@getUsers_replies toLowerCaseLatinUnit eq_refl
                    (mkGetUsersRequest (js "Ana" ++ [0%N])) pool_demo)).
    vm_compute. auto.
Defined.

(* ------------------------------------------------------------------ *)
(** ** Start of the two processes *)

Lemma slept_app (a b : list event) : slept (a ++ b) = (slept a + slept b)%Z.
Proof.
  induction a as [|e a IH]; simpl; [reflexivity|].
  destruct e; rewrite ?IH; lia.
Qed.

Lemma slept_database_retries (retries : nat) (delayMs : Z) (i k : nat) :
  slept (flat_map (database_retry retries delayMs) (seq i k))
  = (Z.of_nat k * delayMs)%Z.
Proof.
  revert i. induction k as [|k IH]; intros i; [reflexivity|].
  cbn [seq flat_map]. rewrite slept_app, IH.
  unfold database_retry. simpl slept. lia.
Qed.

Lemma slept_server_retries (retries : nat) (delayMs : Z) (i k : nat) :
  slept (flat_map (server_retry retries delayMs) (seq i k))
  = (Z.of_nat k * delayMs)%Z.
Proof.
  revert i. induction k as [|k IH]; intros i; [reflexivity|].
  cbn [seq flat_map]. rewrite slept_app, IH.
  unfold server_retry. simpl slept. lia.
Qed.

(** Within a budget, either no probe succeeds or one is the first to. *)
Lemma first_success_or_none (probe : nat -> bool) (n : nat) :
  (forall j, (j < n)%nat -> probe j = false)
  \/ exists k, (k < n)%nat /\ first_success probe k.
Proof.
  induction n as [|n [IH|(k & Hk & Hf)]].
  - left. intros j Hj. lia.
  - destruct (probe n) eqn:E.
    + right. exists n. split; [lia|]. split; assumption.
    + left. intros j Hj.
      destruct (Nat.eq_dec j n) as [->|Hn]; [exact E|]. apply IH. lia.
  - right. exists k. split; [lia | exact Hf].
Qed.

Lemma waitForDatabase_ready retries delayMs probe k :
  (k < retries)%nat -> first_success probe k ->
  waitForDatabase retries delayMs probe
  = (flat_map (database_retry retries delayMs) (seq 0 k)
     ++ [Probe; ConsoleLog "Database is ready"],
     Returned tt).
Proof.
  intros Hk [Ht Hf]. unfold waitForDatabase.
  apply waitForDatabase_from_ready; auto.
Qed.

Lemma waitForDatabase_exhausted retries delayMs probe :
  (forall j, (j < retries)%nat -> probe j = false) ->
  waitForDatabase retries delayMs probe
  = (flat_map (database_retry retries delayMs) (seq 0 retries),
     Thrown "Database did not become ready in time").
Proof.
  intros Hf. unfold waitForDatabase.
  apply waitForDatabase_from_exhausted; auto.
Qed.

Lemma waitForServer_ready retries delayMs probe k :
  (k < retries)%nat -> first_success probe k ->
  waitForServer retries delayMs probe
  = (flat_map (server_retry retries delayMs) (seq 0 k)
     ++ [Probe; ConsoleLog ("Server is ready and responding" ++ newline)],
     Returned true).
Proof.
  intros Hk [Ht Hf]. unfold waitForServer.
  apply waitForServer_from_ready; auto.
Qed.

Lemma waitForServer_exhausted retries delayMs probe :
  (forall j, (j < retries)%nat -> probe j = false) ->
  waitForServer retries delayMs probe
  = (flat_map (server_retry retries delayMs) (seq 0 retries),
     Thrown "Server did not become available in time").
Proof.
  intros Hf. unfold waitForServer.
  apply waitForServer_from_exhausted; auto.
Qed.

(** X15.  The time that a loop spends asleep is the fixed delay times
    the number of its failed probes: [k] delays if turn [k] is the first
    to succeed, and the whole budget of delays if none does, the loop
    sleeping once more after its last probe before it throws; so never
    more than the budget of delays. *)
Theorem readiness_sleeps (retries : nat) (delayMs : Z) (probe : nat -> bool) :
  (forall k,
      (k < retries)%nat -> first_success probe k ->
      slept (fst (waitForDatabase retries delayMs probe))
      = (Z.of_nat k * delayMs)%Z
      /\ slept (fst (waitForServer retries delayMs probe))
         = (Z.of_nat k * delayMs)%Z)
  /\ ((forall j, (j < retries)%nat -> probe j = false) ->
      slept (fst (waitForDatabase retries delayMs probe))
      = (Z.of_nat retries * delayMs)%Z
      /\ slept (fst (waitForServer retries delayMs probe))
         = (Z.of_nat retries * delayMs)%Z)
  /\ ((0 <= delayMs)%Z ->
      (slept (fst (waitForDatabase retries delayMs probe))
       <= Z.of_nat retries * delayMs)%Z
      /\ (slept (fst (waitForServer retries delayMs probe))
          <= Z.of_nat retries * delayMs)%Z).
Proof.
  assert (A : forall k,
             (k < retries)%nat -> first_success probe k ->
             slept (fst (waitForDatabase retries delayMs probe))
             = (Z.of_nat k * delayMs)%Z
             /\ slept (fst (waitForServer retries delayMs probe))
                = (Z.of_nat k * delayMs)%Z).
  { intros k Hk Hf.
    rewrite (waitForDatabase_ready delayMs Hk Hf),
            (waitForServer_ready delayMs Hk Hf).
    cbn [fst]. rewrite !slept_app, slept_database_retries,
                       slept_server_retries.
    simpl slept. lia. }
  assert (B : (forall j, (j < retries)%nat -> probe j = false) ->
              slept (fst (waitForDatabase retries delayMs probe))
              = (Z.of_nat retries * delayMs)%Z
              /\ slept (fst (waitForServer retries delayMs probe))
                 = (Z.of_nat retries * delayMs)%Z).
  { intros Hf.
    rewrite (@waitForDatabase_exhausted retries delayMs probe Hf),
            (@waitForServer_exhausted retries delayMs probe Hf).
    cbn [fst]. rewrite slept_database_retries, slept_server_retries.
    auto. }
  split; [exact A|]. split; [exact B|].
  intros Hd.
  destruct (first_success_or_none probe retries) as [Hf|(k & Hk & Hf)].
  - destruct (B Hf) as [-> ->]. lia.
  - destruct (A k Hk Hf) as [-> ->]. nia.
Qed.

Lemma readiness_sleeps_witness :
  slept (fst (waitForDatabase 20 1000 (ready_from 2))) = 2000%Z
  /\ slept (fst (waitForServer 30 1000 never_ready)) = 30000%Z
  /\ (slept (fst (waitForDatabase 20 1000 never_ready)) <= 20000)%Z.
Proof.
  pose proof (readiness_sleeps 20 1000 (ready_from 2)) as (A & _ & _).
  pose proof (readiness_sleeps 30 1000 never_ready) as (_ & B & _).
  pose proof (readiness_sleeps 20 1000 never_ready) as (_ & _ & C).
  split; [|split].
  - apply (A 2%nat); [lia|]. split; [reflexivity|].
    intros [|[|j]] Hj; [reflexivity | reflexivity | lia].
  - apply B. reflexivity.
  - apply C. lia.
Defined.

(** X16.  [main] of the server ends the process, with status 1, exactly
    if none of the twenty probes of the store succeeds or
    [initializeDatabase] throws.  The process runs on exactly if a probe
    succeeds, the table is set up and the listener is bound.  If a probe
    succeeds and the table is set up but the listener cannot be bound,
    [main] logs the error and returns without a call of [process.exit],
    and the process ends by itself with status 0.  The start sleeps three
    seconds before its first probe and at most twenty-three in all. *)
Theorem server_main_outcome probe init bound :
  (snd (server_main probe init bound) = Exited 1
   <-> (forall j, (j < 20)%nat -> probe j = false)
       \/ exists message, init = Thrown message)
  /\ (snd (server_main probe init bound) = Running
      <-> (exists k, (k < 20)%nat /\ probe k = true)
          /\ (exists u, init = Returned u)
          /\ exists u, bound = Returned u)
  /\ (snd (server_main probe init bound) = Exited 0
      <-> (exists k, (k < 20)%nat /\ probe k = true)
          /\ (exists u, init = Returned u)
          /\ exists message, bound = Thrown message)
  /\ (snd (server_main probe init bound) = Exited 0 ->
      forall status, ~ In (Exit status) (fst (server_main probe init bound)))
  /\ (slept (fst (server_main probe init bound)) <= 23000)%Z
  /\ exists rest,
       fst (server_main probe init bound)
       = ConsoleLog "Waiting for database connection..."
         :: Sleep 3000 :: rest.
Proof.
  destruct (first_success_or_none probe 20) as [Hf|(k & Hk & Hf)].
  - unfold server_main. rewrite (@waitForDatabase_exhausted 20 1000 probe Hf).
    cbn [fst snd]. split; [|split; [|split; [|split; [|split]]]].
    + split; auto.
    + split; [discriminate|].
      intros [(j & Hj & Q) _]. rewrite (Hf j Hj) in Q. discriminate.
    + split; [discriminate|].
      intros [(j & Hj & Q) _]. rewrite (Hf j Hj) in Q. discriminate.
    + discriminate.
    + rewrite !slept_app, slept_database_retries.
      cbn [slept fold_right]. lia.
    + eexists. reflexivity.
  - assert (N : ~ forall j, (j < 20)%nat -> probe j = false).
    { intros Q. destruct Hf as [Ht _]. rewrite (Q k Hk) in Ht.
      discriminate. }
    assert (P : exists k, (k < 20)%nat /\ probe k = true)
      by (exists k; split; [exact Hk | apply Hf]).
    assert (S : (slept (flat_map (database_retry 20 1000) (seq 0 k))
                 <= 19000)%Z)
      by (rewrite slept_database_retries; lia).
    assert (X : forall status,
               ~ In (Exit status) (flat_map (database_retry 20 1000)
                                            (seq 0 k))).
    { intros status Q. apply in_flat_map in Q as (i & _ & Q).
      unfold database_retry in Q. simpl in Q.
      destruct Q as [Q|[Q|[Q|[]]]]; discriminate Q. }
    unfold server_main. rewrite (waitForDatabase_ready 1000 Hk Hf).
    destruct init as [u|message]; [destruct bound as [v|message]|];
      cbn [fst snd]; (split; [|split; [|split; [|split; [|split]]]]);
      try (eexists; reflexivity);
      try (rewrite !slept_app; set (x := slept (flat_map _ _)) in *;
           cbn [slept fold_right]; lia);
      try discriminate.
    + split; [discriminate|]. intros [Q|(m & Q)]; [tauto | discriminate].
    + split; [|reflexivity]. intros _. eauto.
    + split; [discriminate|]. intros (_ & _ & m & Q). discriminate.
    + split; [discriminate|]. intros [Q|(m & Q)]; [tauto | discriminate].
    + split; [discriminate|]. intros (_ & _ & v & Q). discriminate.
    + split; [|reflexivity]. intros _. eauto.
    + intros _ status Q. specialize (X status).
      cbn [app In] in Q. rewrite !in_app_iff in Q. cbn [In] in Q.
      intuition congruence.
    + split; [|reflexivity]. intros _. right. eauto.
    + split; [discriminate|]. intros (_ & (u & Q) & _). discriminate.
    + split; [discriminate|]. intros (_ & (u & Q) & _). discriminate.
Qed.

Lemma server_main_outcome_witness :
  snd (server_main never_ready (Returned tt) (Returned tt)) = Exited 1
  /\ snd (server_main (ready_from 2) (Thrown "connection refused")
            (Returned tt)) = Exited 1
  /\ snd (server_main (ready_from 2) (Returned tt) (Returned tt)) = Running
  /\ snd (server_main (ready_from 2) (Returned tt)
            (Thrown "address already in use")) = Exited 0.
Proof.
  assert (P : exists k, (k < 20)%nat /\ ready_from 2 k = true)
    by (exists 2%nat; split; [lia | reflexivity]).
  split; [|split; [|split]].
  - apply (proj1 (server_main_outcome never_ready (Returned tt)
                    (Returned tt))).
    left. reflexivity.
  - apply (proj1 (server_main_outcome (ready_from 2)
                    (Thrown "connection refused") (Returned tt))).
    right. eexists. reflexivity.
  - apply (proj1 (proj2 (server_main_outcome (ready_from 2) (Returned tt)
                           (Returned tt)))).
    split; [exact P|]. split; exists tt; reflexivity.
  - apply (proj1 (proj2 (proj2 (server_main_outcome (ready_from 2)
                                  (Returned tt)
                                  (Thrown "address already in use"))))).
    split; [exact P|]. split; eexists; reflexivity.
Defined.

(** X17.  [main] of the client ends with status 0 exactly if one of its
    thirty probes of the server succeeds and the demonstration ends with
    0.  If a probe succeeds, the process ends with the status of the
    demonstration, whose trace follows that of the wait; if none does, the
    demonstration is not run at all. *)
Theorem client_main_outcome probe demo :
  (snd (client_main probe demo) = Exited 0
   <-> (exists k, (k < 30)%nat /\ probe k = true) /\ snd demo = 0%Z)
  /\ ((exists k, (k < 30)%nat /\ probe k = true) ->
      snd (client_main probe demo) = Exited (snd demo)
      /\ exists trace,
           fst (client_main probe demo)
           = trace ++ fst demo ++ [Exit (snd demo)])
  /\ ((forall j, (j < 30)%nat -> probe j = false) ->
      forall demo', client_main probe demo = client_main probe demo').
Proof.
  destruct (first_success_or_none probe 30) as [Hf|(k & Hk & Hf)].
  - unfold client_main. rewrite (@waitForServer_exhausted 30 1000 probe Hf).
    cbn [fst snd]. split; [|split].
    + split; [discriminate|].
      intros [(j & Hj & Q) _]. rewrite (Hf j Hj) in Q. discriminate.
    + intros (j & Hj & Q). rewrite (Hf j Hj) in Q. discriminate.
    + reflexivity.
  - unfold client_main. rewrite (waitForServer_ready 1000 Hk Hf).
    cbn [fst snd]. split; [|split].
    + split.
      * intros Q. inversion Q as [E]. split; [|reflexivity].
        exists k. split; [exact Hk | apply Hf].
      * intros [_ ->]. reflexivity.
    + intros _. split; [reflexivity|].
      eexists. rewrite app_assoc. reflexivity.
    + intros Q. destruct Hf as [Ht _]. rewrite (Q k Hk) in Ht.
      discriminate.
Qed.

Lemma client_main_outcome_witness :
  snd (client_main (ready_from 2) ([], 0%Z)) = Exited 0
  /\ snd (client_main (ready_from 2) ([], 1%Z)) = Exited 1
  /\ client_main never_ready ([], 0%Z) = client_main never_ready ([], 1%Z).
Proof.
  split; [|split].
  - apply (proj1 (client_main_outcome (ready_from 2) ([], 0%Z))).
    split; [|reflexivity]. exists 2%nat. split; [lia | reflexivity].
  - apply (proj1 (proj2 (client_main_outcome (ready_from 2) ([], 1%Z)))).
    exists 2%nat. split; [lia | reflexivity].
  - apply (proj2 (proj2 (client_main_outcome never_ready ([], 0%Z)))).
    reflexivity.
Defined.

(* ------------------------------------------------------------------ *)
(** ** The demonstration of the client *)

Lemma await_call_reply {R A B : Type} (handler : Pool -> outcome R * Pool)
    (result : R -> A) (k : A -> step B) p trace response p' :
  handler p = (Reply response, p') ->
  await (call handler result) k p trace = k (result response) p' trace.
Proof. intros E. unfold await, call. rewrite E. reflexivity. Qed.

Lemma await_call_fail {R A B : Type} (handler : Pool -> outcome R * Pool)
    (result : R -> A) (k : A -> step B) p trace code message p' :
  handler p = (Fail code message, p') ->
  await (call handler result) k p trace = (inr (code, message), p', trace).
Proof. intros E. unfold await, call. rewrite E. reflexivity. Qed.

Lemma await_sleep {B : Type} (ms : Z) (k : unit -> step B) p trace :
  await (sleep ms) k p trace = k tt p (trace ++ [Sleep ms]).
Proof. reflexivity. Qed.

(** With the statement run by the store, [getUsers] replies to a filter
    that is text, and the table is as it was. *)
Lemma getUsers_runs (pgLower : N -> N) request p :
  pgLower 37%N = 37%N ->
  textual (trim (req_name_filter request)) ->
  exists rows st,
    getUsers pgLower None request p
    = (Reply (mkGetUsersResponse rows), record st p).
Proof.
  intros Hp Ht. unfold getUsers.
  destruct (negb (falsy_string (req_name_filter request))
            && (0 <? List.length (trim (req_name_filter request)))%nat).
  - unfold query, selectUsersLike.
    rewrite (pattern_bound Ht). unfold ret at 1. cbn [bind].
    rewrite !map_app. cbn [map app]. rewrite Hp.
    destruct (proj2 (like_parse_closed
                       (map pgLower (trim (req_name_filter request))))
                    37%N) as [toks ->].
    cbn [bind ret fst snd try_catch]. eexists. eexists. reflexivity.
  - unfold query, selectUsers.
    cbn [bind ret fst snd try_catch]. eexists. eexists. reflexivity.
Qed.

Section Demonstration.

Variable toLowerCase : jsstring -> jsstring.
Variable pgLower : N -> N.

(** The insertion of a new address that fits. *)
Lemma createUser_fresh request p :
  consistent p ->
  validRequest request ->
  textual (trim (req_name request)) ->
  textual (toLowerCase (req_email request)) ->
  fits (trim (req_name request)) ->
  fits (toLowerCase (req_email request)) ->
  ~ In (toLowerCase (req_email request)) (map user_email (users p)) ->
  (users_id_seq p < serial_max)%Z ->
  createUser toLowerCase None request p
  = (Reply (mkCreateUserResponse
              (mkUser (users_id_seq p + 1) (trim (req_name request))
                      (toLowerCase (req_email request)))),
     mkPool (users p
             ++ [mkUser (users_id_seq p + 1) (trim (req_name request))
                        (toLowerCase (req_email request))])
            (users_id_seq p + 1)
            (issued p
             ++ [InsertUser (trim (req_name request))
                            (toLowerCase (req_email request))])).
Proof.
  intros Hc Hv Tn Te Hn He Hu Hs.
  assert (Hi : has_id (users_id_seq p + 1) (users p) = false).
  { apply has_id_false. intros Q. apply in_map_iff in Q as (r & E & Hr).
    pose proof (ids_issued Hc) as F. rewrite Forall_forall in F.
    specialize (F r Hr). lia. }
  apply has_email_false in Hu.
  rewrite (createUser_valid toLowerCase None p Hv).
  unfold query. rewrite insertUser_fresh by assumption. reflexivity.
Qed.


End Demonstration.


Lemma basicLatin_marko : basicLatin (js "marko.petrovic@example.com").
Proof. unfold basicLatin. repeat (constructor; [reflexivity|]). constructor. Qed.

Lemma basicLatin_ana : basicLatin (js "ana.jovanovic@example.com").
Proof. unfold basicLatin. repeat (constructor; [reflexivity|]). constructor. Qed.

Lemma basicLatin_nikola : basicLatin (js "nikola.nikolic@example.com").
Proof. unfold basicLatin. repeat (constructor; [reflexivity|]). constructor. Qed.

Lemma demo_request_valid (name email : jsstring) :
  trim name <> [] -> isValidEmail email = true ->
  validRequest (mkCreateUserRequest name email).
Proof.
  intros Hn He. apply validRequest_iff. split; [exact Hn|].
  apply isValidEmail_shape. exact He.
Qed.

Section DemonstrationRun.

Variable toLowerCase : jsstring -> jsstring.
Variable pgLower : N -> N.

(** On text of the Basic Latin block [toLowerCase] is the lowering of
    the letters [A] to [Z]; [LOWER] leaves [%] as it is. *)
Hypothesis toLowerCase_basicLatin :
  forall s, basicLatin s -> toLowerCase s = toLowerCaseLatin s.
Hypothesis pgLower_percent : pgLower 37%N = 37%N.

(** X19.  On a table that satisfies its constraints, holds none of the
    three addresses of the demonstration and leaves room for three
    identifiers, with every statement run by the store, the [try] block
    of the client ends with status 0 after sleeping five seconds in all;
    it leaves the table with two rows more, the first and the third user
    under the first and the third new identifier, the second user created
    and deleted again. *)
Theorem client_demo_succeeds faults p :
  consistent p ->
  (forall k, (k < 9)%nat -> faults k = None) ->
  (users_id_seq p + 3 <= serial_max)%Z ->
  ~ In (js "marko.petrovic@example.com") (map user_email (users p)) ->
  ~ In (js "ana.jovanovic@example.com") (map user_email (users p)) ->
  ~ In (js "nikola.nikolic@example.com") (map user_email (users p)) ->
  fst (client_try toLowerCase pgLower faults p)
  = ([Sleep 1000; Sleep 1000; Sleep 1000; Sleep 1000; Sleep 500; Sleep 500],
     0%Z)
  /\ users (snd (client_try toLowerCase pgLower faults p))
     = users p
       ++ [mkUser (users_id_seq p + 1) (js "Marko Petrovi" ++ [263%N])
                  (js "marko.petrovic@example.com");
           mkUser (users_id_seq p + 3) (js "Nikola Nikoli" ++ [263%N])
                  (js "nikola.nikolic@example.com")]
  /\ users_id_seq (snd (client_try toLowerCase pgLower faults p))
     = (users_id_seq p + 3)%Z.
Proof.
  intros Hc Hf Hs Hm Ha Hn.
  pose proof (seq_range Hc) as Hr.
  assert (Lm : toLowerCase (js "marko.petrovic@example.com")
               = js "marko.petrovic@example.com")
    by (rewrite (toLowerCase_basicLatin basicLatin_marko); reflexivity).
  assert (La : toLowerCase (js "ana.jovanovic@example.com")
               = js "ana.jovanovic@example.com")
    by (rewrite (toLowerCase_basicLatin basicLatin_ana); reflexivity).
  assert (Ln : toLowerCase (js "nikola.nikolic@example.com")
               = js "nikola.nikolic@example.com")
    by (rewrite (toLowerCase_basicLatin basicLatin_nikola); reflexivity).
  (* the three creations *)
  pose proof (@createUser_fresh toLowerCase
                (mkCreateUserRequest (js "Marko Petrovi" ++ [263%N])
                                     (js "marko.petrovic@example.com"))
                p Hc) as E1.
  cbn [req_name req_email] in E1. rewrite Lm in E1.
  assert (V1 : validRequest
                 (mkCreateUserRequest (js "Marko Petrovi" ++ [263%N])
                                      (js "marko.petrovic@example.com")))
    by (apply demo_request_valid; [vm_compute; discriminate | reflexivity]).
  assert (T1 : textual (trim (js "Marko Petrovi" ++ [263%N])))
    by (apply textual_existsb; vm_compute; reflexivity).
  assert (U1 : textual (js "marko.petrovic@example.com"))
    by (apply textual_existsb; vm_compute; reflexivity).
  assert (F1 : fits (trim (js "Marko Petrovi" ++ [263%N])))
    by (unfold fits; vm_compute; lia).
  assert (G1 : fits (js "marko.petrovic@example.com"))
    by (unfold fits; vm_compute; lia).
  assert (S1 : (users_id_seq p < serial_max)%Z) by lia.
  specialize (E1 V1 T1 U1 F1 G1 Hm S1).
  change (trim (js "Marko Petrovi" ++ [263%N]))
    with (js "Marko Petrovi" ++ [263%N]) in E1.
  set (m := mkUser (users_id_seq p + 1) (js "Marko Petrovi" ++ [263%N])
                   (js "marko.petrovic@example.com")) in *.
  set (p1 := mkPool (users p ++ [m]) (users_id_seq p + 1) _) in E1.
  assert (C1 : consistent p1).
  { pose proof (consistent_serve toLowerCase pgLower
                  (CallCreateUser None
                     (mkCreateUserRequest (js "Marko Petrovi" ++ [263%N])
                        (js "marko.petrovic@example.com"))) Hc) as Q.
    cbn [serve] in Q. rewrite E1 in Q. exact Q. }
  pose proof (@createUser_fresh toLowerCase
                (mkCreateUserRequest (js "Ana Jovanovi" ++ [263%N])
                                     (js "ana.jovanovic@example.com"))
                p1 C1) as E2.
  cbn [req_name req_email] in E2. rewrite La in E2.
  assert (V2 : validRequest
                 (mkCreateUserRequest (js "Ana Jovanovi" ++ [263%N])
                                      (js "ana.jovanovic@example.com")))
    by (apply demo_request_valid; [vm_compute; discriminate | reflexivity]).
  assert (T2 : textual (trim (js "Ana Jovanovi" ++ [263%N])))
    by (apply textual_existsb; vm_compute; reflexivity).
  assert (U2 : textual (js "ana.jovanovic@example.com"))
    by (apply textual_existsb; vm_compute; reflexivity).
  assert (F2 : fits (trim (js "Ana Jovanovi" ++ [263%N])))
    by (unfold fits; vm_compute; lia).
  assert (G2 : fits (js "ana.jovanovic@example.com"))
    by (unfold fits; vm_compute; lia).
  specialize (E2 V2 T2 U2 F2 G2).
  change (trim (js "Ana Jovanovi" ++ [263%N]))
    with (js "Ana Jovanovi" ++ [263%N]) in E2.
  assert (A1 : ~ In (js "ana.jovanovic@example.com")
                    (map user_email (users p1))).
  { unfold p1. cbn [users]. rewrite map_app, in_app_iff.
    intros [Q|[Q|[]]]; [exact (Ha Q) | discriminate Q]. }
  assert (S2 : (users_id_seq p1 < serial_max)%Z)
    by (unfold p1; cbn [users_id_seq]; lia).
  specialize (E2 A1 S2).
  cbn [users users_id_seq issued p1] in E2.
  set (a := mkUser (users_id_seq p + 1 + 1) (js "Ana Jovanovi" ++ [263%N])
                   (js "ana.jovanovic@example.com")) in *.
  set (p2 := mkPool ((users p ++ [m]) ++ [a]) (users_id_seq p + 1 + 1) _)
    in E2.
  assert (C2 : consistent p2).
  { pose proof (consistent_serve toLowerCase pgLower
                  (CallCreateUser None
                     (mkCreateUserRequest (js "Ana Jovanovi" ++ [263%N])
                        (js "ana.jovanovic@example.com"))) C1) as Q.
    cbn [serve] in Q. rewrite E2 in Q. exact Q. }
  pose proof (@createUser_fresh toLowerCase
                (mkCreateUserRequest (js "Nikola Nikoli" ++ [263%N])
                                     (js "nikola.nikolic@example.com"))
                p2 C2) as E3.
  cbn [req_name req_email] in E3. rewrite Ln in E3.
  assert (V3 : validRequest
                 (mkCreateUserRequest (js "Nikola Nikoli" ++ [263%N])
                                      (js "nikola.nikolic@example.com")))
    by (apply demo_request_valid; [vm_compute; discriminate | reflexivity]).
  assert (T3 : textual (trim (js "Nikola Nikoli" ++ [263%N])))
    by (apply textual_existsb; vm_compute; reflexivity).
  assert (U3 : textual (js "nikola.nikolic@example.com"))
    by (apply textual_existsb; vm_compute; reflexivity).
  assert (F3 : fits (trim (js "Nikola Nikoli" ++ [263%N])))
    by (unfold fits; vm_compute; lia).
  assert (G3 : fits (js "nikola.nikolic@example.com"))
    by (unfold fits; vm_compute; lia).
  specialize (E3 V3 T3 U3 F3 G3).
  change (trim (js "Nikola Nikoli" ++ [263%N]))
    with (js "Nikola Nikoli" ++ [263%N]) in E3.
  assert (A2 : ~ In (js "nikola.nikolic@example.com")
                    (map user_email (users p2))).
  { unfold p2. cbn [users]. rewrite !map_app, !in_app_iff.
    intros [[Q|[Q|[]]]|[Q|[]]];
      [exact (Hn Q) | discriminate Q | discriminate Q]. }
  assert (S3 : (users_id_seq p2 < serial_max)%Z)
    by (unfold p2; cbn [users_id_seq]; lia).
  specialize (E3 A2 S3).
  cbn [users users_id_seq issued p2] in E3.
  set (n := mkUser (users_id_seq p + 1 + 1 + 1)
                   (js "Nikola Nikoli" ++ [263%N])
                   (js "nikola.nikolic@example.com")) in *.
  set (p3 := mkPool (((users p ++ [m]) ++ [a]) ++ [n])
                    (users_id_seq p + 1 + 1 + 1) _) in E3.
  (* the first listing and the deletion *)
  assert (T0 : forall f : string, existsb (N.eqb 0) (trim (js f)) = false ->
                textual (trim (req_name_filter (mkGetUsersRequest (js f)))))
    by (intros f Q; apply textual_existsb; exact Q).
  destruct (@getUsers_runs pgLower (mkGetUsersRequest []) p3 pgLower_percent
              (T0 EmptyString eq_refl))
    as (rows4 & st4 & E4).
  assert (Hz : req_id (mkDeleteUserRequest (user_id a)) <> 0%Z)
    by (unfold a; simpl; lia).
  assert (Hp : In (req_id (mkDeleteUserRequest (user_id a)))
                  (map user_id (users (record st4 p3)))).
  { unfold p3, a. cbn [record users req_id user_id].
    rewrite !map_app, !in_app_iff. left. right. left. reflexivity. }
  pose proof (deleteUser_present _ _ Hz Hp) as E5.
  cbn [record users users_id_seq issued req_id p3] in E5.
  assert (Ef : filter (fun r => negb (user_id r =? user_id a)%Z)
                      (((users p ++ [m]) ++ [a]) ++ [n])
               = users p ++ [m; n]).
  { rewrite !filter_app.
    rewrite (proj2 (filter_id_nil (user_id a) (users p)
               ltac:(intros Q; apply in_map_iff in Q as (r & E & Hq);
                     pose proof (ids_issued Hc) as F;
                     rewrite Forall_forall in F; specialize (F r Hq);
                     unfold a in E; simpl in E; lia))).
    unfold m, a, n. cbn [filter user_id].
    rewrite Z.eqb_refl.
    replace (users_id_seq p + 1 =? users_id_seq p + 1 + 1)%Z with false
      by (symmetry; apply Z.eqb_neq; lia).
    replace (users_id_seq p + 1 + 1 + 1 =? users_id_seq p + 1 + 1)%Z
      with false by (symmetry; apply Z.eqb_neq; lia).
    cbn [negb]. rewrite <- !app_assoc. reflexivity. }
  rewrite Ef in E5.
  set (p5 := mkPool (users p ++ [m; n]) (users_id_seq p + 1 + 1 + 1) _)
    in E5.
  destruct (@getUsers_runs pgLower (mkGetUsersRequest []) p5 pgLower_percent
              (T0 EmptyString eq_refl))
    as (rows6 & st6 & E6).
  destruct (@getUsers_runs pgLower (mkGetUsersRequest (js "Marko"))
              (record st6 p5) pgLower_percent (T0 "Marko"%string eq_refl))
    as (rows7 & st7 & E7).
  destruct (@getUsers_runs pgLower (mkGetUsersRequest (js "nik"))
              (record st7 (record st6 p5)) pgLower_percent
              (T0 "nik"%string eq_refl))
    as (rows8 & st8 & E8).
  destruct (@getUsers_runs pgLower (mkGetUsersRequest (js "Ana"))
              (record st8 (record st7 (record st6 p5))) pgLower_percent
              (T0 "Ana"%string eq_refl))
    as (rows9 & st9 & E9).
  (* the run *)
  unfold client_try, client_demo, client_createUser, client_getUsers,
         client_deleteUser.
  rewrite !Hf by lia.
  erewrite await_call_reply by exact E1. cbv beta.
  erewrite await_call_reply by exact E2. cbv beta.
  erewrite await_call_reply by exact E3. cbv beta.
  rewrite await_sleep.
  erewrite await_call_reply by exact E4. cbv beta.
  rewrite await_sleep.
  erewrite await_call_reply by exact E5. cbv beta.
  rewrite await_sleep.
  erewrite await_call_reply by exact E6. cbv beta.
  rewrite await_sleep.
  erewrite await_call_reply by exact E7. cbv beta.
  rewrite await_sleep.
  erewrite await_call_reply by exact E8. cbv beta.
  rewrite await_sleep.
  erewrite await_call_reply by exact E9. cbv beta.
  unfold resolve. cbn [fst snd app record users users_id_seq p5].
  split; [reflexivity|]. split.
  - unfold m, n.
    replace (users_id_seq p + 1 + 1 + 1)%Z with (users_id_seq p + 3)%Z
      by lia.
    reflexivity.
  - lia.
Qed.

End DemonstrationRun.

Lemma client_demo_succeeds_witness :
  fst (client_try toLowerCaseLatin toLowerCaseLatinUnit (fun _ => None)
         (initializeDatabase None))
  = ([Sleep 1000; Sleep 1000; Sleep 1000; Sleep 1000; Sleep 500; Sleep 500],
     0%Z)
  /\ users (snd (client_try toLowerCaseLatin toLowerCaseLatinUnit
                   (fun _ => None) (initializeDatabase None)))
     = users (initializeDatabase None)
       ++ [mkUser (users_id_seq (initializeDatabase None) + 1)
                  (js "Marko Petrovi" ++ [263%N])
                  (js "marko.petrovic@example.com");
           mkUser (users_id_seq (initializeDatabase None) + 3)
                  (js "Nikola Nikoli" ++ [263%N])
                  (js "nikola.nikolic@example.com")]
  /\ users_id_seq (snd (client_try toLowerCaseLatin toLowerCaseLatinUnit
                          (fun _ => None) (initializeDatabase None)))
     = (users_id_seq (initializeDatabase None) + 3)%Z.
Proof.
  apply (@client_demo_succeeds toLowerCaseLatin toLowerCaseLatinUnit
           (fun s _ => eq_refl) eq_refl (fun _ => None)
           (initializeDatabase None)).
  - apply consistent_initializeDatabase. discriminate.
  - reflexivity.
  - vm_compute. discriminate.
  - simpl. tauto.
  - simpl. tauto.
  - simpl. tauto.
Defined.

(* ------------------------------------------------------------------ *)
(** ** One statement for a call *)

Lemma issued_insertUser (name email : jsstring) (p : Pool) :
  issued (snd (insertUser name email p)) = issued p.
Proof. apply insertUser_spec. Qed.

Section Statements.

Variable toLowerCase : jsstring -> jsstring.
Variable pgLower : N -> N.

(** X20.  A handler sends one statement to the store or none, and never
    tries again: [createUser] sends nothing for a request that fails a
    check and else one [INSERT] with the trimmed name and the address in
    lower case; [getUsers] sends one [SELECT]; [deleteUser] sends nothing
    for the [id] zero and else one [DELETE] for the [id]. *)
Theorem handlers_send_one_statement fault create get delete p :
  (issued (snd (createUser toLowerCase fault create p))
   = if isValidEmail (req_email create)
        && negb (falsy_string (trim (req_name create)))
     then issued p
          ++ [InsertUser (trim (req_name create))
                         (toLowerCase (req_email create))]
     else issued p)
  /\ (exists st,
        issued (snd (getUsers pgLower fault get p)) = issued p ++ [st]
        /\ (st = SelectUsers
            \/ st = SelectUsersLike
                      ([37%N] ++ trim (req_name_filter get) ++ [37%N])))
  /\ (issued (snd (deleteUser fault delete p))
      = if Z.eqb (req_id delete) 0 then issued p
        else issued p ++ [DeleteUserById (req_id delete)]).
Proof.
  split; [|split].
  - destruct (validRequest_decide create) as [V|V].
    + pose proof (validRequest_checks V) as (_ & H2 & H3).
      apply negb_false_iff in H3. rewrite H3.
      destruct (trim (req_name create)) as [|c t] eqn:Et;
        [discriminate H2|]. cbn [falsy_string negb andb].
      rewrite (createUser_valid toLowerCase fault p V). rewrite Et.
      pose proof (issued_insertUser (c :: t)
                    (toLowerCase (req_email create))
                    (record (InsertUser (c :: t)
                                        (toLowerCase (req_email create))) p))
        as Q.
      unfold query. destruct fault as [[e|e]|]; [reflexivity|exact Q|].
      destruct (insertUser _ _ _) as [result p1]. exact Q.
    + destruct (createUser_invalid toLowerCase V) as (m & E). rewrite E.
      cbn [snd].
      destruct (isValidEmail (req_email create)) eqn:Ev; [|reflexivity].
      destruct (trim (req_name create)) as [|c t] eqn:Et; [reflexivity|].
      exfalso. apply V. apply validRequest_iff. split; [congruence|].
      apply isValidEmail_shape. exact Ev.
  - unfold getUsers, query, selectUsersLike, selectUsers.
    destruct (negb (falsy_string (req_name_filter get))
              && (0 <? List.length (trim (req_name_filter get)))%nat);
      destruct fault as [[e|e]|]; cbn [snd record issued]; eexists; split;
      try reflexivity; auto.
  - unfold deleteUser, falsy_number.
    destruct (req_id delete =? 0)%Z; [reflexivity|].
    unfold query. destruct fault as [[e|e]|]; reflexivity.
Qed.

(** X21.  [getUsers] leaves rows and sequence as they are, whatever its
    answer, and no call of [deleteUser] moves the sequence.  A call of
    [deleteUser] that ends in an error leaves the rows as they are, unless
    the connection failed after the store had run the deletion: then the
    answer for an [id] other than zero is [INTERNAL] "Failed to delete
    user", and the pool is the one that the same call leaves when the
    connection holds, without the row of that [id]. *)
Theorem reads_and_failed_deletions_keep_rows fault get delete p :
  (users (snd (getUsers pgLower fault get p)) = users p
   /\ users_id_seq (snd (getUsers pgLower fault get p)) = users_id_seq p)
  /\ ((forall e, fault <> Some (After e)) ->
      forall code message,
        fst (deleteUser fault delete p) = Fail code message ->
        users (snd (deleteUser fault delete p)) = users p)
  /\ users_id_seq (snd (deleteUser fault delete p)) = users_id_seq p
  /\ (forall e,
        fault = Some (After e) -> req_id delete <> 0%Z ->
        fst (deleteUser fault delete p)
        = Fail INTERNAL "Failed to delete user"
        /\ snd (deleteUser fault delete p)
           = snd (deleteUser None delete p)).
Proof.
  split; [apply getUsers_pool|]. split; [|split].
  - intros Hf code message. unfold deleteUser, falsy_number.
    destruct (req_id delete =? 0)%Z; [reflexivity|].
    unfold query, deleteUserById.
    destruct fault as [[e|e]|]; cbn [fst snd try_catch bind ret];
      [reflexivity | exfalso; apply (Hf e); reflexivity |].
    cbn [record users users_id_seq issued].
    destruct (filter (fun r => (user_id r =? req_id delete)%Z) (users p))
      as [|r rows] eqn:E; [|discriminate].
    intros _.
    assert (Ha : ~ In (req_id delete) (map user_id (users p))).
    { intros Q. apply filter_id_cons in Q. congruence. }
    exact (proj2 (filter_id_nil _ _ Ha)).
  - unfold deleteUser, falsy_number.
    destruct (req_id delete =? 0)%Z; [reflexivity|].
    unfold query. destruct fault as [[e|e]|]; reflexivity.
  - intros e -> Hz. unfold deleteUser, falsy_number.
    apply Z.eqb_neq in Hz. rewrite Hz. split; reflexivity.
Qed.

End Statements.

Lemma handlers_send_one_statement_witness :
  issued (snd (createUser toLowerCaseLatin None not_an_email pool_marko))
  = issued pool_marko
  /\ issued (snd (createUser toLowerCaseLatin None marko_again pool_marko))
     = issued pool_marko
       ++ [InsertUser (js "Marko") (js "marko.petrovic@example.com")]
  /\ issued (snd (deleteUser None (mkDeleteUserRequest 0) pool_marko))
     = issued pool_marko.
Proof.
  pose proof (@handlers_send_one_statement toLowerCaseLatin
                toLowerCaseLatinUnit None not_an_email filter_a_c
                (mkDeleteUserRequest 0) pool_marko) as (A & _ & C).
  pose proof (@handlers_send_one_statement toLowerCaseLatin
                toLowerCaseLatinUnit None marko_again filter_a_c
                (mkDeleteUserRequest 0) pool_marko) as (B & _ & _).
  split; [exact A|]. split; [exact B | exact C].
Defined.

Lemma reads_and_failed_deletions_keep_rows_witness :
  let lost := mkExn (Some "ECONNRESET"%string) "read ECONNRESET" in
  users (snd (deleteUser None (mkDeleteUserRequest 999999) pool_marko))
  = users pool_marko
  /\ fst (deleteUser (Some (After lost)) (mkDeleteUserRequest 1) pool_marko)
     = Fail INTERNAL "Failed to delete user"
  /\ users (snd (deleteUser (Some (After lost)) (mkDeleteUserRequest 1)
                   pool_marko))
     = [].
Proof.
  intros lost. split.
  - apply (proj1 (proj2 (@reads_and_failed_deletions_keep_rows
                           toLowerCaseLatinUnit None filter_a_c
                           (mkDeleteUserRequest 999999) pool_marko))
             ltac:(discriminate)
             NOT_FOUND "User with ID 999999 not found"%string).
    vm_compute. reflexivity.
  - destruct (proj2 (proj2 (proj2 (@reads_and_failed_deletions_keep_rows
                                     toLowerCaseLatinUnit
                                     (Some (After lost)) filter_a_c
                                     (mkDeleteUserRequest 1) pool_marko)))
                    lost eq_refl ltac:(discriminate)) as [A B].
    split; [exact A|]. rewrite B. vm_compute. reflexivity.
Defined.
